(** * Dependency broker (src/src/broker.js): resolution order and lifecycle

    A shallow embedding of the [Broker] class: the registries of singletons,
    actions and services, the dependency resolution ([sortSingletons],
    [sortActions] and their inner [getDependencies]), the lazy instantiation
    ([startSingletons], [startActions]) and the service lifecycle
    ([startService], [stopService]).

    JavaScript objects used as maps are [gmap string _]; arrays and the
    insertion-ordered [Set] are lists; exceptions are the [Throw] results of
    a small state-and-exception monad in which the broker state survives a
    throw, as a mutated object does.

    What the embedding takes for granted:
    - component and service names are strings, none of them the name of a
      property that a plain object inherits ([constructor], [toString]), and
      none a lodash path ([a.b], [a[0]]): [o[name]] and [set(o, name, v)]
      read and write the own property [name];
    - [Object.entries] and [Object.keys] enumerate a registry in the order of
      the map, not in insertion order; no theorem depends on that order;
    - the user's routines (start, stop, compose, handlers) do not call the
      broker; what they return may depend on the calls made so far;
    - a method runs to completion before the next one starts: an [await] is
      sequenced like a call, and calls interleaved at an [await] are not
      modelled. *)

From stdpp Require Import gmap strings list fin_maps relations.
From Stdlib Require Import ZArith Ascii.

(** ** JavaScript values, exceptions *)

(** The values a start or compose routine can hand back.  Objects and
    functions are opaque references. *)
Inductive value :=
| VUndefined
| VNull
| VBool (b : bool)
| VNum (n : Z)
| VStr (s : string)
| VObject (ref : nat)
| VFunction (ref : nat).

(** [!v] is [negb (truthy v)]. *)
Definition truthy (v : value) : bool :=
  match v with
  | VUndefined | VNull => false
  | VBool b => b
  | VNum n => negb (n =? 0)%Z
  | VStr s => negb (String.eqb s EmptyString)
  | VObject _ | VFunction _ => true
  end.

(** lodash [isFunction]. *)
Definition isFunction (v : value) : bool :=
  match v with VFunction _ => true | _ => false end.

(** [Error] is [new Error(msg)]; [TypeError] is what the engine raises on a
    property access on [undefined].  [OutOfFuel] is not a JavaScript error:
    it marks the exhaustion of the recursion bound of a fuelled definition
    and is shown never to be produced. *)
Inductive error :=
| Error (msg : string)
| TypeError (msg : string)
| OutOfFuel.

Inductive result (A : Type) :=
| Ok (a : A)
| Throw (e : error).
Arguments Ok {A} a.
Arguments Throw {A} e.

(** [Array.prototype.forEach] with a callback that updates captured state and
    may throw. *)
Fixpoint forEach {A S : Type} (f : A → S → result S) (l : list A) (s : S)
  : result S :=
  match l with
  | [] => Ok s
  | x :: l =>
      match f x s with
      | Ok s' => forEach f l s'
      | Throw e => Throw e
      end
  end.

(** ** Property keys, sets, strings *)

(** A property key is a string or a symbol; the sort routines put a fresh
    [Symbol(description)] in the same array as the component names. *)
Inductive Key :=
| KStr (s : string)
| KSym (description : string).

Global Instance Key_eq_dec : EqDecision Key.
Proof. solve_decision. Defined.

(** [o[k]] on an object whose own properties are all string-keyed. *)
Definition prop {V : Type} (o : gmap string V) (k : Key) : option V :=
  match k with
  | KStr s => o !! s
  | KSym _ => None
  end.

(** [Array.prototype.includes], [Set.prototype.has]. *)
Definition includes {A : Type} `{EqDecision A} (l : list A) (x : A) : bool :=
  bool_decide (x ∈ l).

(** [Set.prototype.add]: a [Set] iterates in insertion order. *)
Definition Set_add {A : Type} `{EqDecision A} (x : A) (s : list A) : list A :=
  if includes s x then s else s ++ [x].

(** [new Set(iterable)]. *)
Definition Set_of {A : Type} `{EqDecision A} (l : list A) : list A :=
  foldl (λ s x, Set_add x s) [] l.

(** [arr.join(sep)]. *)
Fixpoint join (sep : string) (l : list string) : string :=
  match l with
  | [] => EmptyString
  | [x] => x
  | x :: l => x +:+ sep +:+ join sep l
  end.

(** [s.split(c)] for a one-character separator. *)
Fixpoint split (c : Ascii.ascii) (s : string) : list string :=
  match s with
  | EmptyString => [EmptyString]
  | String a s' =>
      if Ascii.eqb a c then EmptyString :: split c s'
      else match split c s' with
           | h :: t => String a h :: t
           | [] => [String a EmptyString]
           end
  end.

Definition hash : Ascii.ascii := "#"%char.

(** [s.includes('#')]. *)
Fixpoint includes_hash (s : string) : bool :=
  match s with
  | EmptyString => false
  | String a s' => Ascii.eqb a hash || includes_hash s'
  end.

(** [s.startsWith('#')]. *)
Definition startsWith_hash (s : string) : bool :=
  match s with
  | String a _ => Ascii.eqb a hash
  | EmptyString => false
  end.

(** lodash [difference(a, b)]: the elements of [a], in order, that are not in
    [b]. *)
Definition difference (a : list string) (b : list Key) : list string :=
  filter (λ x, KStr x ∉ b) a.

(** ** The [toposort] package

    [toposort(edges)] of the npm package the broker imports as [sort]: a
    depth-first traversal that writes each node after its successors, from the
    end of the output array, so that for every edge [[a, b]] the node [a]
    comes before [b].  The package is not part of the repository; the broker
    functions below take the sort as a parameter and the resolution theorems
    assume only its contract ([toposort_contract]), which this model meets. *)
Module Toposort.

Definition edge : Type := Key * Key.

(** [uniqueNodes]: the nodes in order of first appearance. *)
Definition uniqueNodes (arr : list edge) : list Key :=
  foldl (λ res e, Set_add e.2 (Set_add e.1 res)) [] arr.

(** [makeOutgoingEdges(arr).get(node)], as an array. *)
Definition outgoing (arr : list edge) (node : Key) : list Key :=
  foldl (λ res e, if decide (e.1 = node) then Set_add e.2 res else res) [] arr.

(** The state of the traversal: the visited nodes and the filled tail of
    [sorted] ([sorted[--cursor] = node] is a cons). *)
Definition st : Type := list Key * list Key.

Fixpoint visit (fuel : nat) (edges : list edge) (node : Key)
    (predecessors : list Key) (s : st) : result st :=
  match fuel with
  | 0 => Throw OutOfFuel
  | S fuel =>
      if includes predecessors node then Throw (Error "Cyclic dependency")
      else if includes s.1 node then Ok s
      else
        match forEach (λ child, visit fuel edges child (node :: predecessors))
                (reverse (outgoing edges node)) (node :: s.1, s.2) with
        | Ok s' => Ok (s'.1, node :: s'.2)
        | Throw e => Throw e
        end
  end.

Definition toposort (edges : list edge) : result (list Key) :=
  let nodes := uniqueNodes edges in
  match forEach (λ node, visit (S (length nodes)) edges node [])
          (reverse nodes) ([], []) with
  | Ok s => Ok s.2
  | Throw e => Throw e
  end.

End Toposort.

(** ** Messages *)

Definition dquote : string := String (ascii_of_nat 34) EmptyString.

(** ["${s}"] inside a template literal. *)
Definition quoted (s : string) : string := dquote +:+ s +:+ dquote.

Definition undefined_access (property : string) : error :=
  TypeError ("Cannot read property " +:+ property +:+ " of undefined").

(** [`Found ${kind} circular dependency: ${chain.join(' -> ')}`]. *)
Definition circular_message (kind : string) (chain : list string) : string :=
  "Found " +:+ kind +:+ " circular dependency: " +:+ join " -> " chain.

(** The message of the check in [sortActions]. *)
Definition not_included_message (name : string) (notIncluded : list string)
  : string :=
  "Action " +:+ quoted name +:+ " requires not included singleton(s): "
  +:+ dquote +:+ join (dquote +:+ ", " +:+ dquote) notIncluded +:+ dquote
  +:+ ". " +:+ "Please add them to service definition".

Definition not_function_message (name : string) : string :=
  "Action " +:+ quoted name +:+ " did not return function".

Definition not_found_message (name : string) : string :=
  "Service with name " +:+ quoted name +:+ " not found".

Definition already_exists_message (kind name : string) : string :=
  kind +:+ " with name " +:+ quoted name +:+ " already exists".

(** [`${referrerKind} "${referrer}" requires unknown ${kind} "${name}"`]. *)
Definition unknown_message (referrerKind referrer kind name : string) : string :=
  referrerKind +:+ " " +:+ quoted referrer +:+ " requires unknown " +:+ kind
  +:+ " " +:+ quoted name.

(** ** Components

    The calls the broker makes on the routines of a component, in order. *)
Inductive event :=
| SingletonStart (name : string)
| SingletonStop (name : string)
| ActionCompose (name : string)
| ServiceStart (name : string)
| ServiceStop (name : string).

Global Instance event_eq_dec : EqDecision event.
Proof. solve_decision. Defined.

(** A plain object holding values (a dependency bag). *)
Abbreviation obj := (gmap string value).

(** lodash [set(o, path, v)] and [pick(o, paths)], for paths that are plain
    property names. *)
Definition lodash_set (o : obj) (path : string) (v : value) : obj :=
  <[path := v]> o.

Definition lodash_pick (o : obj) (paths : list string) : obj :=
  filter (λ kv, kv.1 ∈ paths) o.

(** Modelled from the spec: the [Singleton] class (./singleton) is not under
    src/.  A definition has a list of required singleton names
    ([getRequiredSingletons()]), a start routine taking the injected bag and
    a stop routine; the registry entry carries the [started] flag and the
    memoized [instance].  A routine is user code: its outcome may depend on
    the calls made so far, which it receives as the trace. *)
Record Singleton := {
  s_singletons : list string;
  s_start : list event → obj → result value;
  s_stop : list event → result ();
  started : bool;
  instance : value;
}.

(** Modelled from the spec: the [Action] class (./action) is not under src/.
    Required action, singleton and plugin names (plugins with their default
    parameter), the compose routine [fn] taking the bags of actions and
    singletons, and the cached composed function [initializedFn]. *)
Record Action := {
  a_actions : list string;
  a_singletons : list string;
  a_plugins : list (string * value);
  a_fn : list event → obj → obj → result value;
  initializedFn : value;
}.

(** Modelled from the spec: the [Plugin] class (./plugin) is not under src/;
    the broker only stores plugins. *)
Record Plugin := {
  p_singletons : list string;
  p_start : list event → obj → result value;
}.

(** Modelled from the spec: the [Service] class (./service) is not under
    src/.  The declared requirements ([getRequiredSingletons()],
    [getRequiredActions()], [getRequiredLocalActions()]), the local actions,
    the handlers (the start handler takes the bags [singletons], [actions]
    and [localActions]), the [isRunning] flag and the cached
    [dependencies]. *)
Record Service := {
  srv_singletons : list string;
  srv_actions : list string;
  srv_localActionNames : list string;
  localActions : gmap string Action;
  startHandler : list event → obj → obj → obj → result ();
  stopHandler : option (list event → result ());
  isRunning : bool;
  dep_singletons : list Key;
  dep_actions : list Key;
}.

(** The broker: its four registries, and the trace of routine calls made so
    far (ghost state, for stating what ran and in which order). *)
Record Broker := {
  singletons : gmap string Singleton;
  actions : gmap string Action;
  plugins : gmap string Plugin;
  services : gmap string Service;
  trace : list event;
}.

Definition set_started (v : bool) (s : Singleton) : Singleton :=
  {| s_singletons := s_singletons s; s_start := s_start s; s_stop := s_stop s;
     started := v; instance := instance s |}.

Definition set_instance (v : value) (s : Singleton) : Singleton :=
  {| s_singletons := s_singletons s; s_start := s_start s; s_stop := s_stop s;
     started := started s; instance := v |}.

Definition set_initializedFn (v : value) (a : Action) : Action :=
  {| a_actions := a_actions a; a_singletons := a_singletons a;
     a_plugins := a_plugins a; a_fn := a_fn a; initializedFn := v |}.

Definition set_isRunning (v : bool) (s : Service) : Service :=
  {| srv_singletons := srv_singletons s; srv_actions := srv_actions s;
     srv_localActionNames := srv_localActionNames s;
     localActions := localActions s; startHandler := startHandler s;
     stopHandler := stopHandler s; isRunning := v;
     dep_singletons := dep_singletons s; dep_actions := dep_actions s |}.

Definition set_dep_singletons (v : list Key) (s : Service) : Service :=
  {| srv_singletons := srv_singletons s; srv_actions := srv_actions s;
     srv_localActionNames := srv_localActionNames s;
     localActions := localActions s; startHandler := startHandler s;
     stopHandler := stopHandler s; isRunning := isRunning s;
     dep_singletons := v; dep_actions := dep_actions s |}.

Definition set_dep_actions (v : list Key) (s : Service) : Service :=
  {| srv_singletons := srv_singletons s; srv_actions := srv_actions s;
     srv_localActionNames := srv_localActionNames s;
     localActions := localActions s; startHandler := startHandler s;
     stopHandler := stopHandler s; isRunning := isRunning s;
     dep_singletons := dep_singletons s; dep_actions := v |}.

Definition with_singletons (f : gmap string Singleton → gmap string Singleton)
    (b : Broker) : Broker :=
  {| singletons := f (singletons b); actions := actions b;
     plugins := plugins b; services := services b; trace := trace b |}.

Definition with_actions (f : gmap string Action → gmap string Action)
    (b : Broker) : Broker :=
  {| singletons := singletons b; actions := f (actions b);
     plugins := plugins b; services := services b; trace := trace b |}.

Definition with_services (f : gmap string Service → gmap string Service)
    (b : Broker) : Broker :=
  {| singletons := singletons b; actions := actions b;
     plugins := plugins b; services := f (services b); trace := trace b |}.

Definition with_trace (f : list event → list event) (b : Broker) : Broker :=
  {| singletons := singletons b; actions := actions b;
     plugins := plugins b; services := services b; trace := f (trace b) |}.

(** ** The monad of broker methods

    A method reads and mutates the broker and returns or throws; the
    mutations made before a throw stay.  An [await] is sequenced like a call:
    one method runs to completion before the next one starts. *)
Definition M (A : Type) : Type := Broker → result A * Broker.

Definition ret {A} (a : A) : M A := λ b, (Ok a, b).

Definition bind {A B} (m : M A) (k : A → M B) : M B :=
  λ b, match m b with
       | (Ok a, b') => k a b'
       | (Throw e, b') => (Throw e, b')
       end.

Global Instance M_ret : MRet M := @ret.
Global Instance M_bind : MBind M := λ A B k m, bind m k.

Definition throw {A} (e : error) : M A := λ b, (Throw e, b).
Definition liftR {A} (r : result A) : M A := λ b, (r, b).
Definition get : M Broker := λ b, (Ok b, b).
Definition modify (f : Broker → Broker) : M () := λ b, (Ok (), f b).
Definition emit (ev : event) : M () := modify (with_trace (λ t, t ++ [ev])).

(** [for (const x of l) { ... }] with an accumulator. *)
Fixpoint forM {A S : Type} (f : A → S → M S) (l : list A) (s : S) : M S :=
  match l with
  | [] => ret s
  | x :: l => s' ← f x s; forM f l s'
  end.

(** Binding the outcome of a pure computation that may throw. *)
Definition bindR {A B} (r : result A) (k : A → result B) : result B :=
  match r with
  | Ok a => k a
  | Throw e => Throw e
  end.

Global Instance result_ret : MRet result := @Ok.
Global Instance result_bind : MBind result := λ A B k r, bindR r k.

(** ** Resolution: [sortSingletons] and [sortActions] *)

(** Which of the two sort routines a [getDependencies] closure belongs to:
    the word of its message and the getter it calls. *)
Inductive component := Singletons | Actions.

Definition component_word (kind : component) : string :=
  match kind with
  | Singletons => "singletons"
  | Actions => "actions"
  end.

Definition component_getter (kind : component) : string :=
  match kind with
  | Singletons => "getRequiredSingletons"
  | Actions => "getRequiredActions"
  end.

(** The inner function [getDependencies(name, dependedBy = [])] of
    [sortSingletons] and of [sortActions]: the two closures are the same code
    over [this.singletons] with [getRequiredSingletons()], respectively
    [this.actions] with [getRequiredActions()], and differ in one word of the
    message.  [registry] and [requires] are that registry and getter, [kind]
    says which closure it is; the [Set] the closure adds to is threaded
    through.

    The recursion is bounded by [fuel]; [getDependencies_fuel] shows that the
    bound used by the callers is never reached. *)
Fixpoint getDependencies {C : Type} (registry : gmap string C)
    (requires : C → list string) (kind : component) (fuel : nat)
    (name : string) (dependedBy : list string) (all : list string)
  : result (list string) :=
  match fuel with
  | 0 => Throw OutOfFuel
  | S fuel =>
      let all := Set_add name all in
      match registry !! name with
      | None => Throw (undefined_access (component_getter kind))
      | Some c =>
          forEach
            (λ n all,
               if includes dependedBy name
               then Throw (Error (circular_message (component_word kind)
                                   (dependedBy ++ [name; n])))
               else getDependencies registry requires kind fuel n
                      (dependedBy ++ [name]) all)
            (requires c) all
      end
  end.

(** [required.forEach(name => getDependencies(name))] on [new Set(required)]:
    the names the request reaches. *)
Definition collect {C : Type} (registry : gmap string C)
    (requires : C → list string) (kind : component) (required : list string)
  : result (list string) :=
  forEach (λ name, getDependencies registry requires kind
                     (S (size registry)) name [])
    required (Set_of required).

(** [arr.slice(0, -1)]. *)
Definition slice_0_m1 {A : Type} (arr : list A) : list A :=
  take (length arr - 1) arr.

(** The callback of the second loop of [sortSingletons]:
    [singletons[name].getRequiredSingletons().forEach(n => graph.push([name, n]))]. *)
Definition push_singleton_edges (singletons : gmap string Singleton)
    (name : string) (graph : list (Key * Key)) : result (list (Key * Key)) :=
  match singletons !! name with
  | None => Throw (undefined_access "getRequiredSingletons")
  | Some s => Ok (graph ++ ((λ n, (KStr name, KStr n)) <$> s_singletons s))
  end.

(** The callback of the second loop of [sortActions]: the check that the
    singletons of the action are among [singletons], then the edges. *)
Definition push_action_edges (actions : gmap string Action)
    (singletons : list Key) (name : string) (graph : list (Key * Key))
  : result (list (Key * Key)) :=
  match actions !! name with
  | None => Throw (undefined_access "getRequiredSingletons")
  | Some action =>
      let notIncluded := difference (a_singletons action) singletons in
      if negb (length notIncluded =? 0)
      then Throw (Error (not_included_message name notIncluded))
      else Ok (graph ++ ((λ a, (KStr name, KStr a)) <$> a_actions action))
  end.

Section sorting.

(** The imported [sort] (the [toposort] package). *)
Variable sort : list (Key * Key) → result (list Key).

Definition sortSingletons (singletons : gmap string Singleton)
    (requiredSingletons : list string) : result (list Key) :=
  let serviceNode := KSym "service-singleton" in
  let graph := (λ i, (serviceNode, KStr i)) <$> requiredSingletons in
  allSingletons ← collect singletons s_singletons Singletons requiredSingletons;
  graph ← forEach (push_singleton_edges singletons) allSingletons graph;
  sorted ← sort graph;
  Ok (slice_0_m1 (reverse sorted)).

Definition sortActions (actions : gmap string Action)
    (requiredActions : list string) (singletons : list Key)
  : result (list Key) :=
  let serviceNode := KSym "service-action" in
  let graph := (λ i, (serviceNode, KStr i)) <$> requiredActions in
  allActions ← collect actions a_actions Actions requiredActions;
  graph ← forEach (push_action_edges actions singletons) allActions graph;
  sorted ← sort graph;
  Ok (slice_0_m1 (reverse sorted)).

End sorting.

(** ** Lazy instantiation: [startSingletons] and [startActions] *)

(** The bag of a component: [res[n] = registry[n].field] for each required
    name ([set(res, n, registry[n].field)] in [startActions]); [property] is
    the name of the field, for the error on an unregistered name. *)
Definition bag_of {C : Type} (registry : gmap string C) (field : C → value)
    (property : string) (names : list string) : result obj :=
  forEach
    (λ n res,
       match registry !! n with
       | None => Throw (undefined_access property)
       | Some c => Ok (lodash_set res n (field c))
       end)
    names ∅.

(** One turn of the loop of [startSingletons]. *)
Definition startSingletons_body (name : Key) (result : obj) : M obj :=
  b ← get;
  match name, prop (singletons b) name with
  | KStr n, Some singleton =>
      instance ←
        (if negb (started singleton) then
           bag ← liftR (bag_of (singletons b) instance "instance" (s_singletons singleton));
           modify (with_singletons (alter (set_started true) n));;
           emit (SingletonStart n);;
           b ← get;
           v ← liftR (s_start singleton (trace b) bag);
           modify (with_singletons (alter (set_instance v) n));;
           mret v
         else mret (instance singleton));
      mret (<[n := instance]> result)
  | _, _ => throw (undefined_access "started")
  end.

Definition startSingletons (names : list Key) : M obj :=
  forM startSingletons_body names ∅.

(** [name.includes('#') ? name.split('#')[1] : name]. *)
Definition realName (name : string) : string :=
  if includes_hash name then default EmptyString (split hash name !! 1)
  else name.

(** One turn of the loop of [startActions]. *)
Definition startActions_body (name : Key) (result : obj) : M obj :=
  b ← get;
  match name, prop (actions b) name with
  | KStr n, Some action =>
      initializedFn ←
        (if negb (truthy (initializedFn action)) then
           actions_bag ← liftR (bag_of (actions b) initializedFn "initializedFn" (a_actions action));
           singletons_bag ← liftR (bag_of (singletons b) instance "instance" (a_singletons action));
           emit (ActionCompose n);;
           b ← get;
           v ← liftR (a_fn action (trace b) actions_bag singletons_bag);
           modify (with_actions (alter (set_initializedFn v) n));;
           if negb (isFunction v)
           then throw (Error (not_function_message n))
           else mret v
         else mret (initializedFn action));
      mret (lodash_set result (realName n) initializedFn)
  | _, _ => throw (undefined_access "initializedFn")
  end.

Definition startActions (names : list Key) : M obj :=
  forM startActions_body names ∅.

(** ** Service lifecycle *)

(** [name] is a string here, so the [isString] check passes. *)
Definition getServiceByName (name : string) : M Service :=
  b ← get;
  match services b !! name with
  | None => throw (Error (not_found_message name))
  | Some srv => mret srv
  end.

Definition isServiceRunning (name : string) : M bool :=
  srv ← getServiceByName name;
  mret (isRunning srv).

(** [Object.keys(this.services).filter(name => this.isServiceRunning(name))];
    the keys come in the order of the map. *)
Definition getRunningServices : M (list string) :=
  b ← get;
  forM (λ (name : string) (res : list string),
          running ← isServiceRunning name;
          mret (if running : bool then res ++ [name] else res))
    (fst <$> map_to_list (services b)) [].

Section lifecycle.

Variable sort : list (Key * Key) → result (list Key).

Definition startService (name : string) : M () :=
  service ← getServiceByName name;
  running ← isServiceRunning name;
  if running : bool then mret ()
  else
    modify (with_services (alter (set_isRunning true) name));;
    let localActionsNames :=
      (λ a, name +:+ "#" +:+ a) <$> srv_localActionNames service in
    b ← get;
    dep_singletons ←
      liftR (sortSingletons sort (singletons b) (srv_singletons service));
    modify (with_services (alter (set_dep_singletons dep_singletons) name));;
    dep_actions ←
      liftR (sortActions sort (actions b)
               (srv_actions service ++ localActionsNames) dep_singletons);
    modify (with_services (alter (set_dep_actions dep_actions) name));;
    singletons ← startSingletons dep_singletons;
    actions ← startActions dep_actions;
    localActions ← startActions (KStr <$> localActionsNames);
    emit (ServiceStart name);;
    b ← get;
    liftR (startHandler service (trace b)
             (lodash_pick singletons (srv_singletons service))
             (lodash_pick actions (srv_actions service))
             localActions).

End lifecycle.

(** The [reduce] of [stopService]: the singletons of the other running
    services. *)
Definition startedSingletons_of (runningServices : list string)
  : M (list Key) :=
  forM (λ s res,
          srv ← getServiceByName s;
          mret (foldl (λ res singleton, Set_add singleton res) res
                  (dep_singletons srv)))
    runningServices [].

(** One turn of the loop of [stopService]:
    [await this.singletons[singleton].stop();
     this.singletons[singleton].started = false]. *)
Definition stopService_body (singleton : Key) (_ : ()) : M () :=
  b ← get;
  match singleton, prop (singletons b) singleton with
  | KStr n, Some s =>
      emit (SingletonStop n);;
      b ← get;
      liftR (s_stop s (trace b));;
      modify (with_singletons (alter (set_started false) n))
  | _, _ => throw (undefined_access "stop")
  end.

Definition stopService (name : string) : M () :=
  running ← isServiceRunning name;
  if negb running then mret ()
  else
    service ← getServiceByName name;
    match stopHandler service with
    | Some handler =>
        emit (ServiceStop name);;
        b ← get;
        liftR (handler (trace b))
    | None => mret ()
    end;;
    others ← getRunningServices;
    let runningServices := filter (λ n : string, n ≠ name) others in
    startedSingletons ← startedSingletons_of runningServices;
    let singletonsToStop :=
      filter (λ s, negb (includes startedSingletons s))
        (dep_singletons service) in
    forM stopService_body singletonsToStop ();;
    modify (with_services (alter (set_isRunning false) name)).

(** ** Construction *)

(** The argument of the constructor once its shape is validated and each raw
    definition is wrapped in its class ([validateConfig], [new Singleton(s)]
    and the like are not under src/): an absent map is empty, and
    [serviceFiles] and [actionFiles] are what [loadFiles] returns for
    [servicesPath] and [actionsPath], [[]] without a path. *)
Record Config := {
  cfg_singletons : gmap string Singleton;
  cfg_actions : gmap string Action;
  cfg_plugins : gmap string Plugin;
  cfg_services : gmap string Service;
  cfg_serviceFiles : list (string * Service);
  cfg_actionFiles : list (string * Action);
}.

(** [files.forEach(([name, file]) => { if (registry[name]) throw ...;
    registry[name] = file })]. *)
Definition load_files {C : Type} (kind : string) (files : list (string * C))
    (registry : gmap string C) : result (gmap string C) :=
  forEach
    (λ entry registry,
       match registry !! entry.1 with
       | Some _ => Throw (Error (already_exists_message kind entry.1))
       | None => Ok (<[entry.1 := entry.2]> registry)
       end)
    files registry.

(** The local actions of every service, under [`${name}#${actionName}`].
    [Object.entries] is the list of entries of the map. *)
Definition register_localActions (services : gmap string Service)
    (actions : gmap string Action) : gmap string Action :=
  foldl
    (λ actions service,
       foldl (λ actions local,
                <[service.1 +:+ "#" +:+ local.1 := local.2]> actions)
         actions (map_to_list (localActions service.2)))
    actions (map_to_list services).

(** [names.forEach(n => { if (!registry[n]) throw new Error(...) })]. *)
Definition check_known {C : Type} (referrerKind referrer kind : string)
    (registry : gmap string C) (names : list string) : result () :=
  forEach
    (λ n _,
       match registry !! n with
       | None => Throw (Error (unknown_message referrerKind referrer kind n))
       | Some _ => Ok ()
       end)
    names ().

(** The check of a service's required actions skips the names that start
    with [#]. *)
Definition check_known_actions (referrer : string)
    (registry : gmap string Action) (names : list string) : result () :=
  forEach
    (λ action _,
       if negb (startsWith_hash action) && negb (bool_decide (is_Some (registry !! action)))
       then Throw (Error (unknown_message "Service" referrer "action" action))
       else Ok ())
    names ().

Definition Broker_new (cfg : Config) : result Broker :=
  let singletons := cfg_singletons cfg in
  services ← load_files "Service" (cfg_serviceFiles cfg) (cfg_services cfg);
  actions ← load_files "Action" (cfg_actionFiles cfg)
              (register_localActions services (cfg_actions cfg));
  forEach
    (λ entry _,
       check_known "Service" entry.1 "singleton" singletons (srv_singletons entry.2);;
       check_known_actions entry.1 actions (srv_actions entry.2))
    (map_to_list services) ();;
  forEach
    (λ entry _,
       check_known "Singleton" entry.1 "singleton" singletons (s_singletons entry.2))
    (map_to_list singletons) ();;
  forEach
    (λ entry _,
       check_known "Action" entry.1 "singleton" singletons (a_singletons entry.2))
    (map_to_list actions) ();;
  Ok {| singletons := singletons; actions := actions;
        plugins := cfg_plugins cfg; services := services; trace := [] |}.

(** ** Example registries *)

(** A singleton whose start routine returns [v]. *)
Definition singleton_of (requires : list string) (v : value) : Singleton :=
  {| s_singletons := requires; s_start := λ _ _, Ok v; s_stop := λ _, Ok ();
     started := false; instance := VUndefined |}.

(** An action whose compose routine returns [v]. *)
Definition action_of (requiredActions requiredSingletons : list string)
    (v : value) : Action :=
  {| a_actions := requiredActions; a_singletons := requiredSingletons;
     a_plugins := []; a_fn := λ _ _ _, Ok v; initializedFn := VUndefined |}.

(** [s3] requires [s1] and [s2], [s2] requires [s1]. *)
Definition example_singletons : gmap string Singleton :=
  <["s3" := singleton_of ["s1"; "s2"] (VNum 3)]>
    (<["s2" := singleton_of ["s1"] (VNum 2)]>
       (<["s1" := singleton_of [] (VNum 1)]> ∅)).

(** [doThat] requires the action [doIt]; each requires a singleton. *)
Definition example_actions : gmap string Action :=
  <["doThat" := action_of ["doIt"] ["s2"] (VFunction 2)]>
    (<["doIt" := action_of [] ["s1"] (VFunction 1)]> ∅).

(** [A] requires [B], [B] requires [C], [C] requires [A]. *)
Definition cyclic_singletons : gmap string Singleton :=
  <["A" := singleton_of ["B"] (VNum 1)]>
    (<["B" := singleton_of ["C"] (VNum 2)]>
       (<["C" := singleton_of ["A"] (VNum 3)]> ∅)).

(** [a] requires [b] and [b] requires [a]; [loop] requires itself. *)
Definition cyclic_actions : gmap string Action :=
  <["a" := action_of ["b"] [] (VFunction 1)]>
    (<["b" := action_of ["a"] [] (VFunction 2)]>
       (<["loop" := action_of ["loop"] [] (VFunction 3)]> ∅)).

(** A broker over given registries, with nothing run yet. *)
Definition broker_of (singletons : gmap string Singleton)
    (actions : gmap string Action) (services : gmap string Service) : Broker :=
  {| singletons := singletons; actions := actions; plugins := ∅;
     services := services; trace := [] |}.

(** An action whose compose routine returns the number 5. *)
Definition bad_actions : gmap string Action :=
  <["bad" := action_of [] [] (VNum 5)]> ∅.

(** A service with no handler of its own to fail: its requirements, its
    running flag and its cached resolved singletons. *)
Definition service_of (requiredSingletons requiredActions : list string)
    (running : bool) (resolved : list Key) : Service :=
  {| srv_singletons := requiredSingletons; srv_actions := requiredActions;
     srv_localActionNames := []; localActions := ∅;
     startHandler := λ _ _ _ _, Ok (); stopHandler := None;
     isRunning := running; dep_singletons := resolved; dep_actions := [] |}.

(** Services [A] and [B] both require the singleton [s1]; [B] also [s2]. *)
Definition shared_services : gmap string Service :=
  <["A" := service_of ["s1"] [] false []]>
    (<["B" := service_of ["s1"; "s2"] [] false []]> ∅).

Definition shared_broker : Broker :=
  broker_of example_singletons ∅ shared_services.

(** A service whose required singleton is on a cycle. *)
Definition cyclic_broker : Broker :=
  broker_of cyclic_singletons ∅ (<["svc" := service_of ["A"] [] false []]> ∅).

(** [shared_broker] after [startService('A')] and [startService('B')]. *)
Definition running_broker : Broker :=
  (startService Toposort.toposort "B"
     (startService Toposort.toposort "A" shared_broker).2).2.


(** The action [doThat] requires an action that is not registered. *)
Definition dangling_config : Config :=
  {| cfg_singletons := ∅;
     cfg_actions := <["doThat" := action_of ["missing"] [] (VFunction 1)]> ∅;
     cfg_plugins := ∅;
     cfg_services := <["svc" := service_of [] ["doThat"] false []]> ∅;
     cfg_serviceFiles := []; cfg_actionFiles := [] |}.

(** A service requires a singleton that is not registered. *)
Definition unknown_singleton_config : Config :=
  {| cfg_singletons := ∅; cfg_actions := ∅; cfg_plugins := ∅;
     cfg_services := <["svc" := service_of ["s9"] [] false []]> ∅;
     cfg_serviceFiles := []; cfg_actionFiles := [] |}.

(** The configuration of [cyclic_broker]. *)
Definition cyclic_config : Config :=
  {| cfg_singletons := cyclic_singletons; cfg_actions := ∅; cfg_plugins := ∅;
     cfg_services := <["svc" := service_of ["A"] [] false []]> ∅;
     cfg_serviceFiles := []; cfg_actionFiles := [] |}.

(** ** Vocabulary of the specification *)

(** [x] comes strictly before [y] in [l]. *)
Definition before {A : Type} (x y : A) (l : list A) : Prop :=
  ∃ l1 l2 l3, l = l1 ++ x :: l2 ++ y :: l3.

(** The relation of an edge list, its nodes, and acyclicity: no node reaches
    itself in one step or more. *)
Definition edge_of (g : list (Key * Key)) : relation Key :=
  λ a b, (a, b) ∈ g.

Definition node_of (g : list (Key * Key)) (x : Key) : Prop :=
  ∃ y, (x, y) ∈ g ∨ (y, x) ∈ g.

Definition acyclic {A : Type} (R : relation A) : Prop :=
  ∀ x, ¬ tc R x x.

(** What the broker needs of its [sort]: on an acyclic edge list it returns
    the nodes, each once, with the source of every edge before its target. *)
Definition toposort_contract (sort : list (Key * Key) → result (list Key))
  : Prop :=
  ∀ g, acyclic (edge_of g) →
    ∃ l, sort g = Ok l ∧ NoDup l ∧ (∀ x, x ∈ l ↔ node_of g x) ∧
         ∀ a b, (a, b) ∈ g → before a b l.

(** [a] directly requires [b] in a registry. *)
Definition requires_of {C : Type} (registry : gmap string C)
    (requires : C → list string) : relation string :=
  λ a b, ∃ c, registry !! a = Some c ∧ b ∈ requires c.

(** The names a request reaches: the required names and their transitive
    dependencies. *)
Definition reaches {A : Type} (R : relation A) (roots : list A) (x : A) : Prop :=
  ∃ r, r ∈ roots ∧ rtc R r x.

(** Every reached name has an entry in the registry. *)
Definition closed {C : Type} (registry : gmap string C)
    (requires : C → list string) (roots : list string) : Prop :=
  ∀ x, reaches (requires_of registry requires) roots x → is_Some (registry !! x).

(** No reached name is on a cycle. *)
Definition acyclic_from {C : Type} (registry : gmap string C)
    (requires : C → list string) (roots : list string) : Prop :=
  ∀ x, reaches (requires_of registry requires) roots x →
       ¬ tc (requires_of registry requires) x x.

(** What resolution promises for a request: the names it reaches, each once
    and nothing else (so not the synthetic root), every name after all of its
    transitive dependencies. *)
Definition resolution_order {C : Type} (registry : gmap string C)
    (requires : C → list string) (required : list string) (l : list Key)
  : Prop :=
  NoDup l ∧
  (∀ k, k ∈ l ↔ ∃ x, k = KStr x ∧
                     reaches (requires_of registry requires) required x) ∧
  ∀ a b, reaches (requires_of registry requires) required a →
         tc (requires_of registry requires) a b →
         before (KStr b) (KStr a) l.

(** Every singleton required by a reached action is among [singletons]. *)
Definition singletons_included (actions : gmap string Action)
    (required : list string) (singletons : list Key) : Prop :=
  ∀ x a, reaches (requires_of actions a_actions) required x →
         actions !! x = Some a →
         ∀ s, s ∈ a_singletons a → KStr s ∈ singletons.

(** The two ways [getDependencies] throws: the circular-dependency error,
    whose chain ends with a name already in the chain followed by one of
    its requirements, and the access to a name the registry lacks. *)
Definition circular_error {C : Type} (registry : gmap string C)
    (requires : C → list string) (kind : component) (e : error) : Prop :=
  ∃ chain name n,
    e = Error (circular_message (component_word kind) (chain ++ [name; n])) ∧
    name ∈ chain ∧ requires_of registry requires name n.

Definition unknown_error {C : Type} (registry : gmap string C)
    (requires : C → list string) (kind : component) (from : string) (e : error)
  : Prop :=
  e = undefined_access (component_getter kind) ∧
  ∃ m, rtc (requires_of registry requires) from m ∧ registry !! m = None.

(** Each node of [l] has its successors further down [l]. *)
Fixpoint ordered (g : list (Key * Key)) (l : list Key) : Prop :=
  match l with
  | [] => True
  | a :: l' => (∀ b, (a, b) ∈ g → b ∈ l') ∧ ordered g l'
  end.

(** The invariant of the traversal, between two calls of [visit] made with
    the open nodes [preds]: a visited node is written or open; the written
    nodes are distinct nodes of the graph, none is open, and they are
    ordered. *)
Record inv (g : list (Key * Key)) (preds : list Key)
  (s : list Key * list Key) : Prop := {
  inv_visited : ∀ x, x ∈ s.1 ↔ x ∈ s.2 ∨ x ∈ preds;
  inv_NoDup : NoDup s.2;
  inv_closed : ∀ x, x ∈ s.2 → x ∉ preds;
  inv_ordered : ordered g s.2;
  inv_nodes : ∀ x, x ∈ s.2 → node_of g x;
}.

(** *** Stopping *)

(** The running services, as [getRunningServices] lists them. *)
Definition running_names (services : gmap string Service) : list string :=
  filter (λ n, default false (isRunning <$> services !! n) = true)
    (fst <$> map_to_list services).

(** The [Set] built by the [reduce] of [stopService]. *)
Definition others_singletons (services : gmap string Service) (name : string)
  : list Key :=
  foldl (λ res s,
           match services !! s with
           | Some srv => foldl (λ res singleton, Set_add singleton res) res
                           (dep_singletons srv)
           | None => res
           end)
    [] (filter (λ n : string, n ≠ name) (running_names services)).

(** [singletonsToStop]. *)
Definition singletonsToStop (services : gmap string Service) (name : string)
    (service : Service) : list Key :=
  filter (λ s, negb (includes (others_singletons services name) s))
    (dep_singletons service).

(** Another running service lists [k] among its cached resolved singletons. *)
Definition shared_with_running (services : gmap string Service)
    (name : string) (k : Key) : Prop :=
  ∃ other srv, other ≠ name ∧ services !! other = Some srv ∧
               isRunning srv = true ∧ k ∈ dep_singletons srv.

(** The registry after [started = false] on each of [names]. *)
Definition stop_all (names : list string) (m : gmap string Singleton)
  : gmap string Singleton :=
  foldl (λ m n, alter (set_started false) n m) m names.

(** The call of the stop handler, when the service has one. *)
Definition stopHandler_events (name : string) (service : Service) : list event :=
  match stopHandler service with
  | Some _ => [ServiceStop name]
  | None => []
  end.

(** *** Starting *)

(** The names [startService] hands to [sortActions]: the required actions,
    then the local actions under [`${name}#${a}`]. *)
Definition actions_to_sort (name : string) (service : Service) : list string :=
  srv_actions service
  ++ ((λ a, name +:+ "#" +:+ a) <$> srv_localActionNames service).

(** The resolution of [startService] fails with [e]: [sortSingletons]
    throws it, or [sortSingletons] returns [resolved] and [sortActions]
    throws it. *)
Definition resolution_fails (sort : list (Key * Key) → result (list Key))
    (b : Broker) (name : string) (service : Service)
    (resolved : option (list Key)) (e : error) : Prop :=
  match resolved with
  | None =>
      sortSingletons sort (singletons b) (srv_singletons service) = Throw e
  | Some dep_singletons =>
      sortSingletons sort (singletons b) (srv_singletons service)
      = Ok dep_singletons ∧
      sortActions sort (actions b) (actions_to_sort name service) dep_singletons
      = Throw e
  end.

(** What the service entry holds after a failed resolution. *)
Definition after_failed_resolution (service : Service)
    (resolved : option (list Key)) : Service :=
  match resolved with
  | None => set_isRunning true service
  | Some dep_singletons =>
      set_dep_singletons dep_singletons (set_isRunning true service)
  end.

(** "No partial state is committed": a start that throws leaves the broker
    as it was. *)
Definition failed_start_commits_nothing
    (sort : list (Key * Key) → result (list Key)) (name : string) (b : Broker)
  : Prop :=
  ∀ e b', startService sort name b = (Throw e, b') →
          trace b' = trace b ∧ singletons b' = singletons b ∧
          actions b' = actions b ∧ services b' = services b.

(** *** Sequences of calls *)

(** A call of a caller of the broker; a call runs to completion, and what it
    did to the broker stays when it throws. *)
Inductive call :=
| StartService (name : string)
| StopService (name : string).

Definition run_call (sort : list (Key * Key) → result (list Key)) (c : call)
    (b : Broker) : Broker :=
  match c with
  | StartService name => (startService sort name b).2
  | StopService name => (stopService name b).2
  end.

Definition run_calls (sort : list (Key * Key) → result (list Key))
    (calls : list call) (b : Broker) : Broker :=
  foldl (λ b c, run_call sort c b) b calls.



Definition is_started (n : string) (b : Broker) : Prop :=
  ∃ s, singletons b !! n = Some s ∧ started s = true.




Global Instance SingletonStop_inj : Inj (=) (=) SingletonStop.
Proof. by intros x y [=]. Qed.

Global Instance KStr_inj : Inj (=) (=) KStr.
Proof. by intros x y [=]. Qed.

(** *** Construction *)

(** The references the constructor checks: the singletons required by a
    service, a singleton or an action, and the actions required by a service
    under a name that does not start with [#]. *)
Definition references_known (b : Broker) : Prop :=
  (∀ name srv s, services b !! name = Some srv → s ∈ srv_singletons srv →
                 is_Some (singletons b !! s)) ∧
  (∀ name srv a, services b !! name = Some srv → a ∈ srv_actions srv →
                 startsWith_hash a = false → is_Some (actions b !! a)) ∧
  (∀ name s r, singletons b !! name = Some s → r ∈ s_singletons s →
               is_Some (singletons b !! r)) ∧
  (∀ name a r, actions b !! name = Some a → r ∈ a_singletons a →
               is_Some (singletons b !! r)).



(** *** What a method keeps *)

(** Every outcome of [m], returned or thrown, leaves the broker related by
    [Rel] to the broker it started from. *)
Definition keeps (Rel : relation Broker) {A : Type} (m : M A) : Prop :=
  ∀ b, Rel b (m b).2.

(** The two brokers differ at most in the [started] flags of singletons, the
    [isRunning] flags of services and the trace: the same actions and
    plugins, and every singleton and service entry the same but for that
    flag. *)
Definition same_but_flags (b b' : Broker) : Prop :=
  actions b' = actions b ∧
  plugins b' = plugins b ∧
  (∀ n, set_started false <$> singletons b' !! n
        = set_started false <$> singletons b !! n) ∧
  (∀ n, set_isRunning false <$> services b' !! n
        = set_isRunning false <$> services b !! n).

(** [b'] is [b] with some flags cleared, none set: besides
    [same_but_flags], a singleton started in [b'] was started in [b] and a
    service running in [b'] was running in [b]. *)
Definition only_clears (b b' : Broker) : Prop :=
  same_but_flags b b' ∧
  (∀ n, is_started n b' → is_started n b) ∧
  (∀ n, (∃ srv, services b' !! n = Some srv ∧ isRunning srv = true) →
        ∃ srv, services b !! n = Some srv ∧ isRunning srv = true).

(** The trace of [b'] is the trace of [b] followed by calls that all
    satisfy [P]. *)
Definition trace_adds (P : event → Prop) (b b' : Broker) : Prop :=
  ∃ evs, trace b' = trace b ++ evs ∧ Forall P evs.

Definition is_stop (ev : event) : Prop :=
  match ev with
  | SingletonStop _ | ServiceStop _ => True
  | _ => False
  end.

(** [b'] is [b] after starting things for the service [name] only: nothing
    that was started is stopped, the entries of singletons and actions are
    the same but for the flag and the memoized value, no other service is
    touched, and no stop routine or stop handler was called. *)
Definition only_starts (name : string) (b b' : Broker) : Prop :=
  plugins b' = plugins b ∧
  (∀ n, is_started n b → is_started n b') ∧
  (∀ n, set_instance VUndefined <$> (set_started false <$> singletons b' !! n)
        = set_instance VUndefined <$> (set_started false <$> singletons b !! n)) ∧
  (∀ n, set_initializedFn VUndefined <$> actions b' !! n
        = set_initializedFn VUndefined <$> actions b !! n) ∧
  (∀ other, other ≠ name → services b' !! other = services b !! other) ∧
  trace_adds (λ ev, ¬ is_stop ev) b b'.

(** The action [n], whose entry [a] holds its composed value, is left alone:
    if [b] holds that entry, so does [b'], and the compose routine of [n]
    was not called in between. *)
Definition frozen (n : string) (a : Action) (b b' : Broker) : Prop :=
  actions b !! n = Some a →
  actions b' !! n = Some a ∧ trace_adds (λ ev, ev ≠ ActionCompose n) b b'.

(** A service that requires the action [doThat] and the singletons the two
    actions need. *)
Definition action_service_broker : Broker :=
  broker_of example_singletons example_actions
    (<["svc" := service_of ["s1"; "s2"] ["doThat"] false []]> ∅).

(** [action_service_broker] after [startService('svc')]. *)
Definition composed_broker : Broker :=
  (startService Toposort.toposort "svc" action_service_broker).2.

(** The error of [sortActions] for a reached action that requires singletons
    outside the resolved ones. *)
Definition not_included_error (actions : gmap string Action)
    (required : list string) (singletons : list Key) (e : error) : Prop :=
  ∃ x a, reaches (requires_of actions a_actions) required x ∧
         actions !! x = Some a ∧
         difference (a_singletons a) singletons ≠ [] ∧
         e = Error (not_included_message x
                      (difference (a_singletons a) singletons)).

(** The two errors of the closure of a request: a cycle, or a name that a
    required name reaches and the registry lacks. *)
Definition closure_error {C : Type} (registry : gmap string C)
    (requires : C → list string) (kind : component) (required : list string)
    (e : error) : Prop :=
  circular_error registry requires kind e ∨
  ∃ r, r ∈ required ∧ unknown_error registry requires kind r e.

(** The entry of the singleton [n] does not have [started] set. *)
Definition unstarted (b : Broker) (n : string) : Prop :=
  default false (started <$> singletons b !! n) = false.

Global Instance unstarted_dec (b : Broker) (n : string) :
  Decision (unstarted b n).
Proof. unfold unstarted. apply _. Defined.

(** The entry of the action [n] holds no truthy composed value. *)
Definition uncomposed (b : Broker) (n : string) : Prop :=
  default false (truthy ∘ initializedFn <$> actions b !! n) = false.

Global Instance uncomposed_dec (b : Broker) (n : string) :
  Decision (uncomposed b n).
Proof. unfold uncomposed. apply _. Defined.

(** The service [name] is registered and marked running. *)
Definition is_running (name : string) (b : Broker) : Prop :=
  ∃ srv, services b !! name = Some srv ∧ isRunning srv = true.

(** If the service [name] is marked running in [b], it is in [b']. *)
Definition stays_running (name : string) (b b' : Broker) : Prop :=
  is_running name b → is_running name b'.

(** The two brokers have the same services, entry by entry. *)
Definition same_services (b b' : Broker) : Prop :=
  services b' = services b.

(** A singleton whose start routine throws [e], and one whose stop routine
    does. *)
Definition failing_start (requires : list string) (e : error) : Singleton :=
  {| s_singletons := requires; s_start := λ _ _, Throw e; s_stop := λ _, Ok ();
     started := false; instance := VUndefined |}.

Definition failing_stop (requires : list string) (v : value) (e : error)
  : Singleton :=
  {| s_singletons := requires; s_start := λ _ _, Ok v; s_stop := λ _, Throw e;
     started := false; instance := VUndefined |}.

(** The service [svc] requires [db], whose start routine throws. *)
Definition failing_start_broker : Broker :=
  broker_of (<["db" := failing_start [] (Error "no connection")]> ∅) ∅
    (<["svc" := service_of ["db"] [] false []]> ∅).

(** The service [svc] requires [db], whose stop routine throws; [svc] has
    been started. *)
Definition failing_stop_broker : Broker :=
  (startService Toposort.toposort "svc"
     (broker_of (<["db" := failing_stop [] (VNum 1) (Error "busy")]> ∅) ∅
        (<["svc" := service_of ["db"] [] false []]> ∅))).2.

(** The name under which the constructor registers the local action
    [action] of the service [service]. *)
Definition local_name (service action : string) : string :=
  service +:+ "#" +:+ action.

(** The local actions of the services, each under its registered name, in
    the order the constructor walks them. *)
Definition local_entries (services : gmap string Service)
  : list (string * Action) :=
  map_to_list services ≫= λ service,
    (λ local, (local_name service.1 local.1, local.2))
      <$> map_to_list (localActions service.2).

(** A service with the local action [run], given as [act], in a
    configuration that also has an action named [svc#run]. *)
Definition local_service (act : Action) : Service :=
  {| srv_singletons := []; srv_actions := [];
     srv_localActionNames := ["run"];
     localActions := <["run" := act]> ∅;
     startHandler := λ _ _ _ _, Ok (); stopHandler := None;
     isRunning := false; dep_singletons := []; dep_actions := [] |}.

Definition local_config (act : Action) : Config :=
  {| cfg_singletons := ∅;
     cfg_actions := <["svc#run" := action_of [] [] (VFunction 7)]> ∅;
     cfg_plugins := ∅;
     cfg_services := <["svc" := local_service act]> ∅;
     cfg_serviceFiles := []; cfg_actionFiles := [] |}.

(** The service [svc] requires the singleton [s2] and the action [doThat],
    and has the local action [run], registered as [svc#run]. *)
Definition handover_service : Service :=
  {| srv_singletons := ["s2"]; srv_actions := ["doThat"];
     srv_localActionNames := ["run"];
     localActions := <["run" := action_of [] ["s1"] (VFunction 5)]> ∅;
     startHandler := λ _ _ _ _, Ok (); stopHandler := None;
     isRunning := false; dep_singletons := []; dep_actions := [] |}.

Definition handover_broker : Broker :=
  broker_of example_singletons
    (<["svc#run" := action_of [] ["s1"] (VFunction 5)]> example_actions)
    (<["svc" := handover_service]> ∅).

(** The two brokers register the same names with the same requirements: the
    fields that resolution reads. *)
Definition same_requirements (b b' : Broker) : Prop :=
  (∀ n, s_singletons <$> singletons b' !! n
        = s_singletons <$> singletons b !! n) ∧
  (∀ n, (λ a, (a_actions a, a_singletons a)) <$> actions b' !! n
        = (λ a, (a_actions a, a_singletons a)) <$> actions b !! n).

(** The service [svc] requires [db], which requires [cache]; the stop
    routine of [db] throws; [svc] has been started. *)
Definition partial_stop_broker : Broker :=
  (startService Toposort.toposort "svc"
     (broker_of
        (<["db" := failing_stop ["cache"] (VNum 1) (Error "busy")]>
           (<["cache" := singleton_of [] (VNum 2)]> ∅))
        ∅ (<["svc" := service_of ["db"] [] false []]> ∅))).2.

(** ** Lists, sets and loops *)

Lemma includes_true {A : Type} `{EqDecision A} (l : list A) (x : A) :
  includes l x = true ↔ x ∈ l.
Proof. unfold includes. apply bool_decide_eq_true. Qed.

Lemma includes_false {A : Type} `{EqDecision A} (l : list A) (x : A) :
  includes l x = false ↔ x ∉ l.
Proof. unfold includes. apply bool_decide_eq_false. Qed.

Lemma elem_of_Set_add {A : Type} `{EqDecision A} (x y : A) (s : list A) :
  x ∈ Set_add y s ↔ x = y ∨ x ∈ s.
Proof.
  unfold Set_add. destruct (includes s y) eqn:Hy.
  - apply includes_true in Hy. split; [auto | intros [-> | ?]; auto].
  - rewrite elem_of_app, list_elem_of_singleton. tauto.
Qed.

Lemma NoDup_Set_add {A : Type} `{EqDecision A} (y : A) (s : list A) :
  NoDup s → NoDup (Set_add y s).
Proof.
  intros Hs. unfold Set_add. destruct (includes s y) eqn:Hy; [done |].
  apply includes_false in Hy. apply NoDup_app. split_and!; [done | | apply NoDup_singleton].
  intros x Hx ->%list_elem_of_singleton. done.
Qed.

Lemma Set_add_prefix {A : Type} `{EqDecision A} (y : A) (s : list A) :
  s `prefix_of` Set_add y s.
Proof.
  unfold Set_add. destruct (includes s y); [done | by apply prefix_app_r].
Qed.

Lemma elem_of_Set_of {A : Type} `{EqDecision A} (l : list A) (x : A) :
  x ∈ Set_of l ↔ x ∈ l.
Proof.
  unfold Set_of.
  assert (∀ acc, x ∈ foldl (λ s x, Set_add x s) acc l ↔ x ∈ acc ∨ x ∈ l) as H0.
  { induction l as [| y l IH]; intros acc; simpl.
    - rewrite elem_of_nil. tauto.
    - rewrite IH, elem_of_Set_add, elem_of_cons. tauto. }
  rewrite H0, elem_of_nil. tauto.
Qed.

Lemma NoDup_Set_of {A : Type} `{EqDecision A} (l : list A) : NoDup (Set_of l).
Proof.
  unfold Set_of.
  assert (∀ acc, NoDup acc → NoDup (foldl (λ s x, Set_add x s) acc l)) as H0.
  { induction l as [| y l IH]; intros acc Hacc; simpl; [done |].
    by apply IH, NoDup_Set_add. }
  apply H0, NoDup_nil_2.
Qed.

(** A loop that keeps an invariant [P] and establishes, for each element, a
    fact [Q] that later turns preserve. *)
Lemma forEach_inv {A S : Type} (f : A → S → result S) (P : S → Prop)
    (Q : A → S → Prop) (l : list A) (s : S) :
  P s →
  (∀ x s, x ∈ l → P s →
     ∃ s', f x s = Ok s' ∧ P s' ∧ Q x s' ∧ ∀ y, Q y s → Q y s') →
  ∃ s', forEach f l s = Ok s' ∧ P s' ∧ (∀ x, x ∈ l → Q x s') ∧
        ∀ y, Q y s → Q y s'.
Proof.
  revert s. induction l as [| x l IH]; intros s Hs Hstep; simpl.
  - exists s. split_and!; [done | done | | done]. intros x Hx. by apply elem_of_nil in Hx.
  - destruct (Hstep x s) as (s1 & -> & Hs1 & Hq & Hmono); [left | done |].
    destruct (IH s1) as (s2 & Hrun & Hs2 & Hall & Hmono2); [done | |].
    { intros y t Hy. apply Hstep. by right. }
    exists s2. split_and!; [done | done | | by auto].
    intros y [-> | Hy]%elem_of_cons; auto.
Qed.

(** A loop that fails at its first failing turn. *)
Lemma forEach_app {A S : Type} (f : A → S → result S) (l1 l2 : list A) (s : S) :
  forEach f (l1 ++ l2) s = (s' ← forEach f l1 s; forEach f l2 s').
Proof.
  revert s. induction l1 as [| x l1 IH]; intros s; simpl; [done |].
  destruct (f x s); simpl; [apply IH | done].
Qed.

Lemma forEach_outcome {A S : Type} (f : A → S → result S) (P : error → Prop)
    (l : list A) (s : S) :
  (∀ x s, x ∈ l → (∃ s', f x s = Ok s') ∨ ∃ e, f x s = Throw e ∧ P e) →
  (∃ s', forEach f l s = Ok s') ∨ ∃ e, forEach f l s = Throw e ∧ P e.
Proof.
  revert s. induction l as [| x l IH]; intros s Hstep; simpl; [by eauto |].
  destruct (Hstep x s) as [(s' & ->) | (e & -> & He)]; [by left | | by eauto].
  apply IH. intros y t Hy. apply Hstep. by right.
Qed.

Lemma forEach_Ok_inv {A S : Type} (f : A → S → result S) (l : list A)
    (s s' : S) (x : A) :
  forEach f l s = Ok s' → x ∈ l → ∃ s1 s2, f x s1 = Ok s2.
Proof.
  revert s. induction l as [| y l IH]; intros s Hrun Hx.
  - by apply elem_of_nil in Hx.
  - simpl in Hrun. destruct (f y s) as [s1 |] eqn:Hy; [| done].
    apply elem_of_cons in Hx as [-> | Hx]; [by exists s, s1 | by eapply IH].
Qed.

Lemma before_elem_of {A : Type} (x y : A) (l : list A) :
  before x y l → x ∈ l ∧ y ∈ l.
Proof. intros (l1 & l2 & l3 & ->). set_solver. Qed.

Lemma before_reverse {A : Type} (x y : A) (l : list A) :
  before x y l → before y x (reverse l).
Proof.
  intros (l1 & l2 & l3 & ->). exists (reverse l3), (reverse l2), (reverse l1).
  rewrite !reverse_app, !reverse_cons, !reverse_app, !reverse_cons.
  by rewrite <- !(assoc_L (++)).
Qed.

Lemma NoDup_split_unique {A : Type} (y : A) (a b c d : list A) :
  NoDup (a ++ y :: b) → a ++ y :: b = c ++ y :: d → a = c ∧ b = d.
Proof.
  revert c. induction a as [| a0 a IH]; intros [| c0 c] Hnd Heq; simpl in *.
  - by injection Heq.
  - injection Heq as <- ->. apply NoDup_cons in Hnd as [Hy _].
    destruct Hy. apply elem_of_app. right. by left.
  - injection Heq as -> <-. apply NoDup_cons in Hnd as [Hy _].
    destruct Hy. apply elem_of_app. right. by left.
  - injection Heq as -> Heq. apply NoDup_cons in Hnd as [_ Hnd].
    destruct (IH c Hnd Heq) as [-> ->]. done.
Qed.

Lemma before_trans {A : Type} (x y z : A) (l : list A) :
  NoDup l → before x y l → before y z l → before x z l.
Proof.
  intros Hnd (l1 & l2 & l3 & Hl) (k1 & k2 & k3 & Hk).
  (* [y] occurs once, so the two decompositions split [l] at the same place *)
  assert (l1 ++ x :: l2 = k1 ∧ l3 = k2 ++ z :: k3) as [<- ->].
  { subst l. apply (NoDup_split_unique y).
    - by rewrite <- (assoc_L (++)).
    - by rewrite <- (assoc_L (++)), <- Hk. }
  exists l1, (l2 ++ y :: k2), k3. rewrite Hl.
  by rewrite <- !(assoc_L (++)).
Qed.

(** ** The [toposort] model meets the contract *)

Module ToposortFacts.
Import Toposort.

Lemma elem_of_outgoing (g : list edge) (a b : Key) :
  b ∈ outgoing g a ↔ (a, b) ∈ g.
Proof.
  unfold outgoing.
  assert (∀ acc, b ∈ foldl (λ res e, if decide (e.1 = a) then Set_add e.2 res
                                      else res) acc g
                 ↔ b ∈ acc ∨ (a, b) ∈ g) as H0.
  { induction g as [| [x y] g IH]; intros acc; simpl.
    - rewrite elem_of_nil. tauto.
    - rewrite IH, elem_of_cons. destruct (decide (x = a)) as [-> | Hne].
      + rewrite elem_of_Set_add. split; [| intros [? | [[= ->] | ?]]; tauto].
        intros [[-> | ?] | ?]; tauto.
      + split; [tauto |]. intros [? | [[= -> ->] | ?]]; tauto. }
  rewrite H0, elem_of_nil. tauto.
Qed.

Lemma elem_of_uniqueNodes (g : list edge) (x : Key) :
  x ∈ uniqueNodes g ↔ node_of g x.
Proof.
  unfold uniqueNodes, node_of.
  assert (∀ acc, x ∈ foldl (λ res e, Set_add e.2 (Set_add e.1 res)) acc g
                 ↔ x ∈ acc ∨ ∃ y, (x, y) ∈ g ∨ (y, x) ∈ g) as H0.
  { induction g as [| [a b] g IH]; intros acc; simpl.
    - split; [tauto |]. intros [? | (y & [H | H])]; [done | |];
        by apply elem_of_nil in H.
    - rewrite IH, !elem_of_Set_add. split.
      + intros [[-> | [-> | ?]] | (y & [H | H])].
        * right. exists a. right. left.
        * right. exists b. left. left.
        * by left.
        * right. exists y. left. by right.
        * right. exists y. right. by right.
      + intros [? | (y & [H | H])]; [tauto | |].
        * apply elem_of_cons in H as [[= -> ->] | H]; [tauto |].
          right. exists y. by left.
        * apply elem_of_cons in H as [[= -> ->] | H]; [tauto |].
          right. exists y. by right. }
  rewrite H0, elem_of_nil. tauto.
Qed.

Lemma ordered_before (g : list edge) (l : list Key) (a b : Key) :
  ordered g l → (a, b) ∈ g → a ∈ l → before a b l.
Proof.
  induction l as [| x l IH]; simpl; intros Hord Hab Ha.
  - by apply elem_of_nil in Ha.
  - destruct Hord as [Hx Hord]. apply elem_of_cons in Ha as [-> | Ha].
    + apply Hx, list_elem_of_split in Hab as (l2 & l3 & ->).
      by exists [], l2, l3.
    + destruct (IH Hord Hab Ha) as (l1 & l2 & l3 & ->).
      by exists (x :: l1), l2, l3.
Qed.

Lemma visit_ok (g : list edge) (fuel : nat) :
  acyclic (edge_of g) →
  ∀ node preds s,
    inv g preds s →
    (∀ p, p ∈ preds → tc (edge_of g) p node) →
    NoDup preds →
    (∀ p, p ∈ preds → node_of g p) →
    node_of g node →
    length (uniqueNodes g) < fuel + length preds →
    ∃ s', visit fuel g node preds s = Ok s' ∧ inv g preds s' ∧
          node ∈ s'.2 ∧ ∀ x, x ∈ s.2 → x ∈ s'.2.
Proof.
  intros Hacyc. induction fuel as [| fuel IH];
    intros node preds s Hinv Hanc Hnd Hsub Hnode Hfuel.
  - (* the open nodes are distinct nodes of the graph *)
    exfalso. assert (length preds ≤ length (uniqueNodes g)); [| lia].
    apply submseteq_length, NoDup_submseteq; [done |].
    intros x Hx. by apply elem_of_uniqueNodes, Hsub.
  - simpl. destruct (includes preds node) eqn:Hin.
    { apply includes_true in Hin. destruct (Hacyc node). by apply Hanc. }
    apply includes_false in Hin.
    destruct (includes s.1 node) eqn:Hvis.
    { apply includes_true in Hvis. exists s. split_and!; [done | done | | done].
      apply (inv_visited _ _ _ Hinv) in Hvis as [? | ?]; done. }
    apply includes_false in Hvis.
    destruct (forEach_inv
                (λ child, visit fuel g child (node :: preds))
                (inv g (node :: preds)) (λ x t, x ∈ t.2)
                (reverse (outgoing g node)) (node :: s.1, s.2))
      as (s' & -> & Hinv' & Hchildren & Hmono).
    + destruct Hinv as [I1 I2 I3 I4 I5]. split; simpl; try done.
      * intros x. rewrite !elem_of_cons, I1. tauto.
      * intros x Hx [-> | Hp]%elem_of_cons; [| by apply (I3 x)].
        apply Hvis, I1. by left.
    + intros c t Hc Ht. apply elem_of_reverse, elem_of_outgoing in Hc.
      destruct (IH c (node :: preds) t) as (t' & Hrun & Ht' & Hct & Hm);
        try done.
      * intros p [-> | Hp]%elem_of_cons; [by apply tc_once |].
        eapply tc_r; [by apply Hanc | done].
      * by apply NoDup_cons.
      * intros p [-> | Hp]%elem_of_cons; auto.
      * exists node. by right.
      * simpl. lia.
      * exists t'. split_and!; auto.
    + exists (s'.1, node :: s'.2). destruct Hinv' as [I1 I2 I3 I4 I5].
      split_and!; [done | | by left | intros x Hx; right; by apply Hmono].
      split; simpl.
      * intros x. rewrite I1, !elem_of_cons. tauto.
      * apply NoDup_cons. split; [| done]. intros Hn. apply (I3 node Hn). by left.
      * intros x [-> | Hx]%elem_of_cons; [done |].
        intros Hp. apply (I3 x Hx). by right.
      * split; [| done]. intros b Hb. apply Hchildren.
        by apply elem_of_reverse, elem_of_outgoing.
      * intros x [-> | Hx]%elem_of_cons; auto.
Qed.

Theorem toposort_meets_contract : toposort_contract toposort.
Proof.
  intros g Hacyc. unfold toposort.
  destruct (forEach_inv
              (λ node, visit (S (length (uniqueNodes g))) g node [])
              (inv g []) (λ x t, x ∈ t.2)
              (reverse (uniqueNodes g)) ([], []))
    as (s & -> & [I1 I2 I3 I4 I5] & Hall & _).
  - split; simpl;
      [ intros x; rewrite !elem_of_nil; tauto | apply NoDup_nil_2
      | intros x Hx; by apply elem_of_nil in Hx | done
      | intros x Hx; by apply elem_of_nil in Hx ].
  - intros x t Hx Ht. apply elem_of_reverse, elem_of_uniqueNodes in Hx.
    destruct (visit_ok g (S (length (uniqueNodes g))) Hacyc x [] t)
      as (t' & Hrun & Ht' & Hxt & Hm); try done.
    + intros p Hp. by apply elem_of_nil in Hp.
    + apply NoDup_nil_2.
    + intros p Hp. by apply elem_of_nil in Hp.
    + simpl. lia.
    + exists t'. split_and!; auto.
  - exists s.2. split_and!; [done | done | |].
    + intros x. split; [apply I5 |]. intros Hx.
      by apply Hall, elem_of_reverse, elem_of_uniqueNodes.
    + intros a b Hab. apply (ordered_before g); [done | done |].
      apply Hall, elem_of_reverse, elem_of_uniqueNodes. exists b. by left.
Qed.

(** The traversal never exhausts its bound: the open nodes are distinct
    nodes of the graph.  It returns, or reports a cycle. *)
Lemma visit_outcome (g : list edge) (fuel : nat) :
  ∀ node preds s,
    NoDup preds →
    (∀ p, p ∈ preds → node_of g p) →
    length (uniqueNodes g) < fuel + length preds →
    (∃ s', visit fuel g node preds s = Ok s') ∨
    ∃ e, visit fuel g node preds s = Throw e ∧ e = Error "Cyclic dependency".
Proof.
  induction fuel as [| fuel IH]; intros node preds s Hnd Hsub Hfuel.
  - exfalso. assert (length preds ≤ length (uniqueNodes g)); [| lia].
    apply submseteq_length, NoDup_submseteq; [done |].
    intros x Hx. by apply elem_of_uniqueNodes, Hsub.
  - simpl. destruct (includes preds node) eqn:Hin; [right; by eexists |].
    apply includes_false in Hin.
    destruct (includes s.1 node); [left; by eexists |].
    destruct (forEach_outcome
                (λ child, visit fuel g child (node :: preds))
                (λ e, e = Error "Cyclic dependency")
                (reverse (outgoing g node)) (node :: s.1, s.2))
      as [(s' & ->) | (e & -> & He)]; [| left; by eexists | right; by eexists].
    intros c t Hc. apply elem_of_reverse, elem_of_outgoing in Hc.
    apply IH.
    + by apply NoDup_cons.
    + intros p [-> | Hp]%elem_of_cons; [| by apply Hsub]. exists c. by left.
    + simpl. lia.
Qed.

Theorem toposort_outcome (g : list edge) :
  (∃ l, toposort g = Ok l) ∨ toposort g = Throw (Error "Cyclic dependency").
Proof.
  unfold toposort.
  destruct (forEach_outcome
              (λ node, visit (S (length (uniqueNodes g))) g node [])
              (λ e, e = Error "Cyclic dependency")
              (reverse (uniqueNodes g)) ([], []))
    as [(s & ->) | (e & -> & ->)]; [| left; by eexists | by right].
  intros x t Hx. apply visit_outcome.
  - apply NoDup_nil_2.
  - intros p Hp. by apply elem_of_nil in Hp.
  - simpl. lia.
Qed.

End ToposortFacts.

(** ** The closure computed by [getDependencies] *)

Lemma length_le_size {C : Type} (m : gmap string C) (l : list string) :
  NoDup l → (∀ x, x ∈ l → is_Some (m !! x)) → length l ≤ size m.
Proof.
  intros Hnd Hl.
  rewrite <- (size_list_to_set (C:=gset string) l Hnd), <- (size_dom m).
  apply subseteq_size. intros x Hx%elem_of_list_to_set.
  by apply elem_of_dom, Hl.
Qed.

Lemma tc_inv_l {A : Type} (R : relation A) (x z : A) :
  tc R x z → ∃ y, R x y ∧ rtc R y z.
Proof.
  intros [x' z' Hxz | x' y z' Hxy Hyz].
  - by exists z'.
  - exists y. split; [done | by apply tc_rtc].
Qed.

Section closure.

Context {C : Type} (registry : gmap string C) (requires : C → list string)
  (kind : component).

Local Abbreviation R := (requires_of registry requires).

(** On a request that reaches only known names and no cycle,
    [getDependencies] returns, having added what [name] reaches. *)
Lemma getDependencies_ok (fuel : nat) :
  ∀ name dependedBy all,
    NoDup dependedBy →
    (∀ c, c ∈ dependedBy → is_Some (registry !! c)) →
    size registry < fuel + length dependedBy →
    (∀ x, rtc R name x → is_Some (registry !! x)) →
    (∀ x, rtc R name x → ¬ tc R x x) →
    (∀ c, c ∈ dependedBy → tc R c name) →
    ∃ all', getDependencies registry requires kind fuel name dependedBy all
            = Ok all' ∧
            (∀ x, x ∈ all' ↔ x ∈ all ∨ rtc R name x) ∧
            (NoDup all → NoDup all').
Proof.
  induction fuel as [| fuel IH];
    intros name chain all Hnd Hknown Hfuel Hclosed Hacyc Hanc.
  - exfalso. pose proof (length_le_size registry chain Hnd Hknown). lia.
  - simpl. destruct (Hclosed name) as [c Hc]; [done |]. rewrite Hc.
    assert (name ∉ chain) as Hfresh.
    { intros Hin. apply (Hacyc name); [done | by apply Hanc]. }
    apply includes_false in Hfresh as Hfresh'. 
    destruct (forEach_inv
      (λ n all0,
         if includes chain name
         then Throw (Error (circular_message (component_word kind) (chain ++ [name; n])))
         else getDependencies registry requires kind fuel n (chain ++ [name]) all0)
      (λ t, (∀ x, x ∈ Set_add name all → x ∈ t) ∧
            (∀ x, x ∈ t → x ∈ Set_add name all ∨
                          ∃ n, n ∈ requires c ∧ rtc R n x) ∧
            (NoDup all → NoDup t))
      (λ n t, ∀ x, rtc R n x → x ∈ t)
      (requires c) (Set_add name all))
      as (all' & Hrun & (Hsub & Hsup & Hnd') & Hreach & _).
    + split_and!; [done | by left | apply NoDup_Set_add].
    + intros n t Hn (Hsub & Hsup & Hnd'). rewrite Hfresh'.
      assert (R name n) as Hstep by (by exists c).
      destruct (IH n (chain ++ [name]) t) as (t' & Hrun & Hiff & Hnd'').
      * apply NoDup_app. split_and!; [done | | apply NoDup_singleton].
        intros x Hx ->%list_elem_of_singleton. done.
      * intros x [Hx | ->%list_elem_of_singleton]%elem_of_app; [auto |].
        by exists c.
      * rewrite length_app. simpl. lia.
      * intros x Hx. apply Hclosed. by eapply rtc_l.
      * intros x Hx. apply Hacyc. by eapply rtc_l.
      * intros x [Hx | ->%list_elem_of_singleton]%elem_of_app.
        -- eapply tc_r; [by apply Hanc | done].
        -- by apply tc_once.
      * exists t'. split_and!; [done | | | | | ].
        -- intros x Hx. apply Hiff. left. by apply Hsub.
        -- intros x [Hx | Hx]%Hiff; [by apply Hsup |]. right. by exists n.
        -- auto.
        -- intros x Hx. apply Hiff. by right.
        -- intros y Hy x Hx. apply Hiff. left. by apply Hy.
    + exists all'. split_and!; [done | | done].
      intros x. split.
      * intros [Hx | (n & Hn & Hx)]%Hsup.
        -- apply elem_of_Set_add in Hx as [-> | Hx]; [by right | by left].
        -- right. eapply rtc_l; [| done]. by exists c.
      * intros [Hx | Hx].
        -- apply Hsub, elem_of_Set_add. by right.
        -- apply rtc_inv in Hx as [-> | (n & (c' & Hc' & Hn) & Hx)].
           ++ apply Hsub, elem_of_Set_add. by left.
           ++ rewrite Hc in Hc'. injection Hc' as <-. by apply (Hreach n).
Qed.

(** Conversely, when [getDependencies] returns, [name] reaches no cycle. *)
Lemma getDependencies_Ok_acyclic (fuel : nat) :
  ∀ name dependedBy all all',
    getDependencies registry requires kind fuel name dependedBy all = Ok all' →
    ∀ x, rtc R name x → ¬ tc R x x.
Proof.
  induction fuel as [| fuel IH]; intros name chain all all' Hrun; [done |].
  simpl in Hrun. destruct (registry !! name) as [c |] eqn:Hc; [| done].
  assert (∀ n, n ∈ requires c → ∀ x, rtc R n x → ¬ tc R x x) as Hdeps.
  { intros n Hn. destruct (forEach_Ok_inv _ _ _ _ n Hrun Hn) as (t & t' & Ht).
    destruct (includes chain name); [done |]. by eapply IH. }
  intros x Hx. apply rtc_inv in Hx as [<- | (n & (c' & Hc' & Hn) & Hx)].
  - intros Hcyc. apply tc_inv_l in Hcyc as (n & (c' & Hc' & Hn) & Hback).
    rewrite Hc in Hc'. injection Hc' as <-.
    apply (Hdeps n Hn n); [done |].
    eapply tc_rtc_l; [done |]. apply tc_once. by exists c.
  - rewrite Hc in Hc'. injection Hc' as <-. by apply (Hdeps n).
Qed.

End closure.

Section outcome.

Context {C : Type} (registry : gmap string C) (requires : C → list string)
  (kind : component).

Local Abbreviation R := (requires_of registry requires).

(** With more fuel than the registry has names left outside the chain,
    [getDependencies] returns or throws one of its two errors. *)
Lemma getDependencies_outcome (fuel : nat) :
  ∀ name dependedBy all,
    NoDup dependedBy →
    (∀ c, c ∈ dependedBy → is_Some (registry !! c)) →
    size registry < fuel + length dependedBy →
    (∃ all', getDependencies registry requires kind fuel name dependedBy all
             = Ok all') ∨
    ∃ e, getDependencies registry requires kind fuel name dependedBy all
         = Throw e ∧ (circular_error registry requires kind e ∨
                   unknown_error registry requires kind name e).
Proof.
  induction fuel as [| fuel IH]; intros name chain all Hnd Hknown Hfuel.
  - exfalso. pose proof (length_le_size registry chain Hnd Hknown). lia.
  - simpl. destruct (registry !! name) as [c |] eqn:Hc.
    2:{ right. eexists. split; [done |]. right. split; [done |]. by exists name. }
    apply forEach_outcome. intros n t Hn.
    assert (R name n) as Hstep by (by exists c).
    destruct (includes chain name) eqn:Hin.
    { apply includes_true in Hin. right. eexists. split; [done |]. left.
      by exists chain, name, n. }
    apply includes_false in Hin.
    destruct (IH n (chain ++ [name]) t) as [? | (e & Hrun & He)]; [| | | by left |].
    + apply NoDup_app. split_and!; [done | | apply NoDup_singleton].
      intros x Hx ->%list_elem_of_singleton. done.
    + intros x [Hx | ->%list_elem_of_singleton]%elem_of_app; [auto |].
      by exists c.
    + rewrite length_app. simpl. lia.
    + right. exists e. split; [done |]. destruct He as [He | (-> & m & Hm & Hnone)].
      * by left.
      * right. split; [done |]. exists m. split; [| done]. by eapply rtc_l.
Qed.

(** [getDependencies] never exhausts the bound its callers give it. *)
Lemma getDependencies_fuel (name : string) (all : list string) :
  getDependencies registry requires kind (S (size registry)) name [] all
  ≠ Throw OutOfFuel.
Proof.
  destruct (getDependencies_outcome (S (size registry)) name [] all)
    as [(all' & ->) | (e & -> & [(chain & x & n & -> & _) | (-> & _)])];
    try done.
  - apply NoDup_nil_2.
  - intros c Hc. by apply elem_of_nil in Hc.
  - simpl. lia.
Qed.

(** *** [collect]: the closure of a request *)

Lemma collect_ok (required : list string) :
  closed registry requires required →
  acyclic_from registry requires required →
  ∃ all, collect registry requires kind required = Ok all ∧ NoDup all ∧
         ∀ x, x ∈ all ↔ reaches R required x.
Proof.
  intros Hclosed Hacyc. unfold collect.
  destruct (forEach_inv
    (λ name, getDependencies registry requires kind (S (size registry)) name [])
    (λ t, (∀ x, x ∈ required → x ∈ t) ∧ (∀ x, x ∈ t → reaches R required x) ∧
          NoDup t)
    (λ r t, ∀ x, rtc R r x → x ∈ t)
    required (Set_of required))
    as (all & Hrun & (Hsub & Hsup & Hnd) & Hreach & _).
  - split_and!; [intros x Hx; by apply elem_of_Set_of | | apply NoDup_Set_of].
    intros x Hx. apply (proj1 (elem_of_Set_of _ _)) in Hx.
    exists x. split; [done | apply rtc_refl].
  - intros r t Hr (Hsub & Hsup & Hnd).
    destruct (getDependencies_ok registry requires kind (S (size registry))
                r [] t) as (t' & Hrun & Hiff & Hnd').
    + apply NoDup_nil_2.
    + intros c Hc. by apply elem_of_nil in Hc.
    + simpl. lia.
    + intros x Hx. apply Hclosed. by exists r.
    + intros x Hx. apply Hacyc. by exists r.
    + intros c Hc. by apply elem_of_nil in Hc.
    + exists t'. split_and!; [done | | | by auto | | ].
      * intros x Hx. apply Hiff. left. by apply Hsub.
      * intros x [Hx | Hx]%Hiff; [by apply Hsup | by exists r].
      * intros x Hx. apply Hiff. by right.
      * intros y Hy x Hx. apply Hiff. left. by apply Hy.
  - exists all. split_and!; [done | done |]. intros x. split; [apply Hsup |].
    intros (r & Hr & Hx). by apply (Hreach r).
Qed.

Lemma collect_Ok_acyclic (required all : list string) :
  collect registry requires kind required = Ok all →
  acyclic_from registry requires required.
Proof.
  intros Hrun x (r & Hr & Hx).
  destruct (forEach_Ok_inv _ _ _ _ r Hrun Hr) as (t & t' & Ht).
  by eapply getDependencies_Ok_acyclic.
Qed.

(** A request that reaches a cycle, and only known names, is refused with
    the circular-dependency error. *)
Lemma collect_cyclic (required : list string) :
  closed registry requires required →
  ¬ acyclic_from registry requires required →
  ∃ e, collect registry requires kind required = Throw e ∧
       circular_error registry requires kind e.
Proof.
  intros Hclosed Hcyc.
  destruct (forEach_outcome
    (λ name, getDependencies registry requires kind (S (size registry)) name [])
    (circular_error registry requires kind) required (Set_of required))
    as [(all & Hrun) | (e & Hrun & He)].
  - intros r t Hr.
    destruct (getDependencies_outcome (S (size registry)) r [] t)
      as [? | (e & Hrun & [He | (_ & m & Hm & Hnone)])]; [| | | by left | |].
    + apply NoDup_nil_2.
    + intros c Hc. by apply elem_of_nil in Hc.
    + simpl. lia.
    + right. by exists e.
    + destruct (Hclosed m) as [c Hc]; [by exists r | congruence].
  - destruct Hcyc. by eapply collect_Ok_acyclic.
  - by exists e.
Qed.

End outcome.

(** ** The order returned by the sort routines *)

Lemma slice_0_m1_snoc {A : Type} (l : list A) (x : A) :
  slice_0_m1 (l ++ [x]) = l.
Proof.
  unfold slice_0_m1. apply take_app_length'. rewrite length_app. simpl. lia.
Qed.

Lemma NoDup_reverse {A : Type} (l : list A) : NoDup l → NoDup (reverse l).
Proof. by rewrite reverse_Permutation. Qed.

Lemma before_cons_inv {A : Type} (x y h : A) (l : list A) :
  before x y (h :: l) → x ≠ h → before x y l.
Proof.
  intros (l1 & l2 & l3 & Heq) Hne. destruct l1 as [| h' l1]; simpl in Heq.
  - by injection Heq as ->.
  - injection Heq as -> ->. by exists l1, l2, l3.
Qed.

Lemma reaches_step {A : Type} (R : relation A) (roots : list A) (x y : A) :
  reaches R roots x → R x y → reaches R roots y.
Proof. intros (r & Hr & Hx) Hxy. exists r. split; [done | by eapply rtc_r]. Qed.

(** The edges appended by the second loop of a sort routine. *)
Lemma graph_edges {C : Type} (registry : gmap string C)
    (requires : C → list string)
    (f : string → list (Key * Key) → result (list (Key * Key)))
    (all : list string) (g0 : list (Key * Key)) :
  (∀ name g, name ∈ all →
     ∃ c, registry !! name = Some c ∧
          f name g = Ok (g ++ ((λ n, (KStr name, KStr n)) <$> requires c))) →
  ∃ g, forEach f all g0 = Ok g ∧
       ∀ e, e ∈ g ↔ e ∈ g0 ∨
                    ∃ x y, e = (KStr x, KStr y) ∧ x ∈ all ∧
                           requires_of registry requires x y.
Proof.
  revert g0. induction all as [| name all IH]; intros g0 Hf; simpl.
  - exists g0. split; [done |]. intros e. split; [by left |].
    intros [? | (x & y & _ & Hx & _)]; [done | by apply elem_of_nil in Hx].
  - destruct (Hf name g0) as (c & Hc & ->); [by left |].
    destruct (IH (g0 ++ ((λ n, (KStr name, KStr n)) <$> requires c)))
      as (g & -> & Hg).
    { intros x g' Hx. apply Hf. by right. }
    exists g. split; [done |]. intros e. rewrite Hg, elem_of_app, list_elem_of_fmap.
    split.
    + intros [[? | (n & -> & Hn)] | (x & y & -> & Hx & Hxy)].
      * by left.
      * right. exists name, n. split_and!; [done | by left | by exists c].
      * right. exists x, y. split_and!; [done | by right | done].
    + intros [? | (x & y & -> & [-> | Hx]%elem_of_cons & Hxy)].
      * by left; left.
      * left. right. destruct Hxy as (c' & Hc' & Hy).
        rewrite Hc in Hc'. injection Hc' as <-. by exists y.
      * right. by exists x, y.
Qed.

Section order.

Context {C : Type} (registry : gmap string C) (requires : C → list string).
Variable sort : list (Key * Key) → result (list Key).
Hypothesis sort_contract : toposort_contract sort.

Local Abbreviation R := (requires_of registry requires).

Variables (serviceNode : string) (required all : list string)
  (g : list (Key * Key)).
Hypothesis all_reaches : ∀ x, x ∈ all ↔ reaches R required x.
Hypothesis acyclic_request : acyclic_from registry requires required.
Hypothesis g_edges :
  ∀ e, e ∈ g ↔ e ∈ (λ i, (KSym serviceNode, KStr i)) <$> required ∨
               ∃ x y, e = (KStr x, KStr y) ∧ x ∈ all ∧ R x y.

Lemma graph_path (a b : Key) :
  tc (edge_of g) a b →
  ∃ y, b = KStr y ∧
       (a = KSym serviceNode ∨ ∃ x, a = KStr x ∧ x ∈ all ∧ tc R x y).
Proof.
  induction 1 as [a b Hab | a c b Hac _ (y & -> & IH)].
  - apply g_edges in Hab as [(i & [= -> ->] & _)%list_elem_of_fmap
                            | (x & y & [= -> ->] & Hx & Hxy)].
    + exists i. by split; [| left].
    + exists y. split; [done |]. right. exists x. split_and!; [done | done |].
      by apply tc_once.
  - exists y. split; [done |].
    apply g_edges in Hac as [(i & [= -> ->] & _)%list_elem_of_fmap
                            | (x & x' & [= -> ->] & Hx & Hxx')].
    + by left.
    + right. exists x. destruct IH as [[=] | (x0 & [= <-] & _ & Hpath)].
      split_and!; [done | done |]. by eapply tc_l.
Qed.

Lemma graph_acyclic : acyclic (edge_of g).
Proof.
  intros a Ha.
  apply graph_path in Ha as (y & -> & [[=] | (x & [= <-] & Hx & Hcyc)]).
  apply (acyclic_request y); [by apply all_reaches | done].
Qed.

Lemma graph_incoming (x : string) :
  reaches R required x → ∃ a, (a, KStr x) ∈ g.
Proof.
  intros (r & Hr & [-> | (z & Hz & Hzx)]%rtc_inv_r).
  - exists (KSym serviceNode). apply g_edges. left.
    apply list_elem_of_fmap. by exists x.
  - exists (KStr z). apply g_edges. right. exists z, x.
    split_and!; [done | | done]. apply all_reaches. by exists r.
Qed.

Lemma graph_node (k : Key) :
  node_of g k ↔ k = KSym serviceNode ∧ required ≠ [] ∨
                ∃ x, k = KStr x ∧ reaches R required x.
Proof.
  split.
  - intros (y & [Hk | Hk]);
      apply g_edges in Hk as [(i & [= -> ->] & Hi)%list_elem_of_fmap
                             | (x & x' & [= -> ->] & Hx & Hxx')].
    + left. split; [done |]. intros ->. by apply elem_of_nil in Hi.
    + right. exists x. split; [done | by apply all_reaches].
    + right. exists i. split; [done |]. exists i. split; [done | apply rtc_refl].
    + right. exists x'. split; [done |].
      eapply reaches_step; [by apply all_reaches | done].
  - intros [[-> Hne] | (x & -> & Hx)].
    + destruct required as [| r rs]; [done |]. exists (KStr r). left.
      apply g_edges. left. apply list_elem_of_fmap. exists r. split; [done | by left].
    + destruct (graph_incoming x Hx) as (a & Ha). exists a. by right.
Qed.

(** The sorted nodes, reversed and without their last element, are the
    resolution order of the request. *)
Lemma order_of_graph :
  ∃ l, sort g = Ok l ∧
       resolution_order registry requires required (slice_0_m1 (reverse l)).
Proof.
  destruct (sort_contract g graph_acyclic) as (l & Hsort & Hnd & Hnodes & Hbefore).
  exists l. split; [done |].
  destruct l as [| h l'].
  - (* no node at all: nothing was required *)
    assert (∀ x, ¬ reaches R required x) as Hnone.
    { intros x Hx. apply (elem_of_nil (KStr x)), Hnodes, graph_node. right. by exists x. }
    split_and!; [apply NoDup_nil_2 | |].
    + intros k. split; [by intros ?%elem_of_nil |]. intros (x & _ & Hx). by destruct (Hnone x).
    + intros a b Ha. by destruct (Hnone a).
  - (* the first node has no incoming edge: it is the synthetic root *)
    assert (∀ a, (a, h) ∉ g) as Hsource.
    { intros a (l1 & l2 & l3 & Heq)%Hbefore.
      apply NoDup_cons in Hnd as [Hh _]. apply Hh.
      destruct l1 as [| h' l1]; simpl in Heq; injection Heq as -> ->;
        rewrite ?elem_of_app, ?elem_of_cons, ?elem_of_app, ?elem_of_cons; tauto. }
    assert (h = KSym serviceNode) as ->.
    { assert (node_of g h) as [[-> _] | (x & -> & Hx)]%graph_node; [| done |].
      - apply Hnodes. by left.
      - destruct (graph_incoming x Hx) as (a & Ha). by destruct (Hsource a). }
    rewrite reverse_cons, slice_0_m1_snoc.
    apply NoDup_cons in Hnd as Hnd'. destruct Hnd' as [Hroot Hnd'].
    assert (∀ x y, x ∈ all → R x y → before (KStr y) (KStr x) (reverse l')) as Hedge.
    { intros x y Hx Hxy. apply before_reverse. apply before_cons_inv with (KSym serviceNode); [| done].
      apply Hbefore, g_edges. right. by exists x, y. }
    split_and!.
    + by apply NoDup_reverse.
    + intros k. rewrite elem_of_reverse. split.
      * intros Hk. assert (node_of g k) as [[-> _] | ?]%graph_node; [| done | done].
        apply Hnodes. by right.
      * intros (x & -> & Hx). assert (KStr x ∈ KSym serviceNode :: l') as [[=] | ?]%elem_of_cons; [| done].
        apply Hnodes, graph_node. right. by exists x.
    + intros a b Ha Hab. revert Ha.
      induction Hab as [a b Hab | a c b Hac Hcb IH]; intros Ha.
      * apply Hedge; [by apply all_reaches | done].
      * eapply before_trans; [by apply NoDup_reverse | |].
        -- apply IH. by eapply reaches_step.
        -- apply Hedge; [by apply all_reaches | done].
Qed.

End order.

Lemma bind_Ok {A B : Type} (a : A) (k : A → result B) : (Ok a ≫= k) = k a.
Proof. done. Qed.


Lemma getDependencies_Ok_closed {C : Type} (registry : gmap string C)
    (requires : C → list string) (kind : component) (fuel : nat) :
  ∀ name dependedBy all all',
    getDependencies registry requires kind fuel name dependedBy all = Ok all' →
    ∀ x, rtc (requires_of registry requires) name x → is_Some (registry !! x).
Proof.
  induction fuel as [| fuel IH]; intros name chain all all' Hrun; [done |].
  simpl in Hrun. destruct (registry !! name) as [c |] eqn:Hc; [| done].
  intros x [<- | (n & (c' & Hc' & Hn) & Hx)]%rtc_inv; [by exists c |].
  rewrite Hc in Hc'. injection Hc' as <-.
  destruct (forEach_Ok_inv _ _ _ _ n Hrun Hn) as (t & t' & Ht).
  destruct (includes chain name); [done |]. by eapply IH.
Qed.

Lemma collect_Ok_closed {C : Type} (registry : gmap string C)
    (requires : C → list string) (kind : component) (required all : list string) :
  collect registry requires kind required = Ok all →
  closed registry requires required.
Proof.
  intros Hrun x (r & Hr & Hx).
  destruct (forEach_Ok_inv _ _ _ _ r Hrun Hr) as (t & t' & Ht).
  by eapply getDependencies_Ok_closed.
Qed.

Lemma difference_nil (a : list string) (b : list Key) :
  difference a b = [] ↔ ∀ s, s ∈ a → KStr s ∈ b.
Proof.
  unfold difference. induction a as [| x a IH]; simpl.
  - split; [intros _ s Hs; by apply elem_of_nil in Hs | done].
  - rewrite filter_cons. destruct (decide (KStr x ∉ b)) as [Hx | Hx].
    + split; [done |]. intros Hall. destruct Hx. apply Hall. by left.
    + rewrite IH. apply dec_stable in Hx. split.
      * intros Hall s [-> | Hs]%elem_of_cons; auto.
      * intros Hall s Hs. apply Hall. by right.
Qed.

Section sort_routines.

Variable sort : list (Key * Key) → result (list Key).
Hypothesis sort_contract : toposort_contract sort.

Lemma sortSingletons_order (singletons : gmap string Singleton)
    (required : list string) :
  closed singletons s_singletons required →
  acyclic_from singletons s_singletons required →
  ∃ l, sortSingletons sort singletons required = Ok l ∧
       resolution_order singletons s_singletons required l.
Proof.
  intros Hclosed Hacyc. unfold sortSingletons.
  destruct (collect_ok singletons s_singletons Singletons required
              Hclosed Hacyc) as (all & -> & Hnd & Hall).
  rewrite bind_Ok.
  match goal with
  | |- context [forEach ?f all ?g0] =>
      destruct (graph_edges singletons s_singletons f all g0) as (g & -> & Hg)
  end.
  { intros name g Hname. destruct (Hclosed name) as [c Hc]; [by apply Hall |].
    exists c. unfold push_singleton_edges. by rewrite Hc. }
  rewrite bind_Ok.
  destruct (order_of_graph singletons s_singletons sort sort_contract
              "service-singleton" required all g Hall Hacyc Hg)
    as (l & -> & Hl).
  rewrite bind_Ok. by eexists.
Qed.

Lemma sortActions_order (actions : gmap string Action)
    (required : list string) (singletons : list Key) :
  closed actions a_actions required →
  acyclic_from actions a_actions required →
  singletons_included actions required singletons →
  ∃ l, sortActions sort actions required singletons = Ok l ∧
       resolution_order actions a_actions required l.
Proof.
  intros Hclosed Hacyc Hincl. unfold sortActions.
  destruct (collect_ok actions a_actions Actions required
              Hclosed Hacyc) as (all & -> & Hnd & Hall).
  rewrite bind_Ok.
  match goal with
  | |- context [forEach ?f all ?g0] =>
      destruct (graph_edges actions a_actions f all g0) as (g & -> & Hg)
  end.
  { intros name g Hname. destruct (Hclosed name) as [c Hc]; [by apply Hall |].
    exists c. unfold push_action_edges. rewrite Hc. split; [done |].
    assert (difference (a_singletons c) singletons = []) as ->; [| done].
    apply difference_nil. intros s Hs. eapply Hincl; [by apply Hall | done | done]. }
  rewrite bind_Ok.
  destruct (order_of_graph actions a_actions sort sort_contract
              "service-action" required all g Hall Hacyc Hg)
    as (l & -> & Hl).
  rewrite bind_Ok. by eexists.
Qed.

End sort_routines.

(** ** Resolution: the claims *)

Lemma resolution_order_no_symbol {C : Type} (registry : gmap string C)
    (requires : C → list string) (required : list string) (l : list Key) :
  resolution_order registry requires required l → ∀ d, KSym d ∉ l.
Proof. intros (_ & Hl & _) d (x & [=] & _)%Hl. Qed.

Lemma collect_Ok_reaches {C : Type} (registry : gmap string C)
    (requires : C → list string) (kind : component) (required all : list string) :
  collect registry requires kind required = Ok all →
  NoDup all ∧ ∀ x, x ∈ all ↔ reaches (requires_of registry requires) required x.
Proof.
  intros Hrun.
  destruct (collect_ok registry requires kind required) as (all' & Hrun' & Hall).
  - by eapply collect_Ok_closed.
  - by eapply collect_Ok_acyclic.
  - rewrite Hrun in Hrun'. by injection Hrun' as <-.
Qed.

(** A check of [singletons_included] that computes. *)
Lemma singletons_included_check (actions : gmap string Action)
    (required all : list string) (singletons : list Key) :
  collect actions a_actions Actions required = Ok all →
  forallb (λ x, match actions !! x with
                | Some a => bool_decide (difference (a_singletons a) singletons = [])
                | None => true
                end) all = true →
  singletons_included actions required singletons.
Proof.
  intros [_ Hall]%collect_Ok_reaches Hcheck x a Hx Ha.
  apply difference_nil. apply Hall, list_elem_of_In in Hx.
  rewrite forallb_forall in Hcheck. specialize (Hcheck x Hx).
  rewrite Ha in Hcheck. by apply bool_decide_eq_true in Hcheck.
Qed.

(** C1.  On a request whose dependency graph is acyclic (and names only
    registered components), [sortSingletons] and [sortActions] return a
    sequence of names that holds each reached name once, does not hold the
    synthetic root, and in which every name comes strictly after each of its
    transitive dependencies.  The sort is any function meeting
    [toposort_contract]. *)
Theorem resolution_places_dependencies_first
    (sort : list (Key * Key) → result (list Key))
    (singletons : gmap string Singleton) (actions : gmap string Action)
    (requiredSingletons requiredActions : list string) (resolved : list Key) :
  toposort_contract sort →
  closed singletons s_singletons requiredSingletons →
  acyclic_from singletons s_singletons requiredSingletons →
  closed actions a_actions requiredActions →
  acyclic_from actions a_actions requiredActions →
  singletons_included actions requiredActions resolved →
  (∃ l, sortSingletons sort singletons requiredSingletons = Ok l ∧
        resolution_order singletons s_singletons requiredSingletons l ∧
        ∀ d, KSym d ∉ l) ∧
  (∃ l, sortActions sort actions requiredActions resolved = Ok l ∧
        resolution_order actions a_actions requiredActions l ∧
        ∀ d, KSym d ∉ l).
Proof.
  intros Hsort Hcs Has Hca Haa Hincl. split.
  - destruct (sortSingletons_order sort Hsort singletons requiredSingletons Hcs Has)
      as (l & Hrun & Hl).
    exists l. split_and!; [done | done |]. by eapply resolution_order_no_symbol.
  - destruct (sortActions_order sort Hsort actions requiredActions resolved
                Hca Haa Hincl) as (l & Hrun & Hl).
    exists l. split_and!; [done | done |]. by eapply resolution_order_no_symbol.
Qed.

Lemma resolution_places_dependencies_first_witness :
  (∃ l, sortSingletons Toposort.toposort example_singletons ["s3"] = Ok l ∧
        resolution_order example_singletons s_singletons ["s3"] l ∧
        ∀ d, KSym d ∉ l) ∧
  (∃ l, sortActions Toposort.toposort example_actions ["doThat"]
          [KStr "s1"; KStr "s2"; KStr "s3"] = Ok l ∧
        resolution_order example_actions a_actions ["doThat"] l ∧
        ∀ d, KSym d ∉ l).
Proof.
  assert (collect example_singletons s_singletons Singletons ["s3"]
          = Ok ["s3"; "s1"; "s2"]) as Hs by (vm_compute; reflexivity).
  assert (collect example_actions a_actions Actions ["doThat"]
          = Ok ["doThat"; "doIt"]) as Ha by (vm_compute; reflexivity).
  apply (resolution_places_dependencies_first Toposort.toposort
           example_singletons example_actions ["s3"] ["doThat"]
           [KStr "s1"; KStr "s2"; KStr "s3"]).
  - exact ToposortFacts.toposort_meets_contract.
  - exact (collect_Ok_closed _ _ _ _ _ Hs).
  - exact (collect_Ok_acyclic _ _ _ _ _ Hs).
  - exact (collect_Ok_closed _ _ _ _ _ Ha).
  - exact (collect_Ok_acyclic _ _ _ _ _ Ha).
  - apply (singletons_included_check _ _ _ _ Ha). vm_compute. reflexivity.
Defined.

Example sortSingletons_example :
  sortSingletons Toposort.toposort example_singletons ["s3"]
  = Ok [KStr "s1"; KStr "s2"; KStr "s3"].
Proof. vm_compute. reflexivity. Qed.

Example sortActions_example :
  sortActions Toposort.toposort example_actions ["doThat"]
    [KStr "s1"; KStr "s2"; KStr "s3"]
  = Ok [KStr "doIt"; KStr "doThat"].
Proof. vm_compute. reflexivity. Qed.

(** A request that reaches a cycle, and only registered names, is refused by
    both sort routines with the circular-dependency error, whatever the sort:
    the sort is not run. *)
Lemma sortSingletons_cyclic (singletons : gmap string Singleton)
    (required : list string) :
  closed singletons s_singletons required →
  ¬ acyclic_from singletons s_singletons required →
  ∃ e, circular_error singletons s_singletons Singletons e ∧
       ∀ sort, sortSingletons sort singletons required = Throw e.
Proof.
  intros Hclosed Hcyc.
  destruct (collect_cyclic singletons s_singletons Singletons required
              Hclosed Hcyc) as (e & Hrun & He).
  exists e. split; [done |]. intros sort. unfold sortSingletons. by rewrite Hrun.
Qed.

Lemma sortActions_cyclic (actions : gmap string Action)
    (required : list string) (singletons : list Key) :
  closed actions a_actions required →
  ¬ acyclic_from actions a_actions required →
  ∃ e, circular_error actions a_actions Actions e ∧
       ∀ sort, sortActions sort actions required singletons = Throw e.
Proof.
  intros Hclosed Hcyc.
  destruct (collect_cyclic actions a_actions Actions required
              Hclosed Hcyc) as (e & Hrun & He).
  exists e. split; [done |]. intros sort. unfold sortActions. by rewrite Hrun.
Qed.

(** C2.  On the cycle [A -> B -> C -> A], requested from [A],
    [sortSingletons] fails before the sort runs (the outcome is the same for
    every [sort]), and the message of the error is
    [A -> B -> C -> A -> B]: the cycle chain followed by one more hop, because
    the test [dependedBy.includes(name)] fires one call after the chain has
    closed. *)
Theorem circular_message_cycle_of_three
    (sort : list (Key * Key) → result (list Key)) :
  sortSingletons sort cyclic_singletons ["A"]
  = Throw (Error "Found singletons circular dependency: A -> B -> C -> A -> B").
Proof. reflexivity. Qed.

(** The constructor accepts the cyclic registry, and the start of the
    service that requires [A] ends on that error with no routine called. *)
Example circular_message_from_startService :
  Broker_new cyclic_config = Ok cyclic_broker ∧
  (startService Toposort.toposort "svc" cyclic_broker).1
  = Throw (Error "Found singletons circular dependency: A -> B -> C -> A -> B") ∧
  trace (startService Toposort.toposort "svc" cyclic_broker).2 = [].
Proof. vm_compute. done. Qed.

Example circular_message_cycle_of_two
    (sort : list (Key * Key) → result (list Key)) :
  sortActions sort cyclic_actions ["a"] []
  = Throw (Error "Found actions circular dependency: a -> b -> a -> b").
Proof. reflexivity. Qed.

Example circular_message_self_loop
    (sort : list (Key * Key) → result (list Key)) :
  sortActions sort cyclic_actions ["loop"] []
  = Throw (Error "Found actions circular dependency: loop -> loop -> loop").
Proof. reflexivity. Qed.

(** The second loop of [sortActions] throws at the first action with a
    singleton that is not included, whatever the graph so far. *)
Lemma push_action_edges_first (actions : gmap string Action)
    (singletons : list Key) (all : list string) :
  (∀ x, x ∈ all → is_Some (actions !! x)) →
  (∃ x a, x ∈ all ∧ actions !! x = Some a ∧
          difference (a_singletons a) singletons ≠ []) →
  ∃ x a, x ∈ all ∧ actions !! x = Some a ∧
         difference (a_singletons a) singletons ≠ [] ∧
         ∀ g, forEach (push_action_edges actions singletons) all g
              = Throw (Error (not_included_message x
                                (difference (a_singletons a) singletons))).
Proof.
  induction all as [| y all IH]; intros Hknown (x & a & Hx & Ha & Hdiff).
  - by apply elem_of_nil in Hx.
  - destruct (Hknown y) as [c Hc]; [by left |].
    destruct (difference (a_singletons c) singletons) as [| d ds] eqn:Hd.
    + destruct IH as (x' & a' & Hx' & Ha' & Hdiff' & Hrun).
      * intros z Hz. apply Hknown. by right.
      * apply elem_of_cons in Hx as [-> | Hx]; [congruence |]. by exists x, a.
      * exists x', a'. split_and!; [by right | done | done |].
        intros g. simpl. unfold push_action_edges at 1. rewrite Hc, Hd. simpl.
        apply Hrun.
    + exists y, c. split_and!; [by left | done | by rewrite Hd |].
      intros g. simpl. unfold push_action_edges at 1. by rewrite Hc, Hd.
Qed.

Lemma elem_of_difference_list (a : list string) (b : list Key) (s : string) :
  s ∈ difference a b ↔ s ∈ a ∧ KStr s ∉ b.
Proof. unfold difference. rewrite list_elem_of_filter. tauto. Qed.

(** C7.  Once the actions a request reaches are collected ([all] is that
    transitive closure), the second loop of [sortActions] checks each of
    them: if one requires a singleton that is not among those resolved for
    the service, [sortActions] throws, before sorting (whatever the sort),
    the error naming that action and exactly its missing singletons;
    otherwise the graph is handed to the sort. *)
Theorem sortActions_checks_included_singletons
    (sort : list (Key * Key) → result (list Key))
    (actions : gmap string Action) (required all : list string)
    (singletons : list Key) :
  collect actions a_actions Actions required = Ok all →
  (∀ x, x ∈ all ↔ reaches (requires_of actions a_actions) required x) ∧
  ((∃ x a, x ∈ all ∧ actions !! x = Some a ∧
           ¬ ∀ s, s ∈ a_singletons a → KStr s ∈ singletons) →
   ∃ x a, x ∈ all ∧ actions !! x = Some a ∧
          difference (a_singletons a) singletons ≠ [] ∧
          (∀ s, s ∈ difference (a_singletons a) singletons
                ↔ s ∈ a_singletons a ∧ KStr s ∉ singletons) ∧
          ∀ sort', sortActions sort' actions required singletons
                   = Throw (Error (not_included_message x
                                     (difference (a_singletons a) singletons)))) ∧
  (singletons_included actions required singletons →
   ∃ g, sortActions sort actions required singletons
        = (sorted ← sort g; Ok (slice_0_m1 (reverse sorted)))).
Proof.
  intros Hrun. destruct (collect_Ok_reaches _ _ _ _ _ Hrun) as [Hnd Hall].
  pose proof (collect_Ok_closed _ _ _ _ _ Hrun) as Hclosed.
  split_and!; [done | |].
  - intros (x & a & Hx & Ha & Hmissing).
    destruct (push_action_edges_first actions singletons all)
      as (x' & a' & Hx' & Ha' & Hdiff & Hthrow).
    { intros z Hz. by apply Hclosed, Hall. }
    { exists x, a. split_and!; [done | done |].
      intros Hnil. apply Hmissing. by apply difference_nil. }
    exists x', a'. split_and!; [done | done | done | |].
    + intros s. apply elem_of_difference_list.
    + intros sort'. unfold sortActions. by rewrite Hrun, bind_Ok, Hthrow.
  - intros Hincl. unfold sortActions. rewrite Hrun, bind_Ok.
    match goal with
    | |- context [forEach ?f all ?g0] =>
        destruct (graph_edges actions a_actions f all g0) as (g & -> & Hg)
    end.
    { intros name g Hname. destruct (Hclosed name) as [c Hc]; [by apply Hall |].
      exists c. unfold push_action_edges. rewrite Hc. split; [done |].
      assert (difference (a_singletons c) singletons = []) as ->; [| done].
      apply difference_nil. intros s Hs. eapply Hincl; [by apply Hall | done | done]. }
    rewrite bind_Ok. by exists g.
Qed.

Lemma sortActions_checks_included_singletons_witness :
  ∃ x a, x ∈ ["doThat"; "doIt"] ∧ example_actions !! x = Some a ∧
         difference (a_singletons a) [KStr "s1"] ≠ [] ∧
         (∀ s, s ∈ difference (a_singletons a) [KStr "s1"]
               ↔ s ∈ a_singletons a ∧ KStr s ∉ [KStr "s1"]) ∧
         ∀ sort', sortActions sort' example_actions ["doThat"] [KStr "s1"]
                  = Throw (Error (not_included_message x
                                    (difference (a_singletons a) [KStr "s1"]))).
Proof.
  apply (sortActions_checks_included_singletons Toposort.toposort
           example_actions ["doThat"] ["doThat"; "doIt"] [KStr "s1"]).
  - vm_compute. reflexivity.
  - exists "doThat", (action_of ["doIt"] ["s2"] (VFunction 2)).
    split_and!; [by left | reflexivity |].
    intros Hall. specialize (Hall "s2" ltac:(by left)).
    apply list_elem_of_singleton in Hall. discriminate Hall.
Defined.

Example sortActions_not_included_example
    (sort : list (Key * Key) → result (list Key)) :
  sortActions sort example_actions ["doThat"] [KStr "s1"]
  = Throw (Error ("Action " +:+ quoted "doThat" +:+
                  " requires not included singleton(s): " +:+ quoted "s2" +:+
                  ". Please add them to service definition")).
Proof. reflexivity. Qed.

(** ** Running the methods *)

Lemma run_bind {A B : Type} (m : M A) (k : A → M B) (b : Broker) :
  (m ≫= k) b = match m b with
               | (Ok a, b') => k a b'
               | (Throw e, b') => (Throw e, b')
               end.
Proof. done. Qed.

Lemma run_forM_app {A S : Type} (f : A → S → M S) (l1 l2 : list A) (s : S)
    (b : Broker) :
  forM f (l1 ++ l2) s b = match forM f l1 s b with
                          | (Ok s', b') => forM f l2 s' b'
                          | (Throw e, b') => (Throw e, b')
                          end.
Proof.
  revert s b. induction l1 as [| x l1 IH]; intros s b; simpl; [done |].
  rewrite !run_bind. destruct (f x s b) as [[s' | e] b']; [apply IH | done].
Qed.

(** *** [startActions] and the value a compose routine returns *)

(** The turn of [startActions] for an action that is not composed yet and
    whose compose routine returns [v]. *)
Lemma startActions_body_compose (name : string) (result bagA bagS : obj)
    (b : Broker) (action : Action) (v : value) :
  actions b !! name = Some action →
  truthy (initializedFn action) = false →
  bag_of (actions b) initializedFn "initializedFn" (a_actions action) = Ok bagA →
  bag_of (singletons b) instance "instance" (a_singletons action) = Ok bagS →
  a_fn action (trace b ++ [ActionCompose name]) bagA bagS = Ok v →
  startActions_body (KStr name) result b
  = (if isFunction v then Ok (lodash_set result (realName name) v)
     else Throw (Error (not_function_message name)),
     with_actions (alter (set_initializedFn v) name)
       (with_trace (λ t, t ++ [ActionCompose name]) b)).
Proof.
  intros Ha Hfalsy HbagA HbagS Hfn. unfold startActions_body.
  rewrite run_bind. simpl. rewrite Ha, Hfalsy. simpl.
  rewrite !run_bind. unfold liftR at 1. rewrite HbagA.
  rewrite !run_bind. unfold liftR at 1. rewrite HbagS.
  rewrite !run_bind. simpl. rewrite !run_bind. simpl.
  unfold liftR at 1. rewrite Hfn. rewrite !run_bind. simpl.
  by destruct (isFunction v).
Qed.

(** The turn of [startActions] for an action whose cache holds a truthy
    value: nothing is called, nothing is checked. *)
Lemma startActions_body_cached (name : string) (result : obj) (b : Broker)
    (action : Action) :
  actions b !! name = Some action →
  truthy (initializedFn action) = true →
  startActions_body (KStr name) result b
  = (Ok (lodash_set result (realName name) (initializedFn action)), b).
Proof.
  intros Ha Htruthy. unfold startActions_body.
  rewrite run_bind. simpl. by rewrite Ha, Htruthy.
Qed.

(** C8.  When [startActions] reaches an action that is not composed yet,
    invokes its compose routine and gets a value that is not a function, it
    throws the error whose message is
    [Action "<name>" did not return function]. *)
Theorem startActions_throws_when_not_function
    (before_it after_it : list Key) (name : string) (b b1 : Broker)
    (result1 bagA bagS : obj) (action : Action) (v : value) :
  forM startActions_body before_it ∅ b = (Ok result1, b1) →
  actions b1 !! name = Some action →
  truthy (initializedFn action) = false →
  bag_of (actions b1) initializedFn "initializedFn" (a_actions action) = Ok bagA →
  bag_of (singletons b1) instance "instance" (a_singletons action) = Ok bagS →
  a_fn action (trace b1 ++ [ActionCompose name]) bagA bagS = Ok v →
  isFunction v = false →
  (startActions (before_it ++ KStr name :: after_it) b).1
  = Throw (Error ("Action " +:+ quoted name +:+ " did not return function")).
Proof.
  intros Hbefore Ha Hfalsy HbagA HbagS Hfn Hnot. unfold startActions.
  rewrite run_forM_app, Hbefore. simpl. rewrite run_bind.
  rewrite (startActions_body_compose name result1 bagA bagS b1 action v);
    [| done..].
  by rewrite Hnot.
Qed.

Lemma startActions_throws_when_not_function_witness :
  (startActions ([] ++ [KStr "bad"]) (broker_of ∅ bad_actions ∅)).1
  = Throw (Error ("Action " +:+ quoted "bad" +:+ " did not return function")).
Proof.
  apply (startActions_throws_when_not_function [] [] "bad"
           (broker_of ∅ bad_actions ∅) (broker_of ∅ bad_actions ∅)
           ∅ ∅ ∅ (action_of [] [] (VNum 5)) (VNum 5)); reflexivity.
Defined.

(** C10.  When the compose routine of an action that is not composed yet
    returns a truthy value [v] that is not a function, [startActions] stores
    [v] in [initializedFn] and then throws; from then on the turn of
    [startActions] for that action calls nothing, checks nothing and puts [v]
    in the result, so that starting that action again returns [v] without an
    error. *)
Theorem startActions_caches_non_function (name : string) (b : Broker)
    (bagA bagS : obj) (action : Action) (v : value) :
  actions b !! name = Some action →
  truthy (initializedFn action) = false →
  bag_of (actions b) initializedFn "initializedFn" (a_actions action) = Ok bagA →
  bag_of (singletons b) instance "instance" (a_singletons action) = Ok bagS →
  a_fn action (trace b ++ [ActionCompose name]) bagA bagS = Ok v →
  truthy v = true →
  isFunction v = false →
  ∃ b1, startActions [KStr name] b
        = (Throw (Error (not_function_message name)), b1) ∧
        initializedFn <$> actions b1 !! name = Some v ∧
        (∀ result, startActions_body (KStr name) result b1
                   = (Ok (lodash_set result (realName name) v), b1)) ∧
        startActions [KStr name] b1 = (Ok (lodash_set ∅ (realName name) v), b1).
Proof.
  intros Ha Hfalsy HbagA HbagS Hfn Htruthy Hnot.
  set (b1 := with_actions (alter (set_initializedFn v) name)
               (with_trace (λ t, t ++ [ActionCompose name]) b)).
  assert (actions b1 !! name = Some (set_initializedFn v action)) as Ha1.
  { subst b1. simpl. by rewrite lookup_alter_eq, Ha. }
  assert (∀ result, startActions_body (KStr name) result b1
                    = (Ok (lodash_set result (realName name) v), b1)) as Hcached.
  { intros result.
    by rewrite (startActions_body_cached name result b1 _ Ha1). }
  exists b1. split_and!.
  - unfold startActions. simpl. rewrite run_bind.
    rewrite (startActions_body_compose name ∅ bagA bagS b action v); [| done..].
    by rewrite Hnot.
  - by rewrite Ha1.
  - done.
  - unfold startActions. simpl. rewrite run_bind. by rewrite Hcached.
Qed.

Lemma startActions_caches_non_function_witness :
  ∃ b1, startActions [KStr "bad"] (broker_of ∅ bad_actions ∅)
        = (Throw (Error (not_function_message "bad")), b1) ∧
        initializedFn <$> actions b1 !! "bad" = Some (VNum 5) ∧
        (∀ result, startActions_body (KStr "bad") result b1
                   = (Ok (lodash_set result (realName "bad") (VNum 5)), b1)) ∧
        startActions [KStr "bad"] b1
        = (Ok (lodash_set ∅ (realName "bad") (VNum 5)), b1).
Proof.
  apply (startActions_caches_non_function "bad" (broker_of ∅ bad_actions ∅)
           ∅ ∅ (action_of [] [] (VNum 5)) (VNum 5)); reflexivity.
Defined.

(** *** [stopService] *)

Lemma getServiceByName_run (name : string) (b : Broker) (srv : Service) :
  services b !! name = Some srv → getServiceByName name b = (Ok srv, b).
Proof. intros H. unfold getServiceByName. rewrite run_bind. simpl. by rewrite H. Qed.

Lemma getServiceByName_missing (name : string) (b : Broker) :
  services b !! name = None →
  getServiceByName name b = (Throw (Error (not_found_message name)), b).
Proof. intros H. unfold getServiceByName. rewrite run_bind. simpl. by rewrite H. Qed.

Lemma isServiceRunning_run (name : string) (b : Broker) (srv : Service) :
  services b !! name = Some srv →
  isServiceRunning name b = (Ok (isRunning srv), b).
Proof.
  intros H. unfold isServiceRunning.
  by rewrite run_bind, (getServiceByName_run name b srv H).
Qed.

Lemma getRunningServices_run (b : Broker) :
  getRunningServices b = (Ok (running_names (services b)), b).
Proof.
  unfold getRunningServices, running_names. rewrite run_bind. simpl.
  assert (∀ l res,
            (∀ n, n ∈ l → is_Some (services b !! n)) →
            forM (λ (name : string) (res : list string),
                    running ← isServiceRunning name;
                    mret (if running : bool then res ++ [name] else res)) l res b
            = (Ok (res ++ filter (λ n, default false (isRunning <$> services b !! n) = true) l), b))
    as Hloop.
  { induction l as [| n l IH]; intros res Hl; simpl.
    - by rewrite app_nil_r.
    - destruct (Hl n) as [srv Hsrv]; [by left |].
      rewrite !run_bind, (isServiceRunning_run n b srv Hsrv). simpl.
      rewrite IH; [| intros m Hm; apply Hl; by right].
      rewrite filter_cons, Hsrv. simpl.
      destruct (isRunning srv); simpl; [| done].
      by rewrite <- (assoc_L (++)). }
  apply Hloop. intros n ((n' & srv) & -> & Hin)%list_elem_of_fmap.
  apply elem_of_map_to_list in Hin. by exists srv.
Qed.

Lemma elem_of_running_names (services : gmap string Service) (n : string) :
  n ∈ running_names services ↔
  ∃ srv, services !! n = Some srv ∧ isRunning srv = true.
Proof.
  unfold running_names. rewrite list_elem_of_filter, list_elem_of_fmap. split.
  - intros (Hrun & (n' & srv) & -> & Hin). apply elem_of_map_to_list in Hin.
    simpl in *. exists srv. rewrite Hin in Hrun. by split.
  - intros (srv & Hsrv & Hrun). rewrite Hsrv. split; [done |].
    exists (n, srv). split; [done |]. by apply elem_of_map_to_list.
Qed.

Lemma startedSingletons_of_run (b : Broker) (l : list string) :
  (∀ s, s ∈ l → is_Some (services b !! s)) →
  startedSingletons_of l b
  = (Ok (foldl (λ res s,
                  match services b !! s with
                  | Some srv => foldl (λ res singleton, Set_add singleton res) res
                                  (dep_singletons srv)
                  | None => res
                  end) [] l), b).
Proof.
  unfold startedSingletons_of. generalize (@nil Key).
  induction l as [| s l IH]; intros acc Hl; simpl; [done |].
  destruct (Hl s) as [srv Hsrv]; [by left |].
  rewrite !run_bind, (getServiceByName_run s b srv Hsrv). simpl.
  rewrite IH; [| intros m Hm; apply Hl; by right]. by rewrite Hsrv.
Qed.

Lemma elem_of_foldl_Set_add {A : Type} `{EqDecision A} (x : A) (acc l : list A) :
  x ∈ foldl (λ res y, Set_add y res) acc l ↔ x ∈ acc ∨ x ∈ l.
Proof.
  revert acc. induction l as [| y l IH]; intros acc; simpl.
  - rewrite elem_of_nil. tauto.
  - rewrite IH, elem_of_Set_add, elem_of_cons. tauto.
Qed.

Lemma elem_of_others_singletons (services : gmap string Service)
    (name : string) (k : Key) :
  k ∈ others_singletons services name ↔ shared_with_running services name k.
Proof.
  unfold others_singletons, shared_with_running.
  assert (∀ l acc,
            k ∈ foldl (λ res s,
                         match services !! s with
                         | Some srv => foldl (λ res singleton, Set_add singleton res)
                                         res (dep_singletons srv)
                         | None => res
                         end) acc l
            ↔ k ∈ acc ∨ ∃ s srv, s ∈ l ∧ services !! s = Some srv ∧
                                 k ∈ dep_singletons srv) as Hfold.
  { induction l as [| s l IH]; intros acc; simpl.
    - split; [by left |]. intros [? | (s & srv & Hs & _)]; [done |].
      by apply elem_of_nil in Hs.
    - rewrite IH. destruct (services !! s) as [srv |] eqn:Hsrv.
      + rewrite elem_of_foldl_Set_add. split.
        * intros [[? | ?] | (s' & srv' & Hs' & Hsrv' & Hk)]; [by left | |].
          -- right. exists s, srv. split_and!; [by left | done | done].
          -- right. exists s', srv'. split_and!; [by right | done | done].
        * intros [? | (s' & srv' & [-> | Hs']%elem_of_cons & Hsrv' & Hk)];
            [by left; left | |].
          -- rewrite Hsrv in Hsrv'. injection Hsrv' as <-. by left; right.
          -- right. by exists s', srv'.
      + split.
        * intros [? | (s' & srv' & Hs' & Hsrv' & Hk)]; [by left |].
          right. exists s', srv'. split_and!; [by right | done | done].
        * intros [? | (s' & srv' & [-> | Hs']%elem_of_cons & Hsrv' & Hk)];
            [by left | congruence |].
          right. by exists s', srv'. }
  rewrite Hfold, elem_of_nil. split.
  - intros [[] | (s & srv & Hs & Hsrv & Hk)].
    apply list_elem_of_filter in Hs as [Hne Hs].
    apply elem_of_running_names in Hs as (srv' & Hsrv' & Hrun).
    rewrite Hsrv in Hsrv'. injection Hsrv' as <-. by exists s, srv.
  - intros (s & srv & Hne & Hsrv & Hrun & Hk). right. exists s, srv.
    split_and!; [| done | done]. apply list_elem_of_filter. split; [done |].
    apply elem_of_running_names. by exists srv.
Qed.

Lemma elem_of_singletonsToStop (services : gmap string Service)
    (name : string) (service : Service) (k : Key) :
  k ∈ singletonsToStop services name service ↔
  k ∈ dep_singletons service ∧ ¬ shared_with_running services name k.
Proof.
  unfold singletonsToStop. rewrite list_elem_of_filter.
  rewrite <- elem_of_others_singletons.
  destruct (includes (others_singletons services name) k) eqn:Hin; simpl.
  - apply includes_true in Hin. tauto.
  - apply includes_false in Hin. tauto.
Qed.

Lemma lookup_stop_all (names : list string) (m : gmap string Singleton)
    (n : string) :
  stop_all names m !! n
  = (if decide (n ∈ names) then set_started false <$> m !! n else m !! n).
Proof.
  unfold stop_all. revert m. induction names as [| x names IH]; intros m; simpl.
  - done.
  - rewrite IH. destruct (decide (x = n)) as [-> | Hne].
    + rewrite lookup_alter_eq. rewrite (decide_True (P := n ∈ n :: names)); [| by left].
      destruct (decide (n ∈ names)); [| done].
      by destruct (m !! n).
    + rewrite lookup_alter_ne; [| done].
      destruct (decide (n ∈ names)) as [Hin | Hin].
      * rewrite decide_True; [done | by right].
      * rewrite decide_False; [done |]. intros [-> | ?]%elem_of_cons; done.
Qed.

(** The loop of [stopService] when no stop routine throws: the routines are
    called in the order of the list and every flag is cleared. *)
Lemma stop_loop_run (names : list string) (b : Broker) :
  (∀ n, n ∈ names →
        ∃ s, singletons b !! n = Some s ∧ ∀ tr, s_stop s tr = Ok ()) →
  forM stopService_body (KStr <$> names) () b
  = (Ok (), with_singletons (stop_all names)
              (with_trace (λ t, t ++ (SingletonStop <$> names)) b)).
Proof.
  revert b. induction names as [| n names IH]; intros b Hnames; simpl.
  - destruct b. unfold ret, with_singletons, with_trace, stop_all. simpl.
    by rewrite app_nil_r.
  - destruct (Hnames n) as (s & Hs & Hstop); [by left |].
    rewrite run_bind. unfold stopService_body at 1.
    rewrite run_bind. simpl. rewrite Hs. rewrite !run_bind. simpl.
    rewrite !run_bind. simpl. unfold liftR at 1. rewrite Hstop.
    rewrite !run_bind. simpl. rewrite IH.
    + unfold with_singletons, with_trace, stop_all. simpl.
      by rewrite <- (assoc_L (++)).
    + intros m Hm. simpl. destruct (Hnames m) as (s' & Hs' & Hstop'); [by right |].
      destruct (decide (n = m)) as [-> | Hne].
      * rewrite lookup_alter_eq, Hs'. by eexists.
      * rewrite lookup_alter_ne; [| done]. by eexists.
Qed.

(** [stopService] on a running service when neither its stop handler nor a
    stop routine throws. *)
Lemma stopService_run (name : string) (b : Broker) (service : Service)
    (names : list string) :
  services b !! name = Some service →
  isRunning service = true →
  (∀ h tr, stopHandler service = Some h → h tr = Ok ()) →
  singletonsToStop (services b) name service = KStr <$> names →
  (∀ n, n ∈ names →
        ∃ s, singletons b !! n = Some s ∧ ∀ tr, s_stop s tr = Ok ()) →
  stopService name b
  = (Ok (),
     with_services (alter (set_isRunning false) name)
       (with_singletons (stop_all names)
          (with_trace (λ t, t ++ stopHandler_events name service
                              ++ (SingletonStop <$> names)) b))).
Proof.
  intros Hsrv Hrunning Hhandler Htostop Hnames. unfold stopService.
  rewrite run_bind, (isServiceRunning_run name b service Hsrv), Hrunning. simpl.
  rewrite run_bind, (getServiceByName_run name b service Hsrv).
  rewrite run_bind.
  set (b0 := with_trace (λ t, t ++ stopHandler_events name service) b).
  assert ((match stopHandler service with
           | Some handler =>
               emit (ServiceStop name);; b1 ← get; liftR (handler (trace b1))
           | None => mret ()
           end) b = (Ok (), b0)) as ->.
  { subst b0. unfold stopHandler_events.
    destruct (stopHandler service) as [h |] eqn:Hh.
    - rewrite !run_bind. simpl. rewrite !run_bind. simpl. unfold liftR.
      by rewrite (Hhandler h _ eq_refl).
    - destruct b. unfold mret, M_ret, ret, with_trace. simpl. by rewrite app_nil_r. }
  rewrite run_bind, getRunningServices_run.
  rewrite run_bind, startedSingletons_of_run.
  2:{ intros s [_ (srv & Hs & _)%elem_of_running_names]%list_elem_of_filter.
      by exists srv. }
  change (services b0) with (services b).
  fold (others_singletons (services b) name).
  fold (singletonsToStop (services b) name service).
  rewrite Htostop, run_bind, stop_loop_run; [| done].
  simpl. unfold with_services, with_singletons, with_trace. simpl.
  by rewrite <- (assoc_L (++)).
Qed.

Lemma keys_are_names (l : list Key) :
  (∀ k, k ∈ l → ∃ n, k = KStr n) → ∃ names, l = KStr <$> names.
Proof.
  induction l as [| k l IH]; intros Hl.
  - by exists [].
  - destruct (Hl k) as (n & ->); [by left |].
    destruct IH as (names & ->); [intros k Hk; apply Hl; by right |].
    by exists (n :: names).
Qed.

Lemma elem_of_KStr_fmap (n : string) (names : list string) :
  KStr n ∈ KStr <$> names ↔ n ∈ names.
Proof.
  rewrite list_elem_of_fmap. split; [by intros (m & [= ->] & ?) | by exists n].
Qed.

(** C3.  When [stopService] runs on a running service and neither the stop
    handler nor a stop routine throws, the stop routine of a singleton is
    called, and its [started] flag cleared, exactly for the singletons of the
    service's cached resolved list that no other running service has in its
    own cached list; the registry entry of every other singleton is left as
    it was. *)
Theorem stopService_stops_unshared_singletons (name : string) (b : Broker)
    (service : Service) :
  services b !! name = Some service →
  isRunning service = true →
  (∀ h tr, stopHandler service = Some h → h tr = Ok ()) →
  (∀ k, k ∈ dep_singletons service →
        ¬ shared_with_running (services b) name k →
        ∃ n s, k = KStr n ∧ singletons b !! n = Some s ∧
               ∀ tr, s_stop s tr = Ok ()) →
  ∃ b' evs,
    stopService name b = (Ok (), b') ∧
    trace b' = trace b ++ evs ∧
    (∀ n, SingletonStop n ∈ evs ↔
          KStr n ∈ dep_singletons service ∧
          ¬ shared_with_running (services b) name (KStr n)) ∧
    (∀ n, KStr n ∈ dep_singletons service →
          ¬ shared_with_running (services b) name (KStr n) →
          started <$> singletons b' !! n = Some false) ∧
    (∀ n, ¬ (KStr n ∈ dep_singletons service ∧
             ¬ shared_with_running (services b) name (KStr n)) →
          singletons b' !! n = singletons b !! n) ∧
    isRunning <$> services b' !! name = Some false.
Proof.
  intros Hsrv Hrunning Hhandler Hstops.
  destruct (keys_are_names (singletonsToStop (services b) name service))
    as (names & Hnames).
  { intros k [Hk Hshared]%elem_of_singletonsToStop.
    destruct (Hstops k Hk Hshared) as (n & _ & -> & _). by exists n. }
  assert (∀ n, n ∈ names ↔ KStr n ∈ dep_singletons service ∧
                           ¬ shared_with_running (services b) name (KStr n))
    as Hin.
  { intros n. by rewrite <- elem_of_singletonsToStop, Hnames, elem_of_KStr_fmap. }
  assert (∀ n, n ∈ names →
               ∃ s, singletons b !! n = Some s ∧ ∀ tr, s_stop s tr = Ok ())
    as Hknown.
  { intros n [Hn Hshared]%Hin.
    destruct (Hstops _ Hn Hshared) as (n' & s & [= <-] & Hs & Hstop). by exists s. }
  eexists _, (stopHandler_events name service ++ (SingletonStop <$> names)).
  split_and!.
  - by apply stopService_run.
  - done.
  - intros n. rewrite <- Hin, elem_of_app, list_elem_of_fmap. split.
    + intros [Hev | (m & [= ->] & Hm)]; [| done].
      unfold stopHandler_events in Hev. destruct (stopHandler service).
      * by apply list_elem_of_singleton in Hev.
      * by apply elem_of_nil in Hev.
    + intros Hn. right. by exists n.
  - intros n Hn Hshared. simpl. rewrite lookup_stop_all.
    rewrite decide_True; [| by apply Hin].
    destruct (Hknown n) as (s & -> & _); [by apply Hin | done].
  - intros n Hn. simpl. rewrite lookup_stop_all.
    rewrite decide_False; [done |]. by rewrite Hin.
  - simpl. by rewrite lookup_alter_eq, Hsrv.
Qed.

(** Services [A] and [B] are running and share [s1]: stopping [A] leaves
    [s1] as it is. *)
Lemma stopService_stops_unshared_singletons_witness :
  ∃ b' evs,
    stopService "A" running_broker = (Ok (), b') ∧
    trace b' = trace running_broker ++ evs ∧
    (∀ n, SingletonStop n ∈ evs ↔
          KStr n ∈ [KStr "s1"] ∧
          ¬ shared_with_running (services running_broker) "A" (KStr n)) ∧
    (∀ n, KStr n ∈ [KStr "s1"] →
          ¬ shared_with_running (services running_broker) "A" (KStr n) →
          started <$> singletons b' !! n = Some false) ∧
    (∀ n, ¬ (KStr n ∈ [KStr "s1"] ∧
             ¬ shared_with_running (services running_broker) "A" (KStr n)) →
          singletons b' !! n = singletons running_broker !! n) ∧
    isRunning <$> services b' !! "A" = Some false.
Proof.
  apply (stopService_stops_unshared_singletons "A" running_broker
           (service_of ["s1"] [] true [KStr "s1"])).
  - vm_compute. reflexivity.
  - reflexivity.
  - intros h tr Hh. discriminate Hh.
  - intros k Hk _. apply list_elem_of_singleton in Hk as ->.
    exists "s1", (set_instance (VNum 1) (set_started true (singleton_of [] (VNum 1)))).
    split_and!; [reflexivity | vm_compute; reflexivity | reflexivity].
Defined.

(** Stopping [A] while [B] runs leaves [s1] started; stopping both leaves it
    stopped. *)
Example stop_one_then_both :
  started <$> singletons running_broker !! "s1" = Some true ∧
  started <$> singletons (stopService "A" running_broker).2 !! "s1" = Some true ∧
  started <$> singletons (stopService "B" (stopService "A" running_broker).2).2 !! "s1"
  = Some false.
Proof. vm_compute. done. Qed.

Lemma NoDup_reverse_ne {A : Type} (l : list A) :
  NoDup l → 1 < length l → l ≠ reverse l.
Proof.
  destruct l as [| x [| y l]]; simpl; [lia | lia |].
  intros [Hx _]%NoDup_cons _ Heq.
  assert (last (x :: y :: l) = Some x) as Hlast.
  { rewrite Heq. rewrite reverse_cons. apply last_snoc. }
  rewrite last_cons_cons in Hlast. by apply last_Some_elem_of in Hlast.
Qed.

(** C9.  When [stopService] runs on a running service and nothing throws,
    the stop routines are called in the order in which the singletons to stop
    stand in the service's cached resolved list, the order in which they
    were started: dependencies before their dependents.  With two or more
    singletons to stop, that order is not the reverse of the start order. *)
Theorem stopService_stops_in_start_order (name : string) (b : Broker)
    (service : Service) (names : list string) :
  services b !! name = Some service →
  isRunning service = true →
  (∀ h tr, stopHandler service = Some h → h tr = Ok ()) →
  singletonsToStop (services b) name service = KStr <$> names →
  (∀ n, n ∈ names →
        ∃ s, singletons b !! n = Some s ∧ ∀ tr, s_stop s tr = Ok ()) →
  NoDup (dep_singletons service) →
  ∃ b', stopService name b = (Ok (), b') ∧
        trace b' = trace b ++ stopHandler_events name service
                           ++ (SingletonStop <$> names) ∧
        KStr <$> names `sublist_of` dep_singletons service ∧
        (1 < length names →
         SingletonStop <$> names ≠ reverse (SingletonStop <$> names)).
Proof.
  intros Hsrv Hrunning Hhandler Htostop Hnames Hnd.
  eexists. split_and!.
  - by apply stopService_run.
  - done.
  - rewrite <- Htostop. apply sublist_filter.
  - intros Hlen. apply NoDup_reverse_ne; [| by rewrite length_fmap].
    apply NoDup_fmap_2; [apply _ |].
    apply (NoDup_fmap_1 KStr). rewrite <- Htostop. by apply NoDup_filter.
Qed.

(** Service [B] runs alone with the resolved list [s1, s2] ([s2] requires
    [s1]): [s1] is stopped before [s2]. *)
Lemma stopService_stops_in_start_order_witness :
  ∃ b', stopService "B" (stopService "A" running_broker).2 = (Ok (), b') ∧
        trace b' = trace (stopService "A" running_broker).2
                   ++ stopHandler_events "B" (service_of ["s1"; "s2"] [] true
                                               [KStr "s1"; KStr "s2"])
                   ++ (SingletonStop <$> ["s1"; "s2"]) ∧
        KStr <$> ["s1"; "s2"] `sublist_of` [KStr "s1"; KStr "s2"] ∧
        (1 < length ["s1"; "s2"] →
         SingletonStop <$> ["s1"; "s2"] ≠ reverse (SingletonStop <$> ["s1"; "s2"])).
Proof.
  apply (stopService_stops_in_start_order "B" (stopService "A" running_broker).2
           (service_of ["s1"; "s2"] [] true [KStr "s1"; KStr "s2"])
           ["s1"; "s2"]).
  - vm_compute. reflexivity.
  - reflexivity.
  - intros h tr Hh. discriminate Hh.
  - vm_compute. reflexivity.
  - intros n [-> | [-> | []%elem_of_nil]%elem_of_cons]%elem_of_cons.
    + exists (set_instance (VNum 1) (set_started true (singleton_of [] (VNum 1)))).
      split; [vm_compute; reflexivity | reflexivity].
    + exists (set_instance (VNum 2) (set_started true (singleton_of ["s1"] (VNum 2)))).
      split; [vm_compute; reflexivity | reflexivity].
  - vm_compute. apply NoDup_cons. split; [| apply NoDup_singleton].
    intros [=]%list_elem_of_singleton.
Defined.

(** The calls made by starting [B], which requires [s1] and [s2] ([s2]
    requires [s1]), and stopping it: started [s1, s2], stopped [s1, s2]. *)
Example start_then_stop_trace :
  trace (stopService "B"
           (startService Toposort.toposort "B" shared_broker).2).2
  = [SingletonStart "s1"; SingletonStart "s2"; ServiceStart "B";
     SingletonStop "s1"; SingletonStop "s2"].
Proof. vm_compute. reflexivity. Qed.

(** *** [startService] when resolution fails *)

(** [startService] on a running service returns at once. *)
Lemma startService_running
    (sort : list (Key * Key) → result (list Key)) (name : string) (b : Broker)
    (service : Service) :
  services b !! name = Some service →
  isRunning service = true →
  startService sort name b = (Ok (), b).
Proof.
  intros Hsrv Hrunning. unfold startService.
  rewrite run_bind, (getServiceByName_run name b service Hsrv).
  by rewrite run_bind, (isServiceRunning_run name b service Hsrv), Hrunning.
Qed.

(** C5, as the code has it.  When the resolution of [startService] throws
    (a cycle, a missing name, an action's singleton that is not included),
    [startService] throws that error before any routine is called: the trace
    and the registries of singletons and actions are unchanged, so nothing
    was started or composed.  The service itself has already been marked
    running, and holds the resolved singletons when it is [sortActions] that
    threw; no other service is touched.  From then on [isServiceRunning]
    answers [true] and [startService] returns at once. *)
Theorem startService_failed_resolution
    (sort : list (Key * Key) → result (list Key)) (name : string) (b : Broker)
    (service : Service) (resolved : option (list Key)) (e : error) :
  services b !! name = Some service →
  isRunning service = false →
  resolution_fails sort b name service resolved e →
  ∃ b', startService sort name b = (Throw e, b') ∧
        trace b' = trace b ∧
        singletons b' = singletons b ∧
        actions b' = actions b ∧
        services b' !! name = Some (after_failed_resolution service resolved) ∧
        (∀ other, other ≠ name → services b' !! other = services b !! other) ∧
        isServiceRunning name b' = (Ok true, b') ∧
        startService sort name b' = (Ok (), b').
Proof.
  intros Hsrv Hstopped Hfails.
  cut (∃ b', startService sort name b = (Throw e, b') ∧
             trace b' = trace b ∧
             singletons b' = singletons b ∧
             actions b' = actions b ∧
             services b' !! name = Some (after_failed_resolution service resolved) ∧
             ∀ other, other ≠ name → services b' !! other = services b !! other).
  { intros (b' & Hrun & Htr & Hs & Ha & Hentry & Hothers). exists b'.
    assert (isRunning (after_failed_resolution service resolved) = true)
      as Hrunning by (by destruct resolved).
    split_and!; [done.. | |].
    - by rewrite (isServiceRunning_run name b' _ Hentry), Hrunning.
    - by apply (startService_running sort name b' _ Hentry). }
  unfold startService.
  rewrite run_bind, (getServiceByName_run name b service Hsrv).
  rewrite run_bind, (isServiceRunning_run name b service Hsrv), Hstopped.
  rewrite !run_bind. simpl. rewrite !run_bind. unfold liftR at 1. simpl.
  destruct resolved as [ss |]; simpl in Hfails.
  - destruct Hfails as [-> Hfails]. rewrite !run_bind. simpl.
    rewrite !run_bind. unfold liftR at 1. simpl.
    unfold actions_to_sort in Hfails. rewrite Hfails.
    eexists. split_and!; [done | done | done | done | |].
    + simpl. by rewrite !lookup_alter_eq, Hsrv.
    + intros other Hne. simpl. by rewrite !lookup_alter_ne.
  - rewrite Hfails. eexists. split_and!; [done | done | done | done | |].
    + simpl. by rewrite lookup_alter_eq, Hsrv.
    + intros other Hne. simpl. by rewrite lookup_alter_ne.
Qed.

Lemma startService_failed_resolution_witness :
  ∃ b', startService Toposort.toposort "svc" cyclic_broker
        = (Throw (Error "Found singletons circular dependency: A -> B -> C -> A -> B"), b') ∧
        trace b' = trace cyclic_broker ∧
        singletons b' = singletons cyclic_broker ∧
        actions b' = actions cyclic_broker ∧
        services b' !! "svc"
        = Some (after_failed_resolution (service_of ["A"] [] false []) None) ∧
        (∀ other, other ≠ "svc" →
                  services b' !! other = services cyclic_broker !! other) ∧
        isServiceRunning "svc" b' = (Ok true, b') ∧
        startService Toposort.toposort "svc" b' = (Ok (), b').
Proof.
  apply (startService_failed_resolution Toposort.toposort "svc" cyclic_broker
           (service_of ["A"] [] false []) None); reflexivity.
Defined.

(** The claim as stated fails: after the start of [svc] has thrown on the
    cycle, the broker is not as it was. *)
Lemma failed_start_commits_state :
  ¬ failed_start_commits_nothing Toposort.toposort "svc" cyclic_broker.
Proof.
  intros Hclaim.
  destruct (Hclaim
              (Error "Found singletons circular dependency: A -> B -> C -> A -> B")
              (with_services (alter (set_isRunning true) "svc") cyclic_broker))
    as (_ & _ & _ & Hservices); [reflexivity |].
  apply (f_equal (λ m, isRunning <$> m !! "svc")) in Hservices.
  vm_compute in Hservices. discriminate Hservices.
Qed.

(** After the failed start the service counts as running, and starting it
    again returns at once, with nothing started. *)
Example failed_start_then_retry :
  let b' := (startService Toposort.toposort "svc" cyclic_broker).2 in
  (isServiceRunning "svc" cyclic_broker).1 = Ok false ∧
  (isServiceRunning "svc" b').1 = Ok true ∧
  startService Toposort.toposort "svc" b' = (Ok (), b') ∧
  trace b' = [].
Proof. vm_compute. done. Qed.

(** ** A start routine runs once between two stops *)
































(** The turn of [startSingletons] for a started singleton: the instance of
    the registry entry, no call, no change. *)
Lemma startSingletons_body_cached (n : string) (result : obj) (b : Broker)
    (s : Singleton) :
  singletons b !! n = Some s →
  started s = true →
  startSingletons_body (KStr n) result b = (Ok (<[n := instance s]> result), b).
Proof.
  intros Hs Hstarted. unfold startSingletons_body. rewrite run_bind. simpl.
  by rewrite Hs, run_bind, Hstarted.
Qed.



(** Two services require [s1]: its start routine is called once, and again
    only after both services were stopped. *)
Example shared_singleton_trace :
  trace (run_calls Toposort.toposort
           [StartService "A"; StartService "B"; StopService "A";
            StartService "A"; StopService "A"; StopService "B";
            StartService "A"] shared_broker)
  = [SingletonStart "s1"; ServiceStart "A"; SingletonStart "s2";
     ServiceStart "B"; ServiceStart "A"; SingletonStop "s1";
     SingletonStop "s2"; SingletonStart "s1"; ServiceStart "A"].
Proof. vm_compute. reflexivity. Qed.

(** ** Construction *)










(** The requirements of an action on other actions are not checked either:
    the constructor accepts [dangling_config], and the start of its service
    ends on the access to the unregistered action. *)
Example Broker_new_accepts_dangling_action :
  ∃ b, Broker_new dangling_config = Ok b ∧
       (startService Toposort.toposort "svc" b).1
       = Throw (undefined_access "getRequiredActions").
Proof. eexists. split; vm_compute; reflexivity. Qed.

Example Broker_new_unknown_singleton :
  Broker_new unknown_singleton_config
  = Throw (Error ("Service " +:+ quoted "svc" +:+
                  " requires unknown singleton " +:+ quoted "s9")).
Proof. vm_compute. reflexivity. Qed.

(** In a broker that passed the checks of the constructor, the singletons a
    service requires reach only registered singletons: the resolution of
    singletons never ends on an unregistered name. *)
Lemma references_known_closed (b : Broker) (name : string) (srv : Service) :
  references_known b →
  services b !! name = Some srv →
  closed (singletons b) s_singletons (srv_singletons srv).
Proof.
  intros (Hservice & _ & Hsingleton & _) Hsrv x (r & Hr & Hx).
  assert (is_Some (singletons b !! r)) as Hknown by (by eapply Hservice).
  clear Hr. induction Hx as [r | r y z (c & Hc & Hy) _ IH]; [done |].
  apply IH. by eapply Hsingleton.
Qed.


(** ** Further properties of the methods *)

(** *** Relations kept by every piece of a method *)

Section keeps.

Context (Rel : relation Broker) `{!PreOrder Rel}.

Lemma keeps_ret {A : Type} (a : A) : keeps Rel (mret a : M A).
Proof. intros b. reflexivity. Qed.

Lemma keeps_throw {A : Type} (e : error) : keeps Rel (@throw A e).
Proof. intros b. reflexivity. Qed.

Lemma keeps_liftR {A : Type} (r : result A) : keeps Rel (liftR r).
Proof. intros b. reflexivity. Qed.

Lemma keeps_get : keeps Rel get.
Proof. intros b. reflexivity. Qed.

Lemma keeps_modify (f : Broker → Broker) :
  (∀ b, Rel b (f b)) → keeps Rel (modify f).
Proof. intros Hf b. apply Hf. Qed.

Lemma keeps_bind {A B : Type} (m : M A) (k : A → M B) :
  keeps Rel m → (∀ a, keeps Rel (k a)) → keeps Rel (m ≫= k).
Proof.
  intros Hm Hk b. rewrite run_bind. specialize (Hm b).
  destruct (m b) as [[a | e] b1]; simpl in *; [| done].
  etrans; [done | apply Hk].
Qed.

Lemma keeps_forM {A S : Type} (f : A → S → M S) (l : list A) (s : S) :
  (∀ x s, keeps Rel (f x s)) → keeps Rel (forM f l s).
Proof.
  intros Hf. revert s. induction l as [| x l IH]; intros s; simpl.
  - apply keeps_ret.
  - apply keeps_bind; [apply Hf | apply IH].
Qed.

Lemma keeps_getServiceByName (name : string) : keeps Rel (getServiceByName name).
Proof.
  unfold getServiceByName. apply keeps_bind; [apply keeps_get |]. intros b.
  destruct (services b !! name); [apply keeps_ret | apply keeps_throw].
Qed.

Lemma keeps_isServiceRunning (name : string) : keeps Rel (isServiceRunning name).
Proof.
  unfold isServiceRunning.
  apply keeps_bind; [apply keeps_getServiceByName | intros; apply keeps_ret].
Qed.

Lemma keeps_getRunningServices : keeps Rel getRunningServices.
Proof.
  unfold getRunningServices. apply keeps_bind; [apply keeps_get |]. intros b.
  apply keeps_forM. intros x res.
  apply keeps_bind; [apply keeps_isServiceRunning | intros; apply keeps_ret].
Qed.

Lemma keeps_startedSingletons_of (l : list string) :
  keeps Rel (startedSingletons_of l).
Proof.
  unfold startedSingletons_of. apply keeps_forM. intros x res.
  apply keeps_bind; [apply keeps_getServiceByName | intros; apply keeps_ret].
Qed.

(** [stopService] keeps what its three kinds of writes keep. *)
Lemma keeps_stopService (name : string) :
  (∀ b, Rel b (with_services (alter (set_isRunning false) name) b)) →
  (∀ b, Rel b (with_trace (λ t, t ++ [ServiceStop name]) b)) →
  (∀ k u, keeps Rel (stopService_body k u)) →
  keeps Rel (stopService name).
Proof.
  intros Hservices Hhandler Hbody. unfold stopService.
  apply keeps_bind; [apply keeps_isServiceRunning |]. intros [|]; [| apply keeps_ret].
  simpl. apply keeps_bind; [apply keeps_getServiceByName |]. intros service.
  apply keeps_bind.
  { destruct (stopHandler service); [| apply keeps_ret].
    apply keeps_bind; [by apply keeps_modify |]. intros _.
    apply keeps_bind; [apply keeps_get | intros; apply keeps_liftR]. }
  intros _. apply keeps_bind; [apply keeps_getRunningServices |]. intros others.
  apply keeps_bind; [apply keeps_startedSingletons_of |]. intros started.
  apply keeps_bind; [by apply keeps_forM |]. intros _.
  by apply keeps_modify.
Qed.

(** [startService] keeps what its writes and the turns of its loops keep. *)
Lemma keeps_startService (sort : list (Key * Key) → result (list Key))
    (name : string) :
  (∀ b, Rel b (with_services (alter (set_isRunning true) name) b)) →
  (∀ l b, Rel b (with_services (alter (set_dep_singletons l) name) b)) →
  (∀ l b, Rel b (with_services (alter (set_dep_actions l) name) b)) →
  (∀ b, Rel b (with_trace (λ t, t ++ [ServiceStart name]) b)) →
  (∀ k res, keeps Rel (startSingletons_body k res)) →
  (∀ k res, keeps Rel (startActions_body k res)) →
  keeps Rel (startService sort name).
Proof.
  intros Hrunning Hdeps Hdepa Hhandler Hsingletons Hactions.
  unfold startService.
  apply keeps_bind; [apply keeps_getServiceByName |]. intros service.
  apply keeps_bind; [apply keeps_isServiceRunning |]. intros [|]; [apply keeps_ret |].
  apply keeps_bind; [by apply keeps_modify |]. intros _.
  apply keeps_bind; [apply keeps_get |]. intros b.
  apply keeps_bind; [apply keeps_liftR |]. intros ss.
  apply keeps_bind; [by apply keeps_modify |]. intros _.
  apply keeps_bind; [apply keeps_liftR |]. intros acts.
  apply keeps_bind; [by apply keeps_modify |]. intros _.
  apply keeps_bind; [by apply keeps_forM |]. intros singletons.
  apply keeps_bind; [by apply keeps_forM |]. intros actions.
  apply keeps_bind; [by apply keeps_forM |]. intros localActions.
  apply keeps_bind; [by apply keeps_modify |]. intros _.
  apply keeps_bind; [apply keeps_get | intros; apply keeps_liftR].
Qed.

End keeps.

(** *** What [stopService] never does *)

Global Instance only_clears_preorder : PreOrder only_clears.
Proof.
  split.
  - intros b. by repeat split.
  - intros b1 b2 b3 ((Ha1 & Hp1 & Hs1 & Hv1) & Hst1 & Hr1)
      ((Ha2 & Hp2 & Hs2 & Hv2) & Hst2 & Hr2).
    repeat split; try congruence; auto.
Qed.






Lemma trace_adds_refl (P : event → Prop) (b : Broker) : trace_adds P b b.
Proof. exists []. by rewrite app_nil_r. Qed.

Lemma trace_adds_trans (P : event → Prop) (b1 b2 b3 : Broker) :
  trace_adds P b1 b2 → trace_adds P b2 b3 → trace_adds P b1 b3.
Proof.
  intros (evs1 & Htr1 & Hevs1) (evs2 & Htr2 & Hevs2). exists (evs1 ++ evs2).
  split; [by rewrite Htr2, Htr1, (assoc_L (++)) | by apply Forall_app].
Qed.

Lemma trace_adds_same (P : event → Prop) (b b' : Broker) :
  trace b' = trace b → trace_adds P b b'.
Proof. intros Htr. exists []. by rewrite app_nil_r. Qed.

Lemma trace_adds_emit (P : event → Prop) (ev : event) (b : Broker) :
  P ev → trace_adds P b (with_trace (λ t, t ++ [ev]) b).
Proof. intros Hev. exists [ev]. split; [done | by apply Forall_singleton]. Qed.

Lemma keeps_at (Rel : relation Broker) {A : Type} (m : M A) (b : Broker) :
  keeps Rel m → Rel b (m b).2.
Proof. intros Hm. apply Hm. Qed.

(** Any sequence of calls keeps what each call keeps. *)
Lemma keeps_run_calls (Rel : relation Broker) `{!PreOrder Rel}
    (sort : list (Key * Key) → result (list Key)) (calls : list call)
    (b : Broker) :
  (∀ name, keeps Rel (startService sort name)) →
  (∀ name, keeps Rel (stopService name)) →
  Rel b (run_calls sort calls b).
Proof.
  intros Hstart Hstop. unfold run_calls. revert b.
  induction calls as [| c calls IH]; intros b; simpl; [reflexivity |].
  etrans; [| apply IH]. destruct c as [name | name]; [apply Hstart | apply Hstop].
Qed.

(** *** What [startService] never does *)

Global Instance only_starts_preorder (name : string) : PreOrder (only_starts name).
Proof.
  split.
  - intros b. repeat split; try done. apply trace_adds_refl.
  - intros b1 b2 b3 (Hp1 & Hst1 & Hs1 & Ha1 & Ho1 & Htr1)
      (Hp2 & Hst2 & Hs2 & Ha2 & Ho2 & Htr2).
    split_and!; [congruence | by auto | | | |].
    + intros n. by rewrite Hs2.
    + intros n. by rewrite Ha2.
    + intros other Hne. by rewrite Ho2, Ho1.
    + by eapply trace_adds_trans.
Qed.

Lemma only_starts_services (name : string) (f : Service → Service) (b : Broker) :
  only_starts name b (with_services (alter f name) b).
Proof.
  split_and!; try done.
  - intros other Hne. simpl. by rewrite lookup_alter_ne.
  - by apply trace_adds_same.
Qed.

Lemma only_starts_emit (name : string) (ev : event) (b : Broker) :
  ¬ is_stop ev → only_starts name b (with_trace (λ t, t ++ [ev]) b).
Proof. intros Hev. split_and!; try done. by apply trace_adds_emit. Qed.

Lemma only_starts_singleton (name n : string) (f : Singleton → Singleton)
    (b : Broker) :
  (∀ s, started s = true → started (f s) = true) →
  (∀ s, set_instance VUndefined (set_started false (f s))
        = set_instance VUndefined (set_started false s)) →
  only_starts name b (with_singletons (alter f n) b).
Proof.
  intros Hstarted Hsame. split_and!; try done.
  - intros k (s & Hs & Hst). simpl. destruct (decide (n = k)) as [-> | Hne].
    + exists (f s). simpl. rewrite lookup_alter_eq, Hs. auto.
    + exists s. simpl. by rewrite lookup_alter_ne.
  - intros k. simpl. destruct (decide (n = k)) as [-> | Hne].
    + rewrite lookup_alter_eq. destruct (singletons b !! k); simpl; [| done].
      by rewrite Hsame.
    + by rewrite lookup_alter_ne.
  - by apply trace_adds_same.
Qed.

Lemma only_starts_action (name n : string) (v : value) (b : Broker) :
  only_starts name b (with_actions (alter (set_initializedFn v) n) b).
Proof.
  split_and!; try done.
  - intros k. simpl. destruct (decide (n = k)) as [-> | Hne].
    + rewrite lookup_alter_eq. by destruct (actions b !! k).
    + by rewrite lookup_alter_ne.
  - by apply trace_adds_same.
Qed.

Lemma keeps_only_starts_startSingletons_body (name : string) (k : Key)
    (res : obj) :
  keeps (only_starts name) (startSingletons_body k res).
Proof.
  unfold startSingletons_body. apply keeps_bind; [apply _ | apply keeps_get; apply _ |].
  intros b. destruct k as [n | d]; simpl; [| apply keeps_throw; apply _].
  destruct (singletons b !! n) as [s |]; [| apply keeps_throw; apply _].
  apply keeps_bind; [apply _ | | intros; apply keeps_ret; apply _].
  destruct (negb (started s)); [| apply keeps_ret; apply _].
  apply keeps_bind; [apply _ | apply keeps_liftR; apply _ |]. intros bag.
  apply keeps_bind; [apply _ | |]. 
  { apply keeps_modify. intros b0. by apply only_starts_singleton. }
  intros _. apply keeps_bind; [apply _ | |].
  { apply keeps_modify. intros b0. apply only_starts_emit. simpl. tauto. }
  intros _. apply keeps_bind; [apply _ | apply keeps_get; apply _ |]. intros b1.
  apply keeps_bind; [apply _ | apply keeps_liftR; apply _ |]. intros v.
  apply keeps_bind; [apply _ | | intros; apply keeps_ret; apply _].
  apply keeps_modify. intros b0. by apply only_starts_singleton.
Qed.

Lemma keeps_only_starts_startActions_body (name : string) (k : Key)
    (res : obj) :
  keeps (only_starts name) (startActions_body k res).
Proof.
  unfold startActions_body. apply keeps_bind; [apply _ | apply keeps_get; apply _ |].
  intros b. destruct k as [n | d]; simpl; [| apply keeps_throw; apply _].
  destruct (actions b !! n) as [a |]; [| apply keeps_throw; apply _].
  apply keeps_bind; [apply _ | | intros; apply keeps_ret; apply _].
  destruct (negb (truthy (initializedFn a))); [| apply keeps_ret; apply _].
  apply keeps_bind; [apply _ | apply keeps_liftR; apply _ |]. intros bagA.
  apply keeps_bind; [apply _ | apply keeps_liftR; apply _ |]. intros bagS.
  apply keeps_bind; [apply _ | |].
  { apply keeps_modify. intros b0. apply only_starts_emit. simpl. tauto. }
  intros _. apply keeps_bind; [apply _ | apply keeps_get; apply _ |]. intros b1.
  apply keeps_bind; [apply _ | apply keeps_liftR; apply _ |]. intros v.
  apply keeps_bind; [apply _ | |].
  { apply keeps_modify. intros b0. apply only_starts_action. }
  intros _. destruct (negb (isFunction v));
    [apply keeps_throw; apply _ | apply keeps_ret; apply _].
Qed.

(** X2.  Whatever [startService] does, and whether it returns or throws, it
    never undoes anything: a started singleton stays started, the entries of
    singletons and actions change at most in [started], [instance] and
    [initializedFn], the plugins and every other service are untouched, and
    no stop routine or stop handler is called. *)
Theorem startService_only_starts
    (sort : list (Key * Key) → result (list Key)) (name : string) (b : Broker) :
  only_starts name b (startService sort name b).2.
Proof.
  apply keeps_startService; [apply _ | | | | | |].
  - apply only_starts_services.
  - intros l. apply only_starts_services.
  - intros l. apply only_starts_services.
  - intros b0. apply only_starts_emit. simpl. tauto.
  - apply keeps_only_starts_startSingletons_body.
  - apply keeps_only_starts_startActions_body.
Qed.

(** *** Composed actions are never composed again *)

Section frozen.

Variables (n : string) (a : Action).
Hypothesis Hcomposed : truthy (initializedFn a) = true.

Global Instance frozen_preorder : PreOrder (frozen n a).
Proof.
  split.
  - intros b Ha. split; [done | apply trace_adds_refl].
  - intros b1 b2 b3 H12 H23 Ha. destruct (H12 Ha) as [Ha2 Htr12].
    destruct (H23 Ha2) as [Ha3 Htr23]. split; [done |].
    by eapply trace_adds_trans.
Qed.

Lemma frozen_same_actions (b b' : Broker) :
  actions b' = actions b →
  trace_adds (λ ev, ev ≠ ActionCompose n) b b' →
  frozen n a b b'.
Proof. intros Hsame Htr Ha. by rewrite Hsame. Qed.

Lemma frozen_emit (ev : event) (b : Broker) :
  ev ≠ ActionCompose n → frozen n a b (with_trace (λ t, t ++ [ev]) b).
Proof.
  intros Hev. apply frozen_same_actions; [done |].
  by apply trace_adds_emit.
Qed.

Lemma frozen_services (f : gmap string Service → gmap string Service)
    (b : Broker) :
  frozen n a b (with_services f b).
Proof.
  apply frozen_same_actions; [done |]. by apply trace_adds_same.
Qed.

Lemma frozen_singletons (f : gmap string Singleton → gmap string Singleton)
    (b : Broker) :
  frozen n a b (with_singletons f b).
Proof.
  apply frozen_same_actions; [done |]. by apply trace_adds_same.
Qed.

Lemma frozen_other_action (k : string) (f : Action → Action) (b : Broker) :
  k ≠ n → frozen n a b (with_actions (alter f k) b).
Proof.
  intros Hne Ha. split; [| by apply trace_adds_same].
  simpl. by rewrite lookup_alter_ne.
Qed.

Lemma keeps_frozen_startSingletons_body (k : Key) (res : obj) :
  keeps (frozen n a) (startSingletons_body k res).
Proof.
  unfold startSingletons_body. apply keeps_bind; [apply _ | apply keeps_get; apply _ |].
  intros b. destruct k as [m | d]; simpl; [| apply keeps_throw; apply _].
  destruct (singletons b !! m) as [s |]; [| apply keeps_throw; apply _].
  apply keeps_bind; [apply _ | | intros; apply keeps_ret; apply _].
  destruct (negb (started s)); [| apply keeps_ret; apply _].
  apply keeps_bind; [apply _ | apply keeps_liftR; apply _ |]. intros bag.
  apply keeps_bind; [apply _ | apply keeps_modify, frozen_singletons |].
  intros _. apply keeps_bind; [apply _ | |].
  { apply keeps_modify. intros b0. by apply frozen_emit. }
  intros _. apply keeps_bind; [apply _ | apply keeps_get; apply _ |]. intros b1.
  apply keeps_bind; [apply _ | apply keeps_liftR; apply _ |]. intros v.
  apply keeps_bind; [apply _ | | intros; apply keeps_ret; apply _].
  apply keeps_modify, frozen_singletons.
Qed.

Lemma keeps_frozen_startActions_body (k : Key) (res : obj) :
  keeps (frozen n a) (startActions_body k res).
Proof.
  intros b. unfold startActions_body. rewrite run_bind.
  change (get b) with (Ok b, b). cbv beta iota.
  destruct k as [m | d]; unfold prop; [| reflexivity].
  destruct (actions b !! m) as [action |] eqn:Hm; [| reflexivity].
  destruct (truthy (initializedFn action)) eqn:Htruthy; [reflexivity |].
  destruct (decide (m = n)) as [-> | Hne].
  { intros Ha. rewrite Ha in Hm. injection Hm as <-. congruence. }
  change (negb false) with true. cbv iota. apply keeps_at.
  apply keeps_bind; [apply _ | | intros; apply keeps_ret; apply _].
  apply keeps_bind; [apply _ | apply keeps_liftR; apply _ |]. intros bagA.
  apply keeps_bind; [apply _ | apply keeps_liftR; apply _ |]. intros bagS.
  apply keeps_bind; [apply _ | |].
  { apply keeps_modify. intros b0. apply frozen_emit. congruence. }
  intros _. apply keeps_bind; [apply _ | apply keeps_get; apply _ |]. intros b1.
  apply keeps_bind; [apply _ | apply keeps_liftR; apply _ |]. intros v.
  apply keeps_bind; [apply _ | |].
  { apply keeps_modify. intros b0. by apply frozen_other_action. }
  intros _. destruct (negb (isFunction v));
    [apply keeps_throw; apply _ | apply keeps_ret; apply _].
Qed.

Lemma keeps_frozen_stopService_body (k : Key) (u : ()) :
  keeps (frozen n a) (stopService_body k u).
Proof.
  unfold stopService_body. apply keeps_bind; [apply _ | apply keeps_get; apply _ |].
  intros b. destruct k as [m | d]; simpl; [| apply keeps_throw; apply _].
  destruct (singletons b !! m) as [s |]; [| apply keeps_throw; apply _].
  apply keeps_bind; [apply _ | |].
  { apply keeps_modify. intros b0. by apply frozen_emit. }
  intros _. apply keeps_bind; [apply _ | apply keeps_get; apply _ |]. intros b1.
  apply keeps_bind; [apply _ | apply keeps_liftR; apply _ |]. intros _.
  apply keeps_modify, frozen_singletons.
Qed.

Lemma keeps_frozen_startService
    (sort : list (Key * Key) → result (list Key)) (name : string) :
  keeps (frozen n a) (startService sort name).
Proof.
  apply keeps_startService; [apply _ | | | | | |].
  - apply frozen_services.
  - intros l. apply frozen_services.
  - intros l. apply frozen_services.
  - intros b0. by apply frozen_emit.
  - apply keeps_frozen_startSingletons_body.
  - apply keeps_frozen_startActions_body.
Qed.

Lemma keeps_frozen_stopService (name : string) :
  keeps (frozen n a) (stopService name).
Proof.
  apply keeps_stopService; [apply _ | | |].
  - apply frozen_services.
  - intros b0. by apply frozen_emit.
  - apply keeps_frozen_stopService_body.
Qed.

End frozen.

(** X3.  An action whose entry holds a truthy composed value is composed for
    good: over any sequence of [startService] and [stopService] calls,
    returning or throwing, its entry stays the same and its compose routine
    is never called again.  Stopping services tears down singletons only. *)
Theorem composed_action_is_never_recomposed
    (sort : list (Key * Key) → result (list Key)) (calls : list call)
    (b : Broker) (n : string) (a : Action) :
  actions b !! n = Some a →
  truthy (initializedFn a) = true →
  actions (run_calls sort calls b) !! n = Some a ∧
  ∃ evs, trace (run_calls sort calls b) = trace b ++ evs ∧
         ActionCompose n ∉ evs.
Proof.
  intros Ha Hcomposed.
  assert (Hfrozen : frozen n a b (run_calls sort calls b)).
  { apply keeps_run_calls; [by apply frozen_preorder | |].
    - intros name. by apply keeps_frozen_startService.
    - intros name. by apply keeps_frozen_stopService. }
  destruct (Hfrozen Ha) as [Ha' (evs & Htr & Hevs)]. split; [done |].
  exists evs. split; [done |]. intros Hin.
  by apply (proj1 (Forall_forall _ _) Hevs _ Hin).
Qed.

Lemma composed_action_is_never_recomposed_witness :
  let calls := [StopService "svc"; StartService "svc"] in
  actions (run_calls Toposort.toposort calls composed_broker) !! "doIt"
  = Some (set_initializedFn (VFunction 1) (action_of [] ["s1"] (VFunction 1))) ∧
  ∃ evs, trace (run_calls Toposort.toposort calls composed_broker)
         = trace composed_broker ++ evs ∧
         ActionCompose "doIt" ∉ evs.
Proof.
  apply (composed_action_is_never_recomposed Toposort.toposort
           [StopService "svc"; StartService "svc"] composed_broker "doIt"
           (set_initializedFn (VFunction 1) (action_of [] ["s1"] (VFunction 1))));
    reflexivity.
Defined.

(** *** Every outcome of resolution *)

Lemma collect_outcome {C : Type} (registry : gmap string C)
    (requires : C → list string) (kind : component) (required : list string) :
  (∃ all, collect registry requires kind required = Ok all) ∨
  ∃ e, collect registry requires kind required = Throw e ∧
       closure_error registry requires kind required e.
Proof.
  apply forEach_outcome. intros r t Hr.
  destruct (getDependencies_outcome registry requires kind
              (S (size registry)) r [] t)
    as [? | (e & Hrun & [He | He])]; [| | | by left | |].
  - apply NoDup_nil_2.
  - intros c Hc. by apply elem_of_nil in Hc.
  - simpl. lia.
  - right. exists e. split; [done | by left].
  - right. exists e. split; [done |]. right. by exists r.
Qed.

(** X4.  Every outcome of [sortSingletons], for a sort that meets the
    contract: it returns a list only when every reached name is registered
    and none is on a cycle, and the list is then in dependency order;
    otherwise it throws the circular-dependency error or the access to a
    missing entry, and nothing else: no error of the sort itself surfaces. *)
Theorem sortSingletons_outcome
    (sort : list (Key * Key) → result (list Key))
    (singletons : gmap string Singleton) (required : list string) :
  toposort_contract sort →
  (∃ l, sortSingletons sort singletons required = Ok l ∧
        closed singletons s_singletons required ∧
        acyclic_from singletons s_singletons required ∧
        resolution_order singletons s_singletons required l) ∨
  (∃ e, sortSingletons sort singletons required = Throw e ∧
        closure_error singletons s_singletons Singletons required e).
Proof.
  intros Hsort.
  destruct (collect_outcome singletons s_singletons Singletons required)
    as [(all & Hrun) | (e & Hrun & He)].
  - left. pose proof (collect_Ok_closed _ _ _ _ _ Hrun) as Hclosed.
    pose proof (collect_Ok_acyclic _ _ _ _ _ Hrun) as Hacyc.
    destruct (sortSingletons_order sort Hsort singletons required Hclosed Hacyc)
      as (l & Hl & Horder).
    by exists l.
  - right. exists e. split; [| done]. unfold sortSingletons. by rewrite Hrun.
Qed.

Lemma sortSingletons_outcome_witness :
  (∃ l, sortSingletons Toposort.toposort cyclic_singletons ["A"] = Ok l ∧
        closed cyclic_singletons s_singletons ["A"] ∧
        acyclic_from cyclic_singletons s_singletons ["A"] ∧
        resolution_order cyclic_singletons s_singletons ["A"] l) ∨
  (∃ e, sortSingletons Toposort.toposort cyclic_singletons ["A"] = Throw e ∧
        closure_error cyclic_singletons s_singletons Singletons ["A"] e).
Proof.
  apply (sortSingletons_outcome Toposort.toposort cyclic_singletons ["A"]).
  exact ToposortFacts.toposort_meets_contract.
Defined.

(** X5.  Every outcome of [sortActions], for a sort that meets the contract:
    it returns a list only when every reached action is registered, none is
    on a cycle and each has its singletons among the resolved ones, and the
    list is then in dependency order; otherwise it throws one of three
    errors: the circular dependency, the access to a missing entry, or the
    singletons that are not included. *)
Theorem sortActions_outcome
    (sort : list (Key * Key) → result (list Key))
    (actions : gmap string Action) (required : list string)
    (singletons : list Key) :
  toposort_contract sort →
  (∃ l, sortActions sort actions required singletons = Ok l ∧
        closed actions a_actions required ∧
        acyclic_from actions a_actions required ∧
        singletons_included actions required singletons ∧
        resolution_order actions a_actions required l) ∨
  (∃ e, sortActions sort actions required singletons = Throw e ∧
        (closure_error actions a_actions Actions required e ∨
         not_included_error actions required singletons e)).
Proof.
  intros Hsort.
  destruct (collect_outcome actions a_actions Actions required)
    as [(all & Hrun) | (e & Hrun & He)].
  2:{ right. exists e. split; [| by left]. unfold sortActions. by rewrite Hrun. }
  pose proof (collect_Ok_closed _ _ _ _ _ Hrun) as Hclosed.
  pose proof (collect_Ok_acyclic _ _ _ _ _ Hrun) as Hacyc.
  destruct (collect_Ok_reaches _ _ _ _ _ Hrun) as [_ Hall].
  destruct (forEach_outcome (push_action_edges actions singletons)
              (not_included_error actions required singletons) all
              ((λ i, (KSym "service-action", KStr i)) <$> required))
    as [(g & Hg) | (e & Hg & He)].
  - intros x g Hx. destruct (Hclosed x) as [a Ha]; [by apply Hall |].
    unfold push_action_edges. rewrite Ha. simpl.
    destruct (difference (a_singletons a) singletons) as [| s rest] eqn:Hdiff.
    + left. by eexists.
    + right. eexists. split; [done |]. exists x, a.
      rewrite Hdiff. split_and!; [by apply Hall | done | done | done].
  - left. assert (singletons_included actions required singletons) as Hincl.
    { intros x a Hx Ha. apply difference_nil.
      destruct (forEach_Ok_inv _ _ _ _ x Hg (proj2 (Hall x) Hx)) as (g1 & g2 & Hpush).
      unfold push_action_edges in Hpush. rewrite Ha in Hpush. simpl in Hpush.
      by destruct (difference (a_singletons a) singletons). }
    destruct (sortActions_order sort Hsort actions required singletons
                Hclosed Hacyc Hincl) as (l & Hl & Horder).
    by exists l.
  - right. exists e. split; [| by right]. unfold sortActions.
    rewrite Hrun, bind_Ok. simpl. by rewrite Hg.
Qed.

Lemma sortActions_outcome_witness :
  (∃ l, sortActions Toposort.toposort example_actions ["doThat"] [KStr "s1"]
        = Ok l ∧
        closed example_actions a_actions ["doThat"] ∧
        acyclic_from example_actions a_actions ["doThat"] ∧
        singletons_included example_actions ["doThat"] [KStr "s1"] ∧
        resolution_order example_actions a_actions ["doThat"] l) ∨
  (∃ e, sortActions Toposort.toposort example_actions ["doThat"] [KStr "s1"]
        = Throw e ∧
        (closure_error example_actions a_actions Actions ["doThat"] e ∨
         not_included_error example_actions ["doThat"] [KStr "s1"] e)).
Proof.
  apply (sortActions_outcome Toposort.toposort example_actions ["doThat"]
           [KStr "s1"]).
  exact ToposortFacts.toposort_meets_contract.
Defined.

(** *** Names, flags and the calls that do nothing *)



(** X7.  The redundant calls do nothing: [startService] of a service that is
    marked running, and [stopService] of one that is not, return without a
    call of any routine and without a change to the broker; the resolved
    lists of the service are not computed again. *)
Theorem redundant_call_does_nothing
    (sort : list (Key * Key) → result (list Key)) (name : string) (b : Broker)
    (service : Service) :
  services b !! name = Some service →
  if isRunning service
  then startService sort name b = (Ok (), b)
  else stopService name b = (Ok (), b).
Proof.
  intros Hsrv. destruct (isRunning service) eqn:Hrunning.
  - by eapply startService_running.
  - unfold stopService.
    by rewrite run_bind, (isServiceRunning_run name b service Hsrv), Hrunning.
Qed.

Lemma redundant_call_does_nothing_witness :
  stopService "A" shared_broker = (Ok (), shared_broker).
Proof.
  apply (redundant_call_does_nothing Toposort.toposort "A" shared_broker
           (service_of ["s1"] [] false [])).
  reflexivity.
Defined.

(** X8.  [getRunningServices] never throws and changes nothing: although it
    goes through [isServiceRunning], which throws on an unknown name, it
    only asks about registered names.  It returns each service for which
    [isServiceRunning] answers [true], once. *)
Theorem getRunningServices_lists_running (b : Broker) :
  ∃ l, getRunningServices b = (Ok l, b) ∧ NoDup l ∧
       ∀ name, name ∈ l ↔ isServiceRunning name b = (Ok true, b).
Proof.
  exists (running_names (services b)).
  split_and!; [apply getRunningServices_run | |].
  - unfold running_names. apply NoDup_filter, NoDup_fst_map_to_list.
  - intros name. rewrite elem_of_running_names. split.
    + intros (srv & Hsrv & Hrunning).
      by rewrite (isServiceRunning_run name b srv Hsrv), Hrunning.
    + intros Hrun. destruct (services b !! name) as [srv |] eqn:Hsrv.
      * rewrite (isServiceRunning_run name b srv Hsrv) in Hrun.
        exists srv. split; [done | congruence].
      * unfold isServiceRunning in Hrun.
        by rewrite run_bind, (getServiceByName_missing name b Hsrv) in Hrun.
Qed.

(** *** What [startSingletons] starts, and in which order *)

Lemma filter_ext_elem_of {A : Type} (P Q : A → Prop)
    `{∀ x, Decision (P x)} `{∀ x, Decision (Q x)} (l : list A) :
  (∀ x, x ∈ l → P x ↔ Q x) → filter P l = filter Q l.
Proof.
  induction l as [| x l IH]; intros Hext; [done |].
  rewrite !filter_cons. rewrite IH; [| intros y Hy; apply Hext; by right].
  destruct (decide (P x)) as [HP | HP], (decide (Q x)) as [HQ | HQ]; try done.
  - destruct HQ. apply Hext; [by left | done].
  - destruct HP. apply Hext; [by left | done].
Qed.

(** A turn of the loop of [startSingletons] that returns: the entry was
    started and is returned as it is, or its start routine was called with
    the instances of its requirements and returned the instance. *)
Lemma startSingletons_body_Ok_inv (n : string) (res0 res1 : obj)
    (b b1 : Broker) :
  startSingletons_body (KStr n) res0 b = (Ok res1, b1) →
  ∃ s, singletons b !! n = Some s ∧
       ((started s = true ∧ b1 = b ∧ res1 = <[n := instance s]> res0) ∨
        (started s = false ∧
         ∃ bag v,
           bag_of (singletons b) instance "instance" (s_singletons s) = Ok bag ∧
           s_start s (trace b ++ [SingletonStart n]) bag = Ok v ∧
           b1 = with_singletons (alter (set_instance v) n)
                  (with_trace (λ t, t ++ [SingletonStart n])
                     (with_singletons (alter (set_started true) n) b)) ∧
           res1 = <[n := v]> res0)).
Proof.
  unfold startSingletons_body. rewrite run_bind. simpl.
  destruct (singletons b !! n) as [s |] eqn:Hs; [| done].
  intros Hrun. exists s. split; [done |].
  destruct (started s) eqn:Hstarted; simpl in Hrun.
  - left. injection Hrun as <- <-. by split_and!.
  - right. split; [done |]. rewrite !run_bind in Hrun. unfold liftR at 1 in Hrun.
    destruct (bag_of (singletons b) instance "instance" (s_singletons s))
      as [bag |] eqn:Hbag; [| done].
    unfold mbind, M_bind, bind, modify, emit, get, liftR, mret, M_ret, ret in Hrun.
    simpl in Hrun.
    destruct (s_start s (trace b ++ [SingletonStart n]) bag) as [v |] eqn:Hv;
      [| done].
    injection Hrun as <- <-.
    by exists bag, v.
Qed.

Lemma startSingletons_loop (names : list string) :
  ∀ (res0 res : obj) (b b' : Broker),
    NoDup names →
    forM startSingletons_body (KStr <$> names) res0 b = (Ok res, b') →
    trace b' = trace b ++ (SingletonStart <$> filter (unstarted b) names) ∧
    (∀ n, n ∈ names →
          ∃ s, singletons b' !! n = Some s ∧ started s = true ∧
               res !! n = Some (instance s)) ∧
    (∀ k, k ∉ names →
          singletons b' !! k = singletons b !! k ∧ res !! k = res0 !! k) ∧
    (∀ k, ¬ unstarted b k → singletons b' !! k = singletons b !! k) ∧
    actions b' = actions b ∧ services b' = services b ∧ plugins b' = plugins b.
Proof.
  induction names as [| n names IH]; intros res0 res b b' Hnd Hrun.
  { simpl in Hrun. injection Hrun as <- <-. rewrite app_nil_r.
    split_and!; try done. intros n Hn. by apply elem_of_nil in Hn. }
  apply NoDup_cons in Hnd as [Hn Hnd]. simpl in Hrun. rewrite run_bind in Hrun.
  destruct (startSingletons_body (KStr n) res0 b) as [[res1 | e] b1] eqn:Hbody;
    [| done].
  destruct (IH res1 res b1 b' Hnd Hrun)
    as (Htr & Hnames & Hframe & Hkept & Hactions & Hservices & Hplugins).
  destruct (startSingletons_body_Ok_inv n res0 res1 b b1 Hbody)
    as (s & Hs & [(Hstarted & -> & ->) |
                  (Hstarted & bag & v & Hbag & Hv & -> & ->)]).
  - (* the entry was started: nothing is called *)
    assert (¬ unstarted b n) as Hn'.
    { unfold unstarted. rewrite Hs. simpl. by rewrite Hstarted. }
    rewrite filter_cons, decide_False by done.
    split_and!; try done.
    + intros m [-> | Hm]%elem_of_cons; [| by apply Hnames].
      destruct (Hframe n Hn) as [Hsame Hres]. exists s.
      rewrite Hsame, Hres, lookup_insert_eq. by split_and!.
    + intros k [Hk1 Hk2]%not_elem_of_cons. destruct (Hframe k Hk2) as [Hsame Hres].
      split; [done |]. by rewrite Hres, lookup_insert_ne.
  - (* the start routine is called *)
    assert (unstarted b n) as Hn'.
    { unfold unstarted. rewrite Hs. simpl. by rewrite Hstarted. }
    rewrite filter_cons, decide_True by done.
    simpl in *.
    assert (∀ k, k ≠ n →
              alter (set_instance v) n
                (alter (set_started true) n (singletons b)) !! k
              = singletons b !! k) as Hother.
    { intros k Hne. by rewrite !lookup_alter_ne. }
    split_and!; try done.
    + rewrite Htr, <- (assoc_L (++)). simpl. do 2 f_equal.
      apply (f_equal (fmap SingletonStart)).
      apply filter_ext_elem_of. intros m Hm. unfold unstarted. simpl.
      rewrite Hother; [done |]. intros ->. by destruct Hn.
    + intros m [-> | Hm]%elem_of_cons; [| by apply Hnames].
      destruct (Hframe n Hn) as [Hsame Hres].
      exists (set_instance v (set_started true s)).
      rewrite Hsame, Hres, lookup_insert_eq, !lookup_alter_eq, Hs.
      by split_and!.
    + intros k [Hk1 Hk2]%not_elem_of_cons. destruct (Hframe k Hk2) as [Hsame Hres].
      rewrite Hsame, Hres, lookup_insert_ne, Hother by done. done.
    + intros k Hk. assert (k ≠ n) as Hne by (intros ->; by destruct Hk).
      rewrite Hkept, Hother; [done | done |].
      unfold unstarted. simpl. by rewrite Hother.
Qed.

(** X9.  What a [startSingletons] that returns has done, for names without
    a duplicate: it called the start routines of the names that were not
    started, in the order of the list, and nothing else; every name of the
    list is started afterwards; the object it returns has exactly the names
    of the list as keys, each bound to the instance its entry now holds; and
    the entries outside the list, and those that were started already, are
    as they were. *)
Theorem startSingletons_starts_in_order (names : list string)
    (res : obj) (b b' : Broker) :
  NoDup names →
  startSingletons (KStr <$> names) b = (Ok res, b') →
  trace b' = trace b ++ (SingletonStart <$> filter (unstarted b) names) ∧
  (∀ n, n ∈ names →
        ∃ s, singletons b' !! n = Some s ∧ started s = true ∧
             res !! n = Some (instance s)) ∧
  (∀ k, is_Some (res !! k) → k ∈ names) ∧
  (∀ k, k ∉ names ∨ ¬ unstarted b k → singletons b' !! k = singletons b !! k).
Proof.
  intros Hnd Hrun.
  destruct (startSingletons_loop names ∅ res b b' Hnd Hrun)
    as (Htr & Hnames & Hframe & Hkept & _).
  split_and!; [done | done | |].
  - intros k Hk. destruct (decide (k ∈ names)) as [| Hout]; [done |].
    destruct (Hframe k Hout) as [_ Hres]. rewrite Hres, lookup_empty in Hk.
    by destruct Hk.
  - intros k [Hk | Hk]; [by apply Hframe | by apply Hkept].
Qed.

Lemma startSingletons_starts_in_order_witness :
  ∃ res b',
    startSingletons (KStr <$> ["s1"; "s2"; "s3"]) running_broker = (Ok res, b') ∧
    trace b' = trace running_broker
               ++ (SingletonStart <$> filter (unstarted running_broker)
                                        ["s1"; "s2"; "s3"]) ∧
    (∀ n, n ∈ ["s1"; "s2"; "s3"] →
          ∃ s, singletons b' !! n = Some s ∧ started s = true ∧
               res !! n = Some (instance s)) ∧
    (∀ k, is_Some (res !! k) → k ∈ ["s1"; "s2"; "s3"]) ∧
    (∀ k, k ∉ ["s1"; "s2"; "s3"] ∨ ¬ unstarted running_broker k →
          singletons b' !! k = singletons running_broker !! k).
Proof.
  destruct (startSingletons (KStr <$> ["s1"; "s2"; "s3"]) running_broker)
    as [[res | e] b'] eqn:Hrun.
  - exists res, b'. split; [done |].
    apply (startSingletons_starts_in_order ["s1"; "s2"; "s3"] res
             running_broker b'); [| done].
    apply (bool_decide_unpack _). vm_compute. exact I.
  - vm_compute in Hrun. discriminate Hrun.
Defined.

Example startSingletons_starts_unstarted_only :
  filter (unstarted running_broker) ["s1"; "s2"; "s3"] = ["s3"].
Proof. vm_compute. reflexivity. Qed.

(** *** What [startActions] composes, and in which order *)

Lemma isFunction_truthy (v : value) : isFunction v = true → truthy v = true.
Proof. by destruct v. Qed.

(** A turn of the loop of [startActions] that returns: the entry held a
    truthy value, which is returned as it is, or the compose routine was
    called with the composed requirements and the instances and returned a
    function. *)
Lemma startActions_body_Ok_inv (n : string) (res0 res1 : obj) (b b1 : Broker) :
  startActions_body (KStr n) res0 b = (Ok res1, b1) →
  ∃ a, actions b !! n = Some a ∧
       ((truthy (initializedFn a) = true ∧ b1 = b ∧
         res1 = lodash_set res0 (realName n) (initializedFn a)) ∨
        (truthy (initializedFn a) = false ∧
         ∃ bagA bagS v,
           bag_of (actions b) initializedFn "initializedFn" (a_actions a)
           = Ok bagA ∧
           bag_of (singletons b) instance "instance" (a_singletons a)
           = Ok bagS ∧
           a_fn a (trace b ++ [ActionCompose n]) bagA bagS = Ok v ∧
           isFunction v = true ∧
           b1 = with_actions (alter (set_initializedFn v) n)
                  (with_trace (λ t, t ++ [ActionCompose n]) b) ∧
           res1 = lodash_set res0 (realName n) v)).
Proof.
  intros Hrun.
  destruct (actions b !! n) as [a |] eqn:Ha.
  2:{ unfold startActions_body in Hrun. rewrite run_bind in Hrun. simpl in Hrun.
      by rewrite Ha in Hrun. }
  exists a. split; [done |].
  destruct (truthy (initializedFn a)) eqn:Htruthy.
  { left. rewrite (startActions_body_cached n res0 b a Ha Htruthy) in Hrun.
    injection Hrun as <- <-. by split_and!. }
  right. split; [done |].
  destruct (bag_of (actions b) initializedFn "initializedFn" (a_actions a))
    as [bagA |] eqn:HbagA.
  2:{ unfold startActions_body in Hrun. rewrite run_bind in Hrun. simpl in Hrun.
      rewrite Ha, Htruthy in Hrun. simpl in Hrun.
      rewrite !run_bind in Hrun. unfold liftR at 1 in Hrun.
      by rewrite HbagA in Hrun. }
  destruct (bag_of (singletons b) instance "instance" (a_singletons a))
    as [bagS |] eqn:HbagS.
  2:{ unfold startActions_body in Hrun. rewrite run_bind in Hrun. simpl in Hrun.
      rewrite Ha, Htruthy in Hrun. simpl in Hrun.
      rewrite !run_bind in Hrun. unfold liftR at 1 in Hrun.
      rewrite HbagA in Hrun. rewrite !run_bind in Hrun. unfold liftR at 1 in Hrun.
      by rewrite HbagS in Hrun. }
  destruct (a_fn a (trace b ++ [ActionCompose n]) bagA bagS) as [v |] eqn:Hv.
  2:{ unfold startActions_body in Hrun. rewrite run_bind in Hrun. simpl in Hrun.
      rewrite Ha, Htruthy in Hrun. simpl in Hrun.
      rewrite !run_bind in Hrun. unfold liftR at 1 in Hrun.
      rewrite HbagA in Hrun. rewrite !run_bind in Hrun. unfold liftR at 1 in Hrun.
      rewrite HbagS in Hrun. rewrite !run_bind in Hrun. simpl in Hrun.
      rewrite !run_bind in Hrun. simpl in Hrun. unfold liftR at 1 in Hrun.
      by rewrite Hv in Hrun. }
  rewrite (startActions_body_compose n res0 bagA bagS b a v Ha Htruthy
             HbagA HbagS Hv) in Hrun.
  exists bagA, bagS, v. destruct (isFunction v); [| done].
  injection Hrun as <- <-. by split_and!.
Qed.

Lemma startActions_loop (names : list string) :
  ∀ (res0 res : obj) (b b' : Broker),
    NoDup names →
    forM startActions_body (KStr <$> names) res0 b = (Ok res, b') →
    trace b' = trace b ++ (ActionCompose <$> filter (uncomposed b) names) ∧
    (∀ n, n ∈ names →
          ∃ a, actions b' !! n = Some a ∧ truthy (initializedFn a) = true ∧
               (uncomposed b n → isFunction (initializedFn a) = true)) ∧
    (∀ k, k ∉ names → actions b' !! k = actions b !! k) ∧
    (∀ k, ¬ uncomposed b k → actions b' !! k = actions b !! k) ∧
    singletons b' = singletons b ∧ services b' = services b ∧
    plugins b' = plugins b.
Proof.
  induction names as [| n names IH]; intros res0 res b b' Hnd Hrun.
  { simpl in Hrun. injection Hrun as <- <-. rewrite app_nil_r.
    split_and!; try done. intros n Hn. by apply elem_of_nil in Hn. }
  apply NoDup_cons in Hnd as [Hn Hnd]. simpl in Hrun. rewrite run_bind in Hrun.
  destruct (startActions_body (KStr n) res0 b) as [[res1 | e] b1] eqn:Hbody;
    [| done].
  destruct (IH res1 res b1 b' Hnd Hrun)
    as (Htr & Hnames & Hframe & Hkept & Hsingletons & Hservices & Hplugins).
  destruct (startActions_body_Ok_inv n res0 res1 b b1 Hbody)
    as (a & Ha & [(Htruthy & -> & ->) |
                  (Htruthy & bagA & bagS & v & HbagA & HbagS & Hv & Hfun & -> & ->)]).
  - (* the entry holds a truthy value: nothing is called *)
    assert (¬ uncomposed b n) as Hn'.
    { unfold uncomposed. rewrite Ha. simpl. by rewrite Htruthy. }
    rewrite filter_cons, decide_False by done.
    split_and!; try done.
    + intros m [-> | Hm]%elem_of_cons; [| by apply Hnames].
      exists a. rewrite (Hframe n Hn). by split_and!.
    + intros k [Hk1 Hk2]%not_elem_of_cons. by apply Hframe.
  - (* the compose routine is called *)
    assert (uncomposed b n) as Hn'.
    { unfold uncomposed. rewrite Ha. simpl. by rewrite Htruthy. }
    rewrite filter_cons, decide_True by done.
    simpl in *.
    assert (∀ k, k ≠ n →
              alter (set_initializedFn v) n (actions b) !! k = actions b !! k)
      as Hother.
    { intros k Hne. by rewrite lookup_alter_ne. }
    split_and!; try done.
    + rewrite Htr, <- (assoc_L (++)). simpl. do 2 f_equal.
      apply (f_equal (fmap ActionCompose)).
      apply filter_ext_elem_of. intros m Hm. unfold uncomposed. simpl.
      rewrite Hother; [done |]. intros ->. by destruct Hn.
    + intros m [-> | Hm]%elem_of_cons.
      * exists (set_initializedFn v a).
        rewrite (Hframe n Hn), lookup_alter_eq, Ha. simpl.
        split_and!; [done | by apply isFunction_truthy | done].
      * destruct (Hnames m Hm) as (a' & Ha' & Htruthy' & Hfun').
        exists a'. split_and!; [done | done |]. intros Hm'. apply Hfun'.
        unfold uncomposed in *. simpl. rewrite Hother; [done |].
        intros ->. by destruct Hn.
    + intros k [Hk1 Hk2]%not_elem_of_cons. by rewrite (Hframe k Hk2), Hother.
    + intros k Hk. assert (k ≠ n) as Hne by (intros ->; by destruct Hk).
      rewrite Hkept, Hother; [done | done |].
      unfold uncomposed. simpl. by rewrite Hother.
Qed.

(** X10.  What a [startActions] that returns has done, for names without a
    duplicate: it called the compose routines of the names whose entry held
    no truthy value, in the order of the list, and nothing else; every
    listed entry holds a truthy value afterwards, a function when this call
    composed it; the entries outside the list, and those that held a truthy
    value already, are as they were, and no singleton or service is
    touched. *)
Theorem startActions_composes_in_order (names : list string)
    (res : obj) (b b' : Broker) :
  NoDup names →
  startActions (KStr <$> names) b = (Ok res, b') →
  trace b' = trace b ++ (ActionCompose <$> filter (uncomposed b) names) ∧
  (∀ n, n ∈ names →
        ∃ a, actions b' !! n = Some a ∧ truthy (initializedFn a) = true ∧
             (uncomposed b n → isFunction (initializedFn a) = true)) ∧
  (∀ k, k ∉ names ∨ ¬ uncomposed b k → actions b' !! k = actions b !! k) ∧
  singletons b' = singletons b ∧ services b' = services b.
Proof.
  intros Hnd Hrun.
  destruct (startActions_loop names ∅ res b b' Hnd Hrun)
    as (Htr & Hnames & Hframe & Hkept & Hsingletons & Hservices & _).
  split_and!; try done.
  intros k [Hk | Hk]; [by apply Hframe | by apply Hkept].
Qed.

Lemma startActions_composes_in_order_witness :
  ∃ res b',
    startActions (KStr <$> ["doIt"; "doThat"]) action_service_broker
    = (Ok res, b') ∧
    trace b' = trace action_service_broker
               ++ (ActionCompose <$> filter (uncomposed action_service_broker)
                                       ["doIt"; "doThat"]) ∧
    (∀ n, n ∈ ["doIt"; "doThat"] →
          ∃ a, actions b' !! n = Some a ∧ truthy (initializedFn a) = true ∧
               (uncomposed action_service_broker n →
                isFunction (initializedFn a) = true)) ∧
    (∀ k, k ∉ ["doIt"; "doThat"] ∨ ¬ uncomposed action_service_broker k →
          actions b' !! k = actions action_service_broker !! k) ∧
    singletons b' = singletons action_service_broker ∧
    services b' = services action_service_broker.
Proof.
  destruct (startActions (KStr <$> ["doIt"; "doThat"]) action_service_broker)
    as [[res | e] b'] eqn:Hrun.
  - exists res, b'. split; [done |].
    apply (startActions_composes_in_order ["doIt"; "doThat"] res
             action_service_broker b'); [| done].
    apply (bool_decide_unpack _). vm_compute. exact I.
  - vm_compute in Hrun. discriminate Hrun.
Defined.

(** *** A [startService] that returns *)

Lemma startService_Ok_inv (sort : list (Key * Key) → result (list Key))
    (name : string) (b b' : Broker) (srv : Service) :
  services b !! name = Some srv →
  isRunning srv = false →
  startService sort name b = (Ok (), b') →
  ∃ l la resS resA resL b1 b2 b3,
    sortSingletons sort (singletons b) (srv_singletons srv) = Ok l ∧
    sortActions sort (actions b) (actions_to_sort name srv) l = Ok la ∧
    startSingletons l
      (with_services (alter (set_dep_actions la) name)
         (with_services (alter (set_dep_singletons l) name)
            (with_services (alter (set_isRunning true) name) b)))
    = (Ok resS, b1) ∧
    startActions la b1 = (Ok resA, b2) ∧
    startActions
      (KStr <$> ((λ a, name +:+ "#" +:+ a) <$> srv_localActionNames srv)) b2
    = (Ok resL, b3) ∧
    startHandler srv (trace b3 ++ [ServiceStart name])
      (lodash_pick resS (srv_singletons srv))
      (lodash_pick resA (srv_actions srv)) resL = Ok () ∧
    b' = with_trace (λ t, t ++ [ServiceStart name]) b3.
Proof.
  intros Hsrv Hrunning. unfold startService.
  rewrite run_bind, (getServiceByName_run name b srv Hsrv).
  rewrite run_bind, (isServiceRunning_run name b srv Hsrv), Hrunning.
  rewrite !run_bind. simpl. rewrite !run_bind. simpl. unfold liftR at 1.
  destruct (sortSingletons sort (singletons b) (srv_singletons srv))
    as [l |] eqn:Hl; [| done].
  rewrite !run_bind. simpl. rewrite !run_bind. unfold liftR at 1. simpl.
  fold (actions_to_sort name srv).
  destruct (sortActions sort (actions b) (actions_to_sort name srv) l)
    as [la |] eqn:Hla; [| done].
  rewrite !run_bind. simpl. rewrite !run_bind.
  match goal with
  | |- context [startSingletons l ?b0] =>
      destruct (startSingletons l b0) as [[resS | e] b1] eqn:HresS; [| done]
  end.
  rewrite !run_bind.
  destruct (startActions la b1) as [[resA | e] b2] eqn:HresA; [| done].
  rewrite !run_bind.
  match goal with
  | |- context [startActions ?names b2] =>
      destruct (startActions names b2) as [[resL | e] b3] eqn:HresL; [| done]
  end.
  rewrite !run_bind. simpl. rewrite !run_bind. simpl. unfold liftR.
  match goal with
  | |- context [startHandler srv ?tr ?x ?y ?z] =>
      destruct (startHandler srv tr x y z) as [[] |] eqn:Hhandler; [| done]
  end.
  intros [= <-]. exists l, la, resS, resA, resL, b1, b2, b3. by split_and!.
Qed.

Lemma sortSingletons_Ok_inv (sort : list (Key * Key) → result (list Key))
    (singletons : gmap string Singleton) (required : list string)
    (l : list Key) :
  toposort_contract sort →
  sortSingletons sort singletons required = Ok l →
  closed singletons s_singletons required ∧
  acyclic_from singletons s_singletons required ∧
  resolution_order singletons s_singletons required l.
Proof.
  intros Hsort Hl.
  destruct (collect singletons s_singletons Singletons required)
    as [all |] eqn:Hrun.
  2:{ unfold sortSingletons in Hl. by rewrite Hrun in Hl. }
  pose proof (collect_Ok_closed _ _ _ _ _ Hrun) as Hclosed.
  pose proof (collect_Ok_acyclic _ _ _ _ _ Hrun) as Hacyc.
  destruct (sortSingletons_order sort Hsort singletons required Hclosed Hacyc)
    as (l' & Hl' & Horder).
  rewrite Hl in Hl'. injection Hl' as <-. by split_and!.
Qed.

Lemma sortActions_Ok_inv (sort : list (Key * Key) → result (list Key))
    (actions : gmap string Action) (required : list string)
    (singletons l : list Key) :
  toposort_contract sort →
  sortActions sort actions required singletons = Ok l →
  closed actions a_actions required ∧
  acyclic_from actions a_actions required ∧
  singletons_included actions required singletons ∧
  resolution_order actions a_actions required l.
Proof.
  intros Hsort Hl.
  destruct (collect actions a_actions Actions required) as [all |] eqn:Hrun.
  2:{ unfold sortActions in Hl. by rewrite Hrun in Hl. }
  pose proof (collect_Ok_closed _ _ _ _ _ Hrun) as Hclosed.
  pose proof (collect_Ok_acyclic _ _ _ _ _ Hrun) as Hacyc.
  destruct (collect_Ok_reaches _ _ _ _ _ Hrun) as [_ Hall].
  destruct (forEach (push_action_edges actions singletons) all
              ((λ i, (KSym "service-action", KStr i)) <$> required))
    as [g |] eqn:Hg.
  2:{ unfold sortActions in Hl. rewrite Hrun, bind_Ok in Hl. simpl in Hl.
      by rewrite Hg in Hl. }
  assert (singletons_included actions required singletons) as Hincl.
  { intros x a Hx Ha. apply difference_nil.
    destruct (forEach_Ok_inv _ _ _ _ x Hg (proj2 (Hall x) Hx)) as (g1 & g2 & Hpush).
    unfold push_action_edges in Hpush. rewrite Ha in Hpush. simpl in Hpush.
    by destruct (difference (a_singletons a) singletons). }
  destruct (sortActions_order sort Hsort actions required singletons
              Hclosed Hacyc Hincl) as (l' & Hl' & Horder).
  rewrite Hl in Hl'. injection Hl' as <-. by split_and!.
Qed.

Lemma before_fmap_inv {A B : Type} (f : A → B) `{!Inj (=) (=) f}
    (x y : A) (l : list A) :
  before (f x) (f y) (f <$> l) → before x y l.
Proof.
  intros (k1 & k2 & k3 & Heq).
  apply fmap_app_inv in Heq as (l1 & rest & -> & Hrest & ->).
  symmetry in Hrest.
  apply fmap_cons_inv in Hrest as (x' & rest' & Hx & Hrest & ->).
  apply (inj f) in Hx as <-. symmetry in Hrest.
  apply fmap_app_inv in Hrest as (l2 & rest & -> & Hrest & ->).
  symmetry in Hrest.
  apply fmap_cons_inv in Hrest as (y' & l3 & Hy & -> & ->).
  apply (inj f) in Hy as <-. by exists l1, l2, l3.
Qed.

(** A resolved list, as a list of names. *)
Lemma resolution_order_names {C : Type} (registry : gmap string C)
    (requires : C → list string) (required : list string) (l : list Key) :
  resolution_order registry requires required l →
  ∃ names, l = KStr <$> names ∧ NoDup names ∧
           (∀ x, x ∈ names ↔ reaches (requires_of registry requires) required x) ∧
           ∀ a b, reaches (requires_of registry requires) required a →
                  tc (requires_of registry requires) a b →
                  before b a names.
Proof.
  intros (Hnd & Hl & Hbefore).
  destruct (keys_are_names l) as (names & ->).
  { intros k (x & -> & _)%Hl. by exists x. }
  exists names. split_and!; [done | by apply NoDup_fmap in Hnd; [| apply _] | |].
  - intros x. rewrite <- elem_of_KStr_fmap, Hl. split.
    + by intros (y & [= <-] & Hy).
    + intros Hx. by exists x.
  - intros a b Ha Hab. by apply (before_fmap_inv KStr), Hbefore.
Qed.

Lemma before_filter {A : Type} (P : A → Prop) `{∀ x, Decision (P x)}
    (x y : A) (l : list A) :
  before x y l → P x → P y → before x y (filter P l).
Proof.
  intros (l1 & l2 & l3 & ->) Hx Hy.
  exists (filter P l1), (filter P l2), (filter P l3).
  rewrite filter_app, filter_cons, decide_True by done.
  by rewrite filter_app, filter_cons, decide_True by done.
Qed.

Lemma before_fmap {A B : Type} (f : A → B) (x y : A) (l : list A) :
  before x y l → before (f x) (f y) (f <$> l).
Proof.
  intros (l1 & l2 & l3 & ->). exists (f <$> l1), (f <$> l2), (f <$> l3).
  by rewrite fmap_app, fmap_cons, fmap_app, fmap_cons.
Qed.

Lemma before_app_l {A : Type} (x y : A) (l l' : list A) :
  before x y l → before x y (l ++ l').
Proof.
  intros (l1 & l2 & l3 & ->). exists l1, l2, (l3 ++ l').
  by rewrite <- (assoc_L (++)), <- app_comm_cons, <- (assoc_L (++)).
Qed.

Lemma before_app_r {A : Type} (x y : A) (l l' : list A) :
  before x y l' → before x y (l ++ l').
Proof.
  intros (l1 & l2 & l3 & ->). exists (l ++ l1), l2, l3.
  by rewrite <- !(assoc_L (++)).
Qed.

Lemma before_app {A : Type} (x y : A) (l l' : list A) :
  x ∈ l → y ∈ l' → before x y (l ++ l').
Proof.
  intros (l1 & l2 & ->)%list_elem_of_split (l3 & l4 & ->)%list_elem_of_split.
  exists l1, (l2 ++ l3), l4.
  by rewrite <- (assoc_L (++)), <- app_comm_cons, <- (assoc_L (++)).
Qed.

(** [startActions] over names whose entries all hold a truthy value calls
    nothing and changes nothing. *)
Lemma startActions_all_cached (names : list string) (res0 : obj) (b : Broker) :
  (∀ n, n ∈ names →
        ∃ a, actions b !! n = Some a ∧ truthy (initializedFn a) = true) →
  ∃ res, forM startActions_body (KStr <$> names) res0 b = (Ok res, b).
Proof.
  revert res0. induction names as [| n names IH]; intros res0 Hnames; simpl.
  - by exists res0.
  - destruct (Hnames n) as (a & Ha & Htruthy); [by left |].
    rewrite run_bind, (startActions_body_cached n res0 b a Ha Htruthy).
    apply IH. intros m Hm. apply Hnames. by right.
Qed.

(** Everything a [startService] that returns has done. *)
Lemma startService_Ok_run (sort : list (Key * Key) → result (list Key))
    (name : string) (b b' : Broker) (srv : Service) :
  toposort_contract sort →
  services b !! name = Some srv →
  isRunning srv = false →
  startService sort name b = (Ok (), b') →
  ∃ names anames,
    resolution_order (singletons b) s_singletons (srv_singletons srv)
      (KStr <$> names) ∧
    resolution_order (actions b) a_actions (actions_to_sort name srv)
      (KStr <$> anames) ∧
    services b'
    = alter (set_dep_actions (KStr <$> anames)) name
        (alter (set_dep_singletons (KStr <$> names)) name
           (alter (set_isRunning true) name (services b))) ∧
    trace b' = trace b ++ (SingletonStart <$> filter (unstarted b) names)
                 ++ (ActionCompose <$> filter (uncomposed b) anames)
                 ++ [ServiceStart name] ∧
    (∀ n, n ∈ names → is_started n b') ∧
    (∀ n, n ∈ anames →
          ∃ a, actions b' !! n = Some a ∧ truthy (initializedFn a) = true) ∧
    (∀ k, k ∉ names ∨ ¬ unstarted b k → singletons b' !! k = singletons b !! k) ∧
    (∀ k, k ∉ anames ∨ ¬ uncomposed b k → actions b' !! k = actions b !! k).
Proof.
  intros Hsort Hsrv Hrunning Hrun.
  destruct (startService_Ok_inv sort name b b' srv Hsrv Hrunning Hrun)
    as (l & la & resS & resA & resL & b1 & b2 & b3 &
        Hl & Hla & HresS & HresA & HresL & Hhandler & ->).
  destruct (sortSingletons_Ok_inv sort _ _ l Hsort Hl) as (_ & _ & Horder).
  destruct (sortActions_Ok_inv sort _ _ _ la Hsort Hla) as (_ & _ & _ & Hordera).
  destruct (resolution_order_names _ _ _ _ Horder)
    as (names & -> & Hnd & Hnames & _).
  destruct (resolution_order_names _ _ _ _ Hordera)
    as (anames & -> & Hnda & Hanames & _).
  destruct (startSingletons_loop names ∅ resS _ b1 Hnd HresS)
    as (Htr1 & Hstarted1 & Hframe1 & Hkept1 & Hactions1 & Hservices1 & _).
  destruct (startActions_loop anames ∅ resA b1 b2 Hnda HresA)
    as (Htr2 & Hcomposed2 & Hframe2 & Hkept2 & Hsingletons2 & Hservices2 & _).
  simpl in Htr1, Hframe1, Hkept1, Hactions1, Hservices1.
  assert (∀ k, uncomposed b1 k ↔ uncomposed b k) as Huncomposed.
  { intros k. unfold uncomposed. by rewrite Hactions1. }
  (* the local actions were composed with the other actions *)
  destruct (startActions_all_cached
              ((λ a, name +:+ "#" +:+ a) <$> srv_localActionNames srv) ∅ b2)
    as (resL' & HresL').
  { intros n Hn. destruct (Hcomposed2 n) as (a & Ha & Htruthy & _); [| by eauto].
    apply Hanames. exists n. split; [| apply rtc_refl].
    unfold actions_to_sort. apply elem_of_app. by right. }
  unfold startActions in HresL. rewrite HresL' in HresL. injection HresL as _ <-.
  exists names, anames. simpl. split_and!; [done | done | | | | | |].
  - by rewrite Hservices2, Hservices1.
  - rewrite Htr2, Htr1, <- !(assoc_L (++)). do 2 f_equal.
    apply (f_equal (λ l, (ActionCompose <$> l) ++ [ServiceStart name])).
    apply filter_ext_elem_of. intros k _. apply Huncomposed.
  - intros n Hn. destruct (Hstarted1 n Hn) as (s & Hs & Hst & _).
    exists s. simpl. by rewrite Hsingletons2.
  - intros n Hn. destruct (Hcomposed2 n Hn) as (a & Ha & Htruthy & _). by exists a.
  - intros k Hk. rewrite Hsingletons2. destruct Hk as [Hk | Hk]; [by apply Hframe1 |].
    by apply Hkept1.
  - intros k Hk. rewrite <- Hactions1. destruct Hk as [Hk | Hk]; [by apply Hframe2 |].
    apply Hkept2. by rewrite Huncomposed.
Qed.

(** X11.  After a [startService] that returns, for a sort that meets the
    contract and a service that was not running: the service is marked
    running and holds the two resolved lists, each in dependency order;
    every singleton the service reaches is started; and every action it
    reaches, its local actions included, holds a truthy composed value. *)
Theorem startService_Ok_post (sort : list (Key * Key) → result (list Key))
    (name : string) (b b' : Broker) (srv : Service) :
  toposort_contract sort →
  services b !! name = Some srv →
  isRunning srv = false →
  startService sort name b = (Ok (), b') →
  (∃ srv', services b' !! name = Some srv' ∧ isRunning srv' = true ∧
           resolution_order (singletons b) s_singletons (srv_singletons srv)
             (dep_singletons srv') ∧
           resolution_order (actions b) a_actions (actions_to_sort name srv)
             (dep_actions srv')) ∧
  (∀ x, reaches (requires_of (singletons b) s_singletons) (srv_singletons srv) x →
        is_started x b') ∧
  (∀ x, reaches (requires_of (actions b) a_actions) (actions_to_sort name srv) x →
        ∃ a, actions b' !! x = Some a ∧ truthy (initializedFn a) = true).
Proof.
  intros Hsort Hsrv Hrunning Hrun.
  destruct (startService_Ok_run sort name b b' srv Hsort Hsrv Hrunning Hrun)
    as (names & anames & Horder & Hordera & Hservices & _ & Hstarted & Hcomposed & _).
  destruct (resolution_order_names _ _ _ _ Horder) as (names' & Heq & _ & Hnames & _).
  apply (inj (fmap KStr)) in Heq as <-.
  destruct (resolution_order_names _ _ _ _ Hordera) as (anames' & Heq & _ & Hanames & _).
  apply (inj (fmap KStr)) in Heq as <-.
  split_and!.
  - exists (set_dep_actions (KStr <$> anames)
              (set_dep_singletons (KStr <$> names) (set_isRunning true srv))).
    rewrite Hservices, !lookup_alter_eq, Hsrv. by split_and!.
  - intros x Hx. by apply Hstarted, Hnames.
  - intros x Hx. by apply Hcomposed, Hanames.
Qed.

Lemma startService_Ok_post_witness :
  (∃ srv', services composed_broker !! "svc" = Some srv' ∧ isRunning srv' = true ∧
           resolution_order (singletons action_service_broker) s_singletons
             ["s1"; "s2"] (dep_singletons srv') ∧
           resolution_order (actions action_service_broker) a_actions
             (actions_to_sort "svc" (service_of ["s1"; "s2"] ["doThat"] false []))
             (dep_actions srv')) ∧
  (∀ x, reaches (requires_of (singletons action_service_broker) s_singletons)
          ["s1"; "s2"] x →
        is_started x composed_broker) ∧
  (∀ x, reaches (requires_of (actions action_service_broker) a_actions)
          (actions_to_sort "svc" (service_of ["s1"; "s2"] ["doThat"] false [])) x →
        ∃ a, actions composed_broker !! x = Some a ∧
             truthy (initializedFn a) = true).
Proof.
  apply (startService_Ok_post Toposort.toposort "svc" action_service_broker
           composed_broker (service_of ["s1"; "s2"] ["doThat"] false [])).
  - exact ToposortFacts.toposort_meets_contract.
  - reflexivity.
  - reflexivity.
  - vm_compute. reflexivity.
Defined.

(** X12.  Every call a [startService] that returns has made, for a sort that
    meets the contract and a service that was not running: first the start
    routines of the singletons it reaches that were not started, each once
    and every one after the singletons it depends on; then the compose
    routines of the actions it reaches that held no truthy value, each once
    and every one after the actions it depends on; then the start handler.
    The third loop, over the local actions, calls nothing. *)
Theorem startService_calls_dependencies_first
    (sort : list (Key * Key) → result (list Key))
    (name : string) (b b' : Broker) (srv : Service) :
  toposort_contract sort →
  services b !! name = Some srv →
  isRunning srv = false →
  startService sort name b = (Ok (), b') →
  ∃ starts composes,
    trace b' = trace b ++ (SingletonStart <$> starts)
                 ++ (ActionCompose <$> composes) ++ [ServiceStart name] ∧
    NoDup starts ∧ NoDup composes ∧
    (∀ x, x ∈ starts ↔
          reaches (requires_of (singletons b) s_singletons) (srv_singletons srv) x ∧
          unstarted b x) ∧
    (∀ x, x ∈ composes ↔
          reaches (requires_of (actions b) a_actions) (actions_to_sort name srv) x ∧
          uncomposed b x) ∧
    (∀ x y, x ∈ starts → y ∈ starts →
            tc (requires_of (singletons b) s_singletons) x y →
            before y x starts) ∧
    (∀ x y, x ∈ composes → y ∈ composes →
            tc (requires_of (actions b) a_actions) x y →
            before y x composes).
Proof.
  intros Hsort Hsrv Hrunning Hrun.
  destruct (startService_Ok_run sort name b b' srv Hsort Hsrv Hrunning Hrun)
    as (names & anames & Horder & Hordera & _ & Htr & _).
  destruct (resolution_order_names _ _ _ _ Horder)
    as (names' & Heq & Hnd & Hnames & Hbefore).
  apply (inj (fmap KStr)) in Heq as <-.
  destruct (resolution_order_names _ _ _ _ Hordera)
    as (anames' & Heq & Hnda & Hanames & Hbeforea).
  apply (inj (fmap KStr)) in Heq as <-.
  exists (filter (unstarted b) names), (filter (uncomposed b) anames).
  split_and!; [done | by apply NoDup_filter | by apply NoDup_filter | | | |].
  - intros x. by rewrite list_elem_of_filter, Hnames, (comm (∧)).
  - intros x. by rewrite list_elem_of_filter, Hanames, (comm (∧)).
  - intros x y [Hx Hx']%list_elem_of_filter [Hy _]%list_elem_of_filter Hxy.
    apply before_filter; [| done | done]. apply Hbefore; [by apply Hnames | done].
  - intros x y [Hx Hx']%list_elem_of_filter [Hy _]%list_elem_of_filter Hxy.
    apply before_filter; [| done | done]. apply Hbeforea; [by apply Hanames | done].
Qed.

Lemma startService_calls_dependencies_first_witness :
  ∃ starts composes,
    trace composed_broker
    = trace action_service_broker ++ (SingletonStart <$> starts)
        ++ (ActionCompose <$> composes) ++ [ServiceStart "svc"] ∧
    NoDup starts ∧ NoDup composes ∧
    (∀ x, x ∈ starts ↔
          reaches (requires_of (singletons action_service_broker) s_singletons)
            ["s1"; "s2"] x ∧
          unstarted action_service_broker x) ∧
    (∀ x, x ∈ composes ↔
          reaches (requires_of (actions action_service_broker) a_actions)
            (actions_to_sort "svc" (service_of ["s1"; "s2"] ["doThat"] false [])) x ∧
          uncomposed action_service_broker x) ∧
    (∀ x y, x ∈ starts → y ∈ starts →
            tc (requires_of (singletons action_service_broker) s_singletons) x y →
            before y x starts) ∧
    (∀ x y, x ∈ composes → y ∈ composes →
            tc (requires_of (actions action_service_broker) a_actions) x y →
            before y x composes).
Proof.
  apply (startService_calls_dependencies_first Toposort.toposort "svc"
           action_service_broker composed_broker
           (service_of ["s1"; "s2"] ["doThat"] false [])).
  - exact ToposortFacts.toposort_meets_contract.
  - reflexivity.
  - reflexivity.
  - vm_compute. reflexivity.
Defined.

(** *** Calls that throw *)

Global Instance stays_running_preorder (name : string) :
  PreOrder (stays_running name).
Proof.
  split; [intros b H; exact H | intros b1 b2 b3 H12 H23 H; by apply H23, H12].
Qed.

Global Instance same_services_preorder : PreOrder same_services.
Proof.
  split; [intros b; reflexivity | intros b1 b2 b3 H12 H23].
  unfold same_services in *. congruence.
Qed.

Lemma stays_running_same_services (name : string) (b b' : Broker) :
  services b' = services b → stays_running name b b'.
Proof. intros Hsame (srv & Hsrv & Hrunning). exists srv. by rewrite Hsame. Qed.

Lemma stays_running_alter (name : string) (f : Service → Service) (b : Broker) :
  (∀ srv, isRunning srv = true → isRunning (f srv) = true) →
  stays_running name b (with_services (alter f name) b).
Proof.
  intros Hf (srv & Hsrv & Hrunning). exists (f srv). simpl.
  rewrite lookup_alter_eq, Hsrv. split; [done | by apply Hf].
Qed.

Lemma keeps_same_services_startSingletons_body (k : Key) (res : obj) :
  keeps same_services (startSingletons_body k res).
Proof.
  unfold startSingletons_body. apply keeps_bind; [apply _ | apply keeps_get; apply _ |].
  intros b. destruct k as [n | d]; simpl; [| apply keeps_throw; apply _].
  destruct (singletons b !! n) as [s |]; [| apply keeps_throw; apply _].
  apply keeps_bind; [apply _ | | intros; apply keeps_ret; apply _].
  destruct (negb (started s)); [| apply keeps_ret; apply _].
  apply keeps_bind; [apply _ | apply keeps_liftR; apply _ |]. intros bag.
  apply keeps_bind; [apply _ | by apply keeps_modify |].
  intros _. apply keeps_bind; [apply _ | by apply keeps_modify |].
  intros _. apply keeps_bind; [apply _ | apply keeps_get; apply _ |]. intros b1.
  apply keeps_bind; [apply _ | apply keeps_liftR; apply _ |]. intros v.
  apply keeps_bind; [apply _ | | intros; apply keeps_ret; apply _].
  by apply keeps_modify.
Qed.

Lemma keeps_same_services_startActions_body (k : Key) (res : obj) :
  keeps same_services (startActions_body k res).
Proof.
  unfold startActions_body. apply keeps_bind; [apply _ | apply keeps_get; apply _ |].
  intros b. destruct k as [n | d]; simpl; [| apply keeps_throw; apply _].
  destruct (actions b !! n) as [a |]; [| apply keeps_throw; apply _].
  apply keeps_bind; [apply _ | | intros; apply keeps_ret; apply _].
  destruct (negb (truthy (initializedFn a))); [| apply keeps_ret; apply _].
  apply keeps_bind; [apply _ | apply keeps_liftR; apply _ |]. intros bagA.
  apply keeps_bind; [apply _ | apply keeps_liftR; apply _ |]. intros bagS.
  apply keeps_bind; [apply _ | by apply keeps_modify |].
  intros _. apply keeps_bind; [apply _ | apply keeps_get; apply _ |]. intros b1.
  apply keeps_bind; [apply _ | apply keeps_liftR; apply _ |]. intros v.
  apply keeps_bind; [apply _ | by apply keeps_modify |].
  intros _. destruct (negb (isFunction v));
    [apply keeps_throw; apply _ | apply keeps_ret; apply _].
Qed.

Lemma keeps_same_services_stopService_body (k : Key) (u : ()) :
  keeps same_services (stopService_body k u).
Proof.
  unfold stopService_body. apply keeps_bind; [apply _ | apply keeps_get; apply _ |].
  intros b. destruct k as [n | d]; simpl; [| apply keeps_throw; apply _].
  destruct (singletons b !! n) as [s |]; [| apply keeps_throw; apply _].
  apply keeps_bind; [apply _ | by apply keeps_modify |].
  intros _. apply keeps_bind; [apply _ | apply keeps_get; apply _ |]. intros b1.
  apply keeps_bind; [apply _ | apply keeps_liftR; apply _ |]. intros _.
  by apply keeps_modify.
Qed.

(** Once [startService] has marked the service, everything it does next
    keeps what its writes and the turns of its loops keep. *)
Lemma startService_from_marked (Rel : relation Broker) `{!PreOrder Rel}
    (sort : list (Key * Key) → result (list Key)) (name : string)
    (b : Broker) (srv : Service) :
  (∀ l b, Rel b (with_services (alter (set_dep_singletons l) name) b)) →
  (∀ l b, Rel b (with_services (alter (set_dep_actions l) name) b)) →
  (∀ b, Rel b (with_trace (λ t, t ++ [ServiceStart name]) b)) →
  (∀ k res, keeps Rel (startSingletons_body k res)) →
  (∀ k res, keeps Rel (startActions_body k res)) →
  services b !! name = Some srv →
  isRunning srv = false →
  Rel (with_services (alter (set_isRunning true) name) b)
    (startService sort name b).2.
Proof.
  intros Hdeps Hdepa Hhandler Hsingletons Hactions Hsrv Hrunning.
  unfold startService.
  rewrite run_bind, (getServiceByName_run name b srv Hsrv).
  rewrite run_bind, (isServiceRunning_run name b srv Hsrv), Hrunning.
  rewrite run_bind. simpl. apply keeps_at.
  apply keeps_bind; [done | by apply keeps_get |]. intros b0.
  apply keeps_bind; [done | by apply keeps_liftR |]. intros ss.
  apply keeps_bind; [done | by apply keeps_modify |]. intros _.
  apply keeps_bind; [done | by apply keeps_liftR |]. intros acts.
  apply keeps_bind; [done | by apply keeps_modify |]. intros _.
  apply keeps_bind; [done | by apply keeps_forM |]. intros singletons.
  apply keeps_bind; [done | by apply keeps_forM |]. intros actions.
  apply keeps_bind; [done | by apply keeps_forM |]. intros localActions.
  apply keeps_bind; [done | by apply keeps_modify |]. intros _.
  apply keeps_bind; [done | by apply keeps_get | intros; by apply keeps_liftR].
Qed.

(** X13.  A [startService] that throws is final, whatever threw: the
    resolution, a start routine, a compose routine or the start handler.
    The service stays marked running, so [isServiceRunning] answers [true]
    and a repeated [startService] returns at once without calling anything;
    only [stopService] makes the service startable again. *)
Theorem startService_failure_is_final
    (sort : list (Key * Key) → result (list Key)) (name : string)
    (b b' : Broker) (srv : Service) (e : error) :
  services b !! name = Some srv →
  startService sort name b = (Throw e, b') →
  isServiceRunning name b' = (Ok true, b') ∧
  ∀ sort', startService sort' name b' = (Ok (), b').
Proof.
  intros Hsrv Hrun.
  destruct (isRunning srv) eqn:Hrunning.
  { by rewrite (startService_running sort name b srv Hsrv Hrunning) in Hrun. }
  assert (is_running name b') as (srv' & Hsrv' & Hrunning').
  { pose proof (startService_from_marked (stays_running name) sort name b srv)
      as Hkept.
    rewrite Hrun in Hkept. apply Hkept; try done.
    - intros l b0. by apply stays_running_alter.
    - intros l b0. by apply stays_running_alter.
    - intros b0. by apply stays_running_same_services.
    - intros k res b0. apply stays_running_same_services.
      apply keeps_same_services_startSingletons_body.
    - intros k res b0. apply stays_running_same_services.
      apply keeps_same_services_startActions_body.
    - exists (set_isRunning true srv). simpl. by rewrite lookup_alter_eq, Hsrv. }
  split.
  - by rewrite (isServiceRunning_run name b' srv' Hsrv'), Hrunning'.
  - intros sort'. by eapply startService_running.
Qed.

Lemma startService_failure_is_final_witness :
  let b' := (startService Toposort.toposort "svc" failing_start_broker).2 in
  isServiceRunning "svc" b' = (Ok true, b') ∧
  ∀ sort', startService sort' "svc" b' = (Ok (), b').
Proof.
  apply (startService_failure_is_final Toposort.toposort "svc"
           failing_start_broker
           (startService Toposort.toposort "svc" failing_start_broker).2
           (service_of ["db"] [] false []) (Error "no connection")).
  - reflexivity.
  - vm_compute. reflexivity.
Defined.

Lemma bind_Throw_inv {A B : Type} (m : M A) (k : A → M B) (b b' : Broker)
    (e : error) :
  (m ≫= k) b = (Throw e, b') →
  m b = (Throw e, b') ∨ ∃ a b1, m b = (Ok a, b1) ∧ k a b1 = (Throw e, b').
Proof.
  rewrite run_bind. destruct (m b) as [[a | e0] b1]; [by eauto |].
  intros [= -> ->]. by left.
Qed.

(** X14.  A [stopService] that throws leaves every service entry as it was:
    [isRunning] is cleared by the last statement only.  The service whose
    stop handler or stop routine threw is therefore still marked running,
    with its cached lists, and can be stopped again. *)
Theorem stopService_failure_keeps_running (name : string) (b b' : Broker)
    (e : error) :
  stopService name b = (Throw e, b') →
  services b' = services b ∧
  (is_Some (services b !! name) → isServiceRunning name b' = (Ok true, b')).
Proof.
  intros Hrun. unfold stopService in Hrun.
  destruct (services b !! name) as [srv |] eqn:Hsrv.
  2:{ unfold isServiceRunning in Hrun.
      rewrite !run_bind, (getServiceByName_missing name b Hsrv) in Hrun.
      injection Hrun as _ <-. split; [done |]. by intros [? [=]]. }
  rewrite run_bind, (isServiceRunning_run name b srv Hsrv) in Hrun.
  destruct (isRunning srv) eqn:Hrunning; simpl in Hrun; [| done].
  assert (services b' = services b) as Hsame.
  { rewrite run_bind, (getServiceByName_run name b srv Hsrv) in Hrun.
    apply bind_Throw_inv in Hrun as [Hrun | ([] & b2 & Hhandler & Hrun)].
    { destruct (stopHandler srv) as [h |]; [| done].
      apply bind_Throw_inv in Hrun as [Hrun | ([] & b2 & Hemit & Hrun)]; [done |].
      injection Hemit as <-.
      apply bind_Throw_inv in Hrun as [Hrun | (b3 & b4 & Hget & Hrun)]; [done |].
      injection Hget as <- <-. by injection Hrun as _ <-. }
    assert (services b2 = services b) as H2.
    { destruct (stopHandler srv) as [h |]; [| by injection Hhandler as <-].
      pose proof (keeps_bind same_services (emit (ServiceStop name))
                    (λ _, b0 ← get; liftR (h (trace b0)))
                    ltac:(by apply keeps_modify)
                    ltac:(intros; apply keeps_bind;
                          [apply _ | apply keeps_get; apply _ |
                           intros; apply keeps_liftR; apply _]) b) as Hkept.
      by rewrite Hhandler in Hkept. }
    apply bind_Throw_inv in Hrun as [Hrun | (others & b3 & Hothers & Hrun)].
    { by rewrite getRunningServices_run in Hrun. }
    rewrite getRunningServices_run in Hothers. injection Hothers as <- <-.
    apply bind_Throw_inv in Hrun
      as [Hrun | (startedSingletons & b3 & Hreduce & Hrun)].
    { pose proof (keeps_startedSingletons_of same_services
                    (filter (λ n : string, n ≠ name) (running_names (services b2)))
                    b2) as Hkept.
      rewrite Hrun in Hkept. unfold same_services in *. simpl in Hkept. congruence. }
    pose proof (keeps_startedSingletons_of same_services
                  (filter (λ n : string, n ≠ name) (running_names (services b2)))
                  b2) as H3.
    rewrite Hreduce in H3.
    apply bind_Throw_inv in Hrun as [Hrun | ([] & b4 & Hloop & Hrun)]; [| done].
    match type of Hrun with
    | forM _ ?l () b3 = _ =>
        pose proof (keeps_forM same_services stopService_body l ()
                      keeps_same_services_stopService_body b3) as Hkept
    end.
    rewrite Hrun in Hkept. unfold same_services in *. simpl in *. congruence. }
  split; [done |]. intros _. rewrite <- Hsame in Hsrv.
  by rewrite (isServiceRunning_run name b' srv Hsrv), Hrunning.
Qed.

Lemma stopService_failure_keeps_running_witness :
  let b' := (stopService "svc" failing_stop_broker).2 in
  services b' = services failing_stop_broker ∧
  (is_Some (services failing_stop_broker !! "svc") →
   isServiceRunning "svc" b' = (Ok true, b')).
Proof.
  apply (stopService_failure_keeps_running "svc" failing_stop_broker
           (stopService "svc" failing_stop_broker).2 (Error "busy")).
  vm_compute. reflexivity.
Defined.

(** X15.  A start routine that throws leaves its singleton marked started:
    [started] is set before the routine is awaited and nothing resets it, and
    [instance] keeps its old value.  From then on a turn of
    [startSingletons] for that singleton calls nothing and hands out the old
    instance, until a [stopService] clears the flag. *)
Theorem failed_start_routine_leaves_started (n : string) (res bag : obj)
    (b : Broker) (s : Singleton) (e : error) :
  singletons b !! n = Some s →
  started s = false →
  bag_of (singletons b) instance "instance" (s_singletons s) = Ok bag →
  s_start s (trace b ++ [SingletonStart n]) bag = Throw e →
  let b1 := with_trace (λ t, t ++ [SingletonStart n])
              (with_singletons (alter (set_started true) n) b) in
  startSingletons_body (KStr n) res b = (Throw e, b1) ∧
  singletons b1 !! n = Some (set_started true s) ∧
  ∀ res', startSingletons_body (KStr n) res' b1
          = (Ok (<[n := instance s]> res'), b1).
Proof.
  intros Hs Hstarted Hbag Hstart b1.
  assert (singletons b1 !! n = Some (set_started true s)) as Hs1.
  { subst b1. simpl. by rewrite lookup_alter_eq, Hs. }
  split_and!; [| done |].
  - unfold startSingletons_body. rewrite run_bind. simpl. rewrite Hs, Hstarted.
    simpl. rewrite !run_bind. unfold liftR at 1. rewrite Hbag.
    unfold mbind, M_bind, bind, modify, emit, get, liftR, mret, M_ret, ret.
    simpl. by rewrite Hstart.
  - intros res'.
    by rewrite (startSingletons_body_cached n res' b1 (set_started true s) Hs1).
Qed.

Lemma failed_start_routine_leaves_started_witness :
  let b1 := with_trace (λ t, t ++ [SingletonStart "db"])
              (with_singletons (alter (set_started true) "db")
                 failing_start_broker) in
  startSingletons_body (KStr "db") ∅ failing_start_broker
  = (Throw (Error "no connection"), b1) ∧
  singletons b1 !! "db"
  = Some (set_started true (failing_start [] (Error "no connection"))) ∧
  ∀ res', startSingletons_body (KStr "db") res' b1
          = (Ok (<["db" := VUndefined]> res'), b1).
Proof.
  apply (failed_start_routine_leaves_started "db" ∅ ∅ failing_start_broker
           (failing_start [] (Error "no connection")) (Error "no connection"));
    reflexivity.
Defined.

(** ** What the constructor registers *)

Lemma load_files_Ok_inv {C : Type} (kind : string) (files : list (string * C)) :
  ∀ registry r,
    load_files kind files registry = Ok r →
    NoDup files.*1 ∧ (∀ n, n ∈ files.*1 → registry !! n = None) ∧
    ∀ n c, r !! n = Some c ↔ registry !! n = Some c ∨ (n, c) ∈ files.
Proof.
  unfold load_files.
  induction files as [| [name file] files IH]; intros registry r Hrun.
  { injection Hrun as <-. split_and!; [apply NoDup_nil_2 | |].
    - intros n Hn. by apply elem_of_nil in Hn.
    - intros n c. split; [by left | intros [? | Hin]; [done |]].
      by apply elem_of_nil in Hin. }
  simpl in Hrun. destruct (registry !! name) eqn:Hname; [done |].
  destruct (IH _ _ Hrun) as (Hnd & Hfresh & Hr).
  assert (name ∉ files.*1) as Hout.
  { intros Hin. specialize (Hfresh name Hin). by rewrite lookup_insert_eq in Hfresh. }
  split_and!.
  - simpl. by apply NoDup_cons.
  - intros n [-> | Hn]%elem_of_cons; [done |].
    specialize (Hfresh n Hn). rewrite lookup_insert_ne in Hfresh; [done |].
    intros ->. by destruct Hout.
  - intros n c. rewrite Hr, elem_of_cons.
    destruct (decide (name = n)) as [-> | Hne].
    + rewrite lookup_insert_eq, Hname. split.
      * intros [[= <-] | Hin]; right; [by left | by right].
      * intros [? | [[= <-] | Hin]]; [done | by left | by right].
    + rewrite lookup_insert_ne by done. split.
      * intros [? | Hin]; [by left | right; by right].
      * intros [? | [[= ? _] | Hin]]; [by left | done | by right].
Qed.


Lemma local_name_inj (service1 service2 action1 action2 : string) :
  includes_hash service1 = false →
  includes_hash service2 = false →
  local_name service1 action1 = local_name service2 action2 →
  service1 = service2 ∧ action1 = action2.
Proof.
  unfold local_name. revert service2.
  induction service1 as [| c1 s1 IH]; intros [| c2 s2] H1 H2 Heq; simpl in *.
  - change (String hash action1 = String hash action2) in Heq.
    by injection Heq as ->.
  - change (String hash action1 = String c2 (s2 +:+ "#" +:+ action2)) in Heq.
    injection Heq as <- _. by rewrite Ascii.eqb_refl in H2.
  - change (String c1 (s1 +:+ "#" +:+ action1) = String hash action2) in Heq.
    injection Heq as -> _. by rewrite Ascii.eqb_refl in H1.
  - change (String c1 (s1 +:+ "#" +:+ action1)
            = String c2 (s2 +:+ "#" +:+ action2)) in Heq.
    injection Heq as -> Heq.
    apply orb_false_iff in H1 as [_ H1]. apply orb_false_iff in H2 as [_ H2].
    destruct (IH s2 H1 H2 Heq) as [-> ->]. done.
Qed.

Lemma foldl_insert_lookup_inv {C : Type} (l : list (string * C))
    (acc : gmap string C) (k : string) (c : C) :
  foldl (λ acc kv, <[kv.1 := kv.2]> acc) acc l !! k = Some c →
  (k, c) ∈ l ∨ acc !! k = Some c.
Proof.
  induction l as [| [k0 c0] l IH] using rev_ind; simpl; [by right |].
  rewrite foldl_app. simpl. destruct (decide (k0 = k)) as [-> | Hne].
  - rewrite lookup_insert_eq. intros [= ->]. left. apply elem_of_app. right. by left.
  - rewrite lookup_insert_ne by done. intros [Hin | ?]%IH; [| by right].
    left. apply elem_of_app. by left.
Qed.

Lemma foldl_insert_lookup {C : Type} (l : list (string * C))
    (acc : gmap string C) (k : string) (c : C) :
  (k, c) ∈ l → (∀ c', (k, c') ∈ l → c' = c) →
  foldl (λ acc kv, <[kv.1 := kv.2]> acc) acc l !! k = Some c.
Proof.
  induction l as [| [k0 c0] l IH] using rev_ind; intros Hin Hfun.
  { by apply elem_of_nil in Hin. }
  rewrite foldl_app. simpl. destruct (decide (k0 = k)) as [-> | Hne].
  - rewrite lookup_insert_eq. f_equal. apply Hfun, elem_of_app. right. by left.
  - rewrite lookup_insert_ne by done. apply IH.
    + apply elem_of_app in Hin as [? | [[= ? _] | []%elem_of_nil]%elem_of_cons]; done.
    + intros c' Hc'. apply Hfun, elem_of_app. by left.
Qed.

Lemma register_localActions_entries (services : gmap string Service)
    (actions : gmap string Action) :
  register_localActions services actions
  = foldl (λ acc kv, <[kv.1 := kv.2]> acc) actions (local_entries services).
Proof.
  unfold register_localActions, local_entries. revert actions.
  induction (map_to_list services) as [| service l IH]; intros actions; [done |].
  simpl. rewrite foldl_app, IH. f_equal. rewrite foldl_fmap. done.
Qed.

Lemma elem_of_local_entries (services : gmap string Service) (k : string)
    (act : Action) :
  (k, act) ∈ local_entries services ↔
  ∃ name srv a, services !! name = Some srv ∧
                localActions srv !! a = Some act ∧ k = local_name name a.
Proof.
  unfold local_entries. rewrite list_elem_of_bind. split.
  - intros ([name srv] & Hin & Hsrv). apply elem_of_map_to_list in Hsrv.
    apply list_elem_of_fmap in Hin as ([a act'] & [= -> ->] & Hlocal).
    apply elem_of_map_to_list in Hlocal. by exists name, srv, a.
  - intros (name & srv & a & Hsrv & Hlocal & ->). exists (name, srv).
    split; [| by apply elem_of_map_to_list].
    apply list_elem_of_fmap. exists (a, act).
    split; [done | by apply elem_of_map_to_list].
Qed.

Lemma Broker_new_Ok_inv (cfg : Config) (b : Broker) :
  Broker_new cfg = Ok b →
  ∃ services actions,
    load_files "Service" (cfg_serviceFiles cfg) (cfg_services cfg) = Ok services ∧
    load_files "Action" (cfg_actionFiles cfg)
      (register_localActions services (cfg_actions cfg)) = Ok actions ∧
    b = {| singletons := cfg_singletons cfg; actions := actions;
           plugins := cfg_plugins cfg; services := services; trace := [] |}.
Proof.
  unfold Broker_new.
  destruct (load_files "Service" (cfg_serviceFiles cfg) (cfg_services cfg))
    as [services |] eqn:Hservices; [| done].
  rewrite bind_Ok.
  destruct (load_files "Action" (cfg_actionFiles cfg)
              (register_localActions services (cfg_actions cfg)))
    as [actions |] eqn:Hactions; [| done].
  rewrite bind_Ok. intros Hrun. exists services, actions. split_and!; [done | done |].
  repeat match type of Hrun with
         | (?m ≫= _) = Ok _ => destruct m as [[] |]; [rewrite bind_Ok in Hrun | done]
         | (?m ;; _) = Ok _ => destruct m as [[] |]; [rewrite bind_Ok in Hrun | done]
         end.
  by injection Hrun as <-.
Qed.

(** X17.  What a constructor that returns has registered.  The singletons
    and plugins are those of the configuration; the services are the
    configured ones and the loaded files; every action is a local action of
    a service under its qualified name, a configured action or a loaded
    file.  When no service name contains [#], each local action is
    registered under [`${service}#${action}`], in place of a configured
    action of that name if there is one: the loop of local actions
    overwrites without the already-exists test of the file loops. *)
Theorem Broker_new_registers (cfg : Config) (b : Broker) :
  Broker_new cfg = Ok b →
  singletons b = cfg_singletons cfg ∧ plugins b = cfg_plugins cfg ∧
  (∀ name srv, services b !! name = Some srv ↔
               cfg_services cfg !! name = Some srv ∨
               (name, srv) ∈ cfg_serviceFiles cfg) ∧
  (∀ k act, actions b !! k = Some act →
            (k, act) ∈ local_entries (services b) ∨
            cfg_actions cfg !! k = Some act ∨ (k, act) ∈ cfg_actionFiles cfg) ∧
  ((∀ name, is_Some (services b !! name) → includes_hash name = false) →
   ∀ name srv a act,
     services b !! name = Some srv → localActions srv !! a = Some act →
     actions b !! local_name name a = Some act).
Proof.
  intros (services & actions & Hservices & Hactions & ->)%Broker_new_Ok_inv.
  simpl.
  destruct (load_files_Ok_inv _ _ _ _ Hservices) as (_ & _ & Hs).
  destruct (load_files_Ok_inv _ _ _ _ Hactions) as (_ & _ & Ha).
  rewrite register_localActions_entries in Ha.
  split_and!; [done | done | done | |].
  - intros k act [[Hlocal | Hcfg]%foldl_insert_lookup_inv | Hfile]%Ha; auto.
  - intros Hnames name srv a act Hsrv Hlocal. apply Ha. left.
    apply foldl_insert_lookup.
    + apply elem_of_local_entries. by exists name, srv, a.
    + intros act' (name' & srv' & a' & Hsrv' & Hlocal' & Heq)%elem_of_local_entries.
      apply local_name_inj in Heq as [<- <-];
        [| apply Hnames; by eexists | apply Hnames; by eexists].
      congruence.
Qed.

Lemma Broker_new_registers_witness :
  ∃ b, Broker_new (local_config (action_of [] [] (VFunction 1))) = Ok b ∧
       actions b !! "svc#run" = Some (action_of [] [] (VFunction 1)).
Proof.
  destruct (Broker_new (local_config (action_of [] [] (VFunction 1))))
    as [b |] eqn:Hnew.
  2:{ vm_compute in Hnew. discriminate Hnew. }
  exists b. split; [done |].
  destruct (Broker_new_registers _ b Hnew) as (_ & _ & Hservices & _ & Hlocal).
  assert (∀ name, is_Some (services b !! name) → includes_hash name = false)
    as Hnames.
  { intros name [srv Hsrv]. apply Hservices in Hsrv as [Hsrv | Hsrv].
    - unfold local_config, cfg_services in Hsrv.
      apply lookup_insert_Some in Hsrv as [[<- _] | [_ Hsrv]]; [reflexivity |].
      rewrite lookup_empty in Hsrv. discriminate Hsrv.
    - unfold local_config, cfg_serviceFiles in Hsrv.
      apply elem_of_nil in Hsrv. destruct Hsrv. }
  apply (Hlocal Hnames "svc" (local_service (action_of [] [] (VFunction 1)))
           "run").
  - apply Hservices. left. apply lookup_insert_eq.
  - apply lookup_insert_eq.
Defined.

(** ** The names of local actions *)

Lemma split_no_hash (s : string) :
  includes_hash s = false → split hash s = [s].
Proof.
  induction s as [| c s IH]; simpl; [done |].
  intros [Hc Hs]%orb_false_iff. rewrite Hc, (IH Hs). done.
Qed.

Lemma split_local_name (service action : string) :
  includes_hash service = false →
  split hash (local_name service action) = service :: split hash action.
Proof.
  unfold local_name. induction service as [| c s IH]; intros Hservice.
  - change ("" +:+ "#" +:+ action) with (String hash action). done.
  - change (String c s +:+ "#" +:+ action)
      with (String c (s +:+ "#" +:+ action)).
    simpl in *. apply orb_false_iff in Hservice as [Hc Hs].
    by rewrite Hc, (IH Hs).
Qed.

Lemma includes_hash_local_name (service action : string) :
  includes_hash (local_name service action) = true.
Proof.
  unfold local_name. induction service as [| c s IH].
  - change ("" +:+ "#" +:+ action) with (String hash action). done.
  - change (String c s +:+ "#" +:+ action)
      with (String c (s +:+ "#" +:+ action)).
    simpl. rewrite IH. apply orb_true_r.
Qed.


(** X18.  The key under which [startActions] returns an action.  A name
    without [#] is its own key.  The registered name of a local action,
    [`${service}#${action}`] with no [#] in the service name, has as key the
    part of the action name before its first [#]: the action name itself
    when it has none, so that the constructor's qualified name and this key
    are inverse to each other. *)
Theorem realName_of_local_name (service action : string) :
  includes_hash service = false →
  realName service = service ∧
  realName (local_name service action)
  = default EmptyString (head (split hash action)) ∧
  (includes_hash action = false →
   realName (local_name service action) = action).
Proof.
  intros Hservice.
  assert (realName (local_name service action)
          = default EmptyString (head (split hash action))) as Hreal.
  { unfold realName.
    rewrite includes_hash_local_name, (split_local_name _ _ Hservice). simpl.
    by destruct (split hash action). }
  split_and!; [| done |].
  - unfold realName. by rewrite Hservice.
  - intros Haction. by rewrite Hreal, (split_no_hash _ Haction).
Qed.

Lemma realName_of_local_name_witness :
  realName "svc" = "svc" ∧
  realName (local_name "svc" "run")
  = default EmptyString (head (split hash "run")) ∧
  (includes_hash "run" = false → realName (local_name "svc" "run") = "run").
Proof. apply (realName_of_local_name "svc" "run"). reflexivity. Defined.

Example realName_second_part :
  realName (local_name "svc" "run#fast") = "run".
Proof. reflexivity. Qed.

(** ** What the start handler receives *)






Example startService_hands_over_trace :
  trace (startService Toposort.toposort "svc" handover_broker).2
  = [SingletonStart "s1"; SingletonStart "s2"; ActionCompose "doIt";
     ActionCompose "svc#run"; ActionCompose "doThat"; ServiceStart "svc"].
Proof. vm_compute. reflexivity. Qed.

(** ** Construction and resolution together *)

(** A check of [references_known] that computes. *)
Lemma references_known_check (b : Broker) :
  map_Forall
    (λ _ srv,
       Forall (λ s, is_Some (singletons b !! s)) (srv_singletons srv) ∧
       Forall (λ a, startsWith_hash a = false → is_Some (actions b !! a))
         (srv_actions srv))
    (services b) →
  map_Forall
    (λ _ s, Forall (λ r, is_Some (singletons b !! r)) (s_singletons s))
    (singletons b) →
  map_Forall
    (λ _ a, Forall (λ r, is_Some (singletons b !! r)) (a_singletons a))
    (actions b) →
  references_known b.
Proof.
  intros Hservices Hsingletons Hactions. split_and!.
  - intros name srv s Hsrv Hs. destruct (Hservices name srv Hsrv) as [Hall _].
    by apply (proj1 (Forall_forall _ _) Hall).
  - intros name srv a Hsrv Ha. destruct (Hservices name srv Hsrv) as [_ Hall].
    by apply (proj1 (Forall_forall _ _) Hall).
  - intros name s r Hs Hr.
    by apply (proj1 (Forall_forall _ _) (Hsingletons name s Hs)).
  - intros name a r Ha Hr.
    by apply (proj1 (Forall_forall _ _) (Hactions name a Ha)).
Qed.

(** X20.  What the checks of the constructor buy.  In a broker where every
    required singleton is registered, which is what a constructor that
    returns has checked, [sortSingletons] of a registered service never
    fails on a missing entry: for a sort that meets the contract it returns
    the singletons in dependency order, or throws the circular-dependency
    error, which the constructor does not look for. *)
Theorem known_references_resolve
    (sort : list (Key * Key) → result (list Key)) (b : Broker)
    (name : string) (srv : Service) :
  toposort_contract sort →
  references_known b →
  services b !! name = Some srv →
  (∃ l, sortSingletons sort (singletons b) (srv_singletons srv) = Ok l ∧
        resolution_order (singletons b) s_singletons (srv_singletons srv) l) ∨
  (∃ e, sortSingletons sort (singletons b) (srv_singletons srv) = Throw e ∧
        circular_error (singletons b) s_singletons Singletons e).
Proof.
  intros Hsort Hknown Hsrv.
  pose proof (references_known_closed b name srv Hknown Hsrv) as Hclosed.
  destruct (collect_outcome (singletons b) s_singletons Singletons
              (srv_singletons srv))
    as [(all & Hrun) | (e & Hrun & [He | (r & Hr & _ & m & Hm & Hnone)])].
  - left. pose proof (collect_Ok_acyclic _ _ _ _ _ Hrun) as Hacyc.
    by apply sortSingletons_order.
  - right. exists e. split; [| done]. unfold sortSingletons. by rewrite Hrun.
  - destruct (Hclosed m) as [c Hc]; [by exists r | congruence].
Qed.

Lemma known_references_resolve_witness :
  (∃ l, sortSingletons Toposort.toposort (singletons cyclic_broker) ["A"] = Ok l ∧
        resolution_order (singletons cyclic_broker) s_singletons ["A"] l) ∨
  (∃ e, sortSingletons Toposort.toposort (singletons cyclic_broker) ["A"]
        = Throw e ∧
        circular_error (singletons cyclic_broker) s_singletons Singletons e).
Proof.
  apply (known_references_resolve Toposort.toposort cyclic_broker "svc"
           (service_of ["A"] [] false [])).
  - exact ToposortFacts.toposort_meets_contract.
  - apply references_known_check;
      apply (bool_decide_unpack _); vm_compute; exact I.
  - reflexivity.
Defined.

(** ** A [stopService] that returns *)

Lemma bind_Ok_inv {A B : Type} (m : M A) (k : A → M B) (b b' : Broker) (x : B) :
  (m ≫= k) b = (Ok x, b') →
  ∃ a b1, m b = (Ok a, b1) ∧ k a b1 = (Ok x, b').
Proof.
  rewrite run_bind. destruct (m b) as [[a | e] b1]; [by eauto | done].
Qed.

(** X21.  After a [stopService] that returns, the service is not running:
    [isServiceRunning] answers [false], whether the call found the service
    stopped already or went through its stop handler and the stop routines;
    and no other service entry has changed. *)
Theorem stopService_Ok_not_running (name : string) (b b' : Broker) :
  stopService name b = (Ok (), b') →
  isServiceRunning name b' = (Ok false, b') ∧
  ∀ other, other ≠ name → services b' !! other = services b !! other.
Proof.
  intros Hrun. unfold stopService in Hrun.
  destruct (services b !! name) as [srv |] eqn:Hsrv.
  2:{ unfold isServiceRunning in Hrun.
      by rewrite !run_bind, (getServiceByName_missing name b Hsrv) in Hrun. }
  rewrite run_bind, (isServiceRunning_run name b srv Hsrv) in Hrun.
  destruct (isRunning srv) eqn:Hrunning; simpl in Hrun.
  2:{ injection Hrun as <-. split; [| done].
      by rewrite (isServiceRunning_run name b srv Hsrv), Hrunning. }
  assert (services b' = alter (set_isRunning false) name (services b)) as Hservices.
  { rewrite run_bind, (getServiceByName_run name b srv Hsrv) in Hrun.
    apply bind_Ok_inv in Hrun as ([] & b2 & Hhandler & Hrun).
    assert (services b2 = services b) as H2.
    { destruct (stopHandler srv) as [h |]; [| by injection Hhandler as <-].
      pose proof (keeps_bind same_services (emit (ServiceStop name))
                    (λ _, b0 ← get; liftR (h (trace b0)))
                    ltac:(by apply keeps_modify)
                    ltac:(intros; apply keeps_bind;
                          [apply _ | apply keeps_get; apply _ |
                           intros; apply keeps_liftR; apply _]) b) as Hkept.
      by rewrite Hhandler in Hkept. }
    apply bind_Ok_inv in Hrun as (others & b3 & Hothers & Hrun).
    rewrite getRunningServices_run in Hothers. injection Hothers as <- <-.
    apply bind_Ok_inv in Hrun as (startedSingletons & b3 & Hreduce & Hrun).
    pose proof (keeps_startedSingletons_of same_services
                  (filter (λ n : string, n ≠ name) (running_names (services b2)))
                  b2) as H3.
    rewrite Hreduce in H3.
    apply bind_Ok_inv in Hrun as ([] & b4 & Hloop & Hrun).
    match type of Hloop with
    | forM _ ?l () b3 = _ =>
        pose proof (keeps_forM same_services stopService_body l ()
                      keeps_same_services_stopService_body b3) as H4
    end.
    rewrite Hloop in H4. injection Hrun as <-.
    unfold same_services in *. simpl in *. congruence. }
  split.
  - rewrite (isServiceRunning_run name b' (set_isRunning false srv)); [done |].
    by rewrite Hservices, lookup_alter_eq, Hsrv.
  - intros other Hne. by rewrite Hservices, lookup_alter_ne.
Qed.

Lemma stopService_Ok_not_running_witness :
  let b' := (stopService "A" running_broker).2 in
  isServiceRunning "A" b' = (Ok false, b') ∧
  ∀ other, other ≠ "A" → services b' !! other = services running_broker !! other.
Proof.
  apply (stopService_Ok_not_running "A" running_broker
           (stopService "A" running_broker).2).
  vm_compute. reflexivity.
Defined.

(** ** Resolution does not depend on what is running *)

Lemma forEach_ext {A S : Type} (f g : A → S → result S) (l : list A) (s : S) :
  (∀ x s, f x s = g x s) → forEach f l s = forEach g l s.
Proof.
  intros Hext. revert s. induction l as [| x l IH]; intros s; simpl; [done |].
  rewrite Hext. destruct (g x s); [apply IH | done].
Qed.

Lemma size_ext {C D : Type} (m1 : gmap string C) (m2 : gmap string D) :
  (∀ n, is_Some (m1 !! n) ↔ is_Some (m2 !! n)) → size m1 = size m2.
Proof.
  intros Hext. rewrite <- !size_dom. f_equal. apply set_eq. intros n.
  by rewrite !elem_of_dom.
Qed.

Lemma getDependencies_ext {C D : Type} (m1 : gmap string C) (m2 : gmap string D)
    (requires1 : C → list string) (requires2 : D → list string)
    (kind : component) (fuel : nat) :
  (∀ n, requires1 <$> m1 !! n = requires2 <$> m2 !! n) →
  ∀ name dependedBy all,
    getDependencies m1 requires1 kind fuel name dependedBy all
    = getDependencies m2 requires2 kind fuel name dependedBy all.
Proof.
  intros Hext. induction fuel as [| fuel IH]; intros name chain all; [done |].
  simpl. specialize (Hext name).
  destruct (m1 !! name) as [c |], (m2 !! name) as [d |]; simpl in Hext;
    try done.
  injection Hext as ->. apply forEach_ext. intros n t.
  by destruct (includes chain name).
Qed.

Lemma collect_ext {C D : Type} (m1 : gmap string C) (m2 : gmap string D)
    (requires1 : C → list string) (requires2 : D → list string)
    (kind : component) (required : list string) :
  (∀ n, requires1 <$> m1 !! n = requires2 <$> m2 !! n) →
  collect m1 requires1 kind required = collect m2 requires2 kind required.
Proof.
  intros Hext. unfold collect. rewrite (size_ext m1 m2).
  - apply forEach_ext. intros name all. by apply getDependencies_ext.
  - intros n. specialize (Hext n).
    destruct (m1 !! n), (m2 !! n); simpl in Hext; try done; split; by eauto.
Qed.

Lemma sortSingletons_ext (sort : list (Key * Key) → result (list Key))
    (m1 m2 : gmap string Singleton) (required : list string) :
  (∀ n, s_singletons <$> m1 !! n = s_singletons <$> m2 !! n) →
  sortSingletons sort m1 required = sortSingletons sort m2 required.
Proof.
  intros Hext. unfold sortSingletons.
  rewrite (collect_ext m1 m2 s_singletons s_singletons Singletons required Hext).
  destruct (collect m2 s_singletons Singletons required) as [all |]; [| done].
  rewrite !bind_Ok.
  rewrite (forEach_ext (push_singleton_edges m1) (push_singleton_edges m2)); [done |].
  intros name g. unfold push_singleton_edges. specialize (Hext name).
  destruct (m1 !! name), (m2 !! name); simpl in Hext; try done.
  by injection Hext as ->.
Qed.

Lemma sortActions_ext (sort : list (Key * Key) → result (list Key))
    (m1 m2 : gmap string Action) (required : list string)
    (singletons : list Key) :
  (∀ n, (λ a, (a_actions a, a_singletons a)) <$> m1 !! n
        = (λ a, (a_actions a, a_singletons a)) <$> m2 !! n) →
  sortActions sort m1 required singletons
  = sortActions sort m2 required singletons.
Proof.
  intros Hext. unfold sortActions.
  rewrite (collect_ext m1 m2 a_actions a_actions Actions required).
  2:{ intros n. specialize (Hext n).
      destruct (m1 !! n), (m2 !! n); simpl in *; try done.
      by injection Hext as -> _. }
  destruct (collect m2 a_actions Actions required) as [all |]; [| done].
  rewrite !bind_Ok.
  rewrite (forEach_ext (push_action_edges m1 singletons)
             (push_action_edges m2 singletons)); [done |].
  intros name g. unfold push_action_edges. specialize (Hext name).
  destruct (m1 !! name), (m2 !! name); simpl in Hext; try done.
  by injection Hext as -> ->.
Qed.

Global Instance same_requirements_preorder : PreOrder same_requirements.
Proof.
  split.
  - intros b. by split.
  - intros b1 b2 b3 [Hs1 Ha1] [Hs2 Ha2]. split; intros n.
    + by rewrite Hs2.
    + by rewrite Ha2.
Qed.

Lemma same_requirements_frame (b b' : Broker) :
  singletons b' = singletons b → actions b' = actions b →
  same_requirements b b'.
Proof. intros Hs Ha. split; intros n; by rewrite ?Hs, ?Ha. Qed.

Lemma same_requirements_singleton (n : string) (f : Singleton → Singleton)
    (b : Broker) :
  (∀ s, s_singletons (f s) = s_singletons s) →
  same_requirements b (with_singletons (alter f n) b).
Proof.
  intros Hf. split; [| done]. intros k. simpl.
  destruct (decide (n = k)) as [-> | Hne].
  - rewrite lookup_alter_eq. destruct (singletons b !! k); simpl; [| done].
    by rewrite Hf.
  - by rewrite lookup_alter_ne.
Qed.

Lemma same_requirements_action (n : string) (v : value) (b : Broker) :
  same_requirements b (with_actions (alter (set_initializedFn v) n) b).
Proof.
  split; [done |]. intros k. simpl.
  destruct (decide (n = k)) as [-> | Hne].
  - rewrite lookup_alter_eq. by destruct (actions b !! k).
  - by rewrite lookup_alter_ne.
Qed.

Lemma keeps_same_requirements_startSingletons_body (k : Key) (res : obj) :
  keeps same_requirements (startSingletons_body k res).
Proof.
  unfold startSingletons_body. apply keeps_bind; [apply _ | apply keeps_get; apply _ |].
  intros b. destruct k as [n | d]; simpl; [| apply keeps_throw; apply _].
  destruct (singletons b !! n) as [s |]; [| apply keeps_throw; apply _].
  apply keeps_bind; [apply _ | | intros; apply keeps_ret; apply _].
  destruct (negb (started s)); [| apply keeps_ret; apply _].
  apply keeps_bind; [apply _ | apply keeps_liftR; apply _ |]. intros bag.
  apply keeps_bind; [apply _ | |].
  { apply keeps_modify. intros b0. by apply same_requirements_singleton. }
  intros _. apply keeps_bind; [apply _ | |].
  { apply keeps_modify. intros b0. by apply same_requirements_frame. }
  intros _. apply keeps_bind; [apply _ | apply keeps_get; apply _ |]. intros b1.
  apply keeps_bind; [apply _ | apply keeps_liftR; apply _ |]. intros v.
  apply keeps_bind; [apply _ | | intros; apply keeps_ret; apply _].
  apply keeps_modify. intros b0. by apply same_requirements_singleton.
Qed.

Lemma keeps_same_requirements_startActions_body (k : Key) (res : obj) :
  keeps same_requirements (startActions_body k res).
Proof.
  unfold startActions_body. apply keeps_bind; [apply _ | apply keeps_get; apply _ |].
  intros b. destruct k as [n | d]; simpl; [| apply keeps_throw; apply _].
  destruct (actions b !! n) as [a |]; [| apply keeps_throw; apply _].
  apply keeps_bind; [apply _ | | intros; apply keeps_ret; apply _].
  destruct (negb (truthy (initializedFn a))); [| apply keeps_ret; apply _].
  apply keeps_bind; [apply _ | apply keeps_liftR; apply _ |]. intros bagA.
  apply keeps_bind; [apply _ | apply keeps_liftR; apply _ |]. intros bagS.
  apply keeps_bind; [apply _ | |].
  { apply keeps_modify. intros b0. by apply same_requirements_frame. }
  intros _. apply keeps_bind; [apply _ | apply keeps_get; apply _ |]. intros b1.
  apply keeps_bind; [apply _ | apply keeps_liftR; apply _ |]. intros v.
  apply keeps_bind; [apply _ | |].
  { apply keeps_modify. intros b0. apply same_requirements_action. }
  intros _. destruct (negb (isFunction v));
    [apply keeps_throw; apply _ | apply keeps_ret; apply _].
Qed.

Lemma keeps_same_requirements_stopService_body (k : Key) (u : ()) :
  keeps same_requirements (stopService_body k u).
Proof.
  unfold stopService_body. apply keeps_bind; [apply _ | apply keeps_get; apply _ |].
  intros b. destruct k as [n | d]; simpl; [| apply keeps_throw; apply _].
  destruct (singletons b !! n) as [s |]; [| apply keeps_throw; apply _].
  apply keeps_bind; [apply _ | |].
  { apply keeps_modify. intros b0. by apply same_requirements_frame. }
  intros _. apply keeps_bind; [apply _ | apply keeps_get; apply _ |]. intros b1.
  apply keeps_bind; [apply _ | apply keeps_liftR; apply _ |]. intros _.
  apply keeps_modify. intros b0. by apply same_requirements_singleton.
Qed.

(** X22.  The lists cached in [service.dependencies] never go stale.
    Resolution reads the registered names and their requirement lists only,
    and no method changes those: after any sequence of [startService] and
    [stopService] calls, returning or throwing, [sortSingletons] and
    [sortActions] return on the registries what they returned before the
    calls, for every request. *)
Theorem resolution_is_stable
    (sort sort' : list (Key * Key) → result (list Key)) (calls : list call)
    (b : Broker) (requiredSingletons requiredActions : list string)
    (resolved : list Key) :
  sortSingletons sort (singletons (run_calls sort' calls b)) requiredSingletons
  = sortSingletons sort (singletons b) requiredSingletons ∧
  sortActions sort (actions (run_calls sort' calls b)) requiredActions resolved
  = sortActions sort (actions b) requiredActions resolved.
Proof.
  assert (same_requirements b (run_calls sort' calls b)) as [Hs Ha].
  { apply keeps_run_calls; [apply _ | |].
    - intros name. apply keeps_startService; [apply _ | | | | | |].
      + intros b0. by apply same_requirements_frame.
      + intros l b0. by apply same_requirements_frame.
      + intros l b0. by apply same_requirements_frame.
      + intros b0. by apply same_requirements_frame.
      + apply keeps_same_requirements_startSingletons_body.
      + apply keeps_same_requirements_startActions_body.
    - intros name. apply keeps_stopService; [apply _ | | |].
      + intros b0. by apply same_requirements_frame.
      + intros b0. by apply same_requirements_frame.
      + apply keeps_same_requirements_stopService_body. }
  split; [by apply sortSingletons_ext | by apply sortActions_ext].
Qed.

(** ** The requirements handed to a routine *)


(** ** A teardown that stops half-way *)

(** The loop of [stopService] when the stop routine of [n] throws: the
    routines before it were called and their flags cleared, the routine of
    [n] was called, and nothing after it. *)
Lemma stop_loop_partial (stopped rest : list string) (n : string)
    (b : Broker) (s : Singleton) (e : error) :
  (∀ m, m ∈ stopped →
        ∃ s', singletons b !! m = Some s' ∧ ∀ tr, s_stop s' tr = Ok ()) →
  singletons b !! n = Some s →
  (∀ tr, s_stop s tr = Throw e) →
  forM stopService_body (KStr <$> (stopped ++ n :: rest)) () b
  = (Throw e, with_singletons (stop_all stopped)
                (with_trace (λ t, t ++ (SingletonStop <$> (stopped ++ [n]))) b)).
Proof.
  intros Hstopped Hn Hthrows.
  rewrite fmap_app, run_forM_app, (stop_loop_run stopped b Hstopped).
  rewrite fmap_cons. simpl. rewrite run_bind.
  unfold stopService_body at 1. rewrite run_bind. simpl.
  assert (n ∉ stopped) as Hout.
  { intros (s' & Hs' & Hok)%Hstopped. rewrite Hn in Hs'. injection Hs' as <-.
    specialize (Hok []). by rewrite Hthrows in Hok. }
  rewrite lookup_stop_all, decide_False, Hn by done.
  rewrite !run_bind. simpl. rewrite !run_bind. simpl. unfold liftR at 1.
  rewrite Hthrows. unfold with_singletons, with_trace. simpl.
  by rewrite fmap_app, (assoc_L (++)).
Qed.

(** X24.  A [stopService] whose stop handler returns and whose stop routine
    for [n] throws stops half-way: the stop routines of the singletons
    before [n] in the list were called and their [started] flags cleared;
    the routine of [n] was called and its flag, like those of the singletons
    after it, is as it was; the stop routines after [n] were not called; and
    the service is still marked running. *)
Theorem stopService_partial_teardown (name n : string) (b : Broker)
    (service : Service) (stopped rest : list string) (s : Singleton)
    (e : error) :
  services b !! name = Some service →
  isRunning service = true →
  (∀ h tr, stopHandler service = Some h → h tr = Ok ()) →
  singletonsToStop (services b) name service
  = KStr <$> (stopped ++ n :: rest) →
  (∀ m, m ∈ stopped →
        ∃ s', singletons b !! m = Some s' ∧ ∀ tr, s_stop s' tr = Ok ()) →
  singletons b !! n = Some s →
  (∀ tr, s_stop s tr = Throw e) →
  stopService name b
  = (Throw e,
     with_singletons (stop_all stopped)
       (with_trace (λ t, t ++ stopHandler_events name service
                           ++ (SingletonStop <$> (stopped ++ [n]))) b)).
Proof.
  intros Hsrv Hrunning Hhandler Htostop Hstopped Hn Hthrows. unfold stopService.
  rewrite run_bind, (isServiceRunning_run name b service Hsrv), Hrunning. simpl.
  rewrite run_bind, (getServiceByName_run name b service Hsrv).
  rewrite run_bind.
  set (b0 := with_trace (λ t, t ++ stopHandler_events name service) b).
  assert ((match stopHandler service with
           | Some handler =>
               emit (ServiceStop name);; b1 ← get; liftR (handler (trace b1))
           | None => mret ()
           end) b = (Ok (), b0)) as ->.
  { subst b0. unfold stopHandler_events.
    destruct (stopHandler service) as [h |] eqn:Hh.
    - rewrite !run_bind. simpl. rewrite !run_bind. simpl. unfold liftR.
      by rewrite (Hhandler h _ eq_refl).
    - destruct b. unfold mret, M_ret, ret, with_trace. simpl. by rewrite app_nil_r. }
  rewrite run_bind, getRunningServices_run.
  rewrite run_bind, startedSingletons_of_run.
  2:{ intros x [_ (srv & Hs & _)%elem_of_running_names]%list_elem_of_filter.
      by exists srv. }
  change (services b0) with (services b).
  fold (others_singletons (services b) name).
  fold (singletonsToStop (services b) name service).
  rewrite Htostop, run_bind.
  rewrite (stop_loop_partial stopped rest n b0 s e); [| done | done | done].
  subst b0. unfold with_singletons, with_trace. simpl.
  by rewrite <- (assoc_L (++)).
Qed.

Lemma stopService_partial_teardown_witness :
  stopService "svc" partial_stop_broker
  = (Throw (Error "busy"),
     with_singletons (stop_all ["cache"])
       (with_trace
          (λ t, t ++ stopHandler_events "svc"
                       (set_dep_singletons [KStr "cache"; KStr "db"]
                          (service_of ["db"] [] true []))
                  ++ (SingletonStop <$> (["cache"] ++ ["db"])))
          partial_stop_broker)).
Proof.
  apply (stopService_partial_teardown "svc" "db" partial_stop_broker
           (set_dep_singletons [KStr "cache"; KStr "db"]
              (service_of ["db"] [] true []))
           ["cache"] []
           (set_instance (VNum 1)
              (set_started true (failing_stop ["cache"] (VNum 1) (Error "busy"))))
           (Error "busy")).
  - vm_compute. reflexivity.
  - reflexivity.
  - intros h tr [=].
  - vm_compute. reflexivity.
  - intros m ->%list_elem_of_singleton.
    exists (set_instance (VNum 2) (set_started true (singleton_of [] (VNum 2)))).
    split; [vm_compute; reflexivity | done].
  - vm_compute. reflexivity.
  - done.
Defined.
